(** * Meeting-insights API: task graph pipeline and job queue

    A shallow embedding of the TypeScript services of the repository
    (validationService, cycleDetectionService, llmService, jobQueue,
    idempotencyService, utils/hash and the three routers) together with
    the properties of the specification that were checked against them,
    and with further properties of the same code.

    Conventions.
    - A JavaScript [Set<string>] whose iteration order is never observed is
      a [gset string]; a [Map<string, string[]>] whose [keys()] order is
      observed is an insertion-ordered association list.
    - A MongoDB collection is the list of its documents in insertion order;
      [findOne] returns the first match.
    - Recursion of the source that is not structural carries a fuel
      argument; the lemmas [dfs_enough_fuel] and [dfsSort_enough_fuel] show
      that the fuel the callers pass is always sufficient.
    - A value of type [any] is a [JsValue]; a function that can throw
      returns a sum whose left side is the error.
    - [await] is a suspension point: the server is a transition system
      whose steps are the handler calls and the resumptions of the
      suspended [processQueue] activation, by the result or by the
      rejection of what it awaits; a handler that awaits takes the events
      that occur while it is suspended as arguments. *)

From stdpp Require Import gmap strings list relations pretty.
From Corelib Require SpecFloat.
From Stdlib.Strings Require Ascii Byte.

(* [set_solver] clears hypotheses by name and warns when one is gone. *)
Set Warnings "-clear-no-such-hyp".

Open Scope string_scope.
Open Scope nat_scope.
Open Scope list_scope.

(* ===================================================================== *)
(** * Data model (models/Task.ts, models/Transcript.ts, llmService.ts)    *)
(* ===================================================================== *)

Inductive Priority := high | medium | low.

(** ['ready' | 'blocked' | 'completed' | 'error'] of [ITask.status]. *)
Module TaskStatus.
Inductive t := ready | blocked | completed | error.
End TaskStatus.

#[global] Instance TaskStatus_eq_dec : EqDecision TaskStatus.t.
Proof. solve_decision. Defined.

(** ['pending' | 'processing' | 'completed' | 'failed'], the status of a
    Transcript document and of an in-memory Job. *)
Module JobStatus.
Inductive t := pending | processing | completed | failed.
End JobStatus.

#[global] Instance JobStatus_eq_dec : EqDecision JobStatus.t.
Proof. solve_decision. Defined.

(** [interface TaskOutput] of llmService.ts. *)
Module TaskOutput.
Record t := mk {
  id : string;
  description : string;
  priority : Priority;
  dependencies : list string
}.
End TaskOutput.

(** [interface ValidatedTask extends TaskOutput] of validationService.ts. *)
Module ValidatedTask.
Record t := mk {
  id : string;
  description : string;
  priority : Priority;
  dependencies : list string;
  status : TaskStatus.t;
  errorMessage : option string;
  sanitizedDependencies : option (list string)
}.

Definition with_status (s : TaskStatus.t) (task : t) : t :=
  mk (id task) (description task) (priority task) (dependencies task)
     s (errorMessage task) (sanitizedDependencies task).
End ValidatedTask.

(* ===================================================================== *)
(** * ValidationService (validationService.ts)                            *)
(* ===================================================================== *)

(** [validateAndSanitizeTasks]: keeps the dependency ids that are ids of
    the batch, records the others, and gives every task status ['ready']. *)
Definition validateAndSanitizeTasks (tasks : list TaskOutput.t)
  : list ValidatedTask.t :=
  let validTaskIds : gset string := list_to_set (TaskOutput.id <$> tasks) in
  (λ task,
     let originalDependencies := TaskOutput.dependencies task in
     let validDependencies :=
       filter (λ depId, depId ∈ validTaskIds) originalDependencies in
     let invalidDependencies :=
       filter (λ depId, depId ∉ validTaskIds) originalDependencies in
     ValidatedTask.mk
       (TaskOutput.id task) (TaskOutput.description task)
       (TaskOutput.priority task)
       validDependencies
       TaskStatus.ready
       None
       (if decide (0 < length invalidDependencies)
        then Some invalidDependencies else None)) <$> tasks.

(** [calculateTaskStatuses]: tasks in error are returned as they are; the
    others become ['blocked'] when some dependency is not completed and
    ['ready'] otherwise. *)
Definition calculateTaskStatuses (tasks : list ValidatedTask.t)
    (completedTaskIds : gset string) : list ValidatedTask.t :=
  (λ task,
     if decide (ValidatedTask.status task = TaskStatus.error) then task
     else
       let hasUnmetDependencies :=
         existsb (λ depId, bool_decide (depId ∉ completedTaskIds))
                 (ValidatedTask.dependencies task) in
       ValidatedTask.with_status
         (if hasUnmetDependencies then TaskStatus.blocked else TaskStatus.ready)
         task) <$> tasks.

(* ===================================================================== *)
(** * CycleDetectionService (cycleDetectionService.ts)                    *)
(* ===================================================================== *)

(** A [Map<string, V>] with its insertion order: [set] on a present key
    replaces the value in place, on an absent key appends the entry. *)
Module JsMap.
Section JsMap.
Context {V : Type}.

Fixpoint set (k : string) (v : V) (m : list (string * V))
  : list (string * V) :=
  match m with
  | [] => [(k, v)]
  | (k', v') :: m' =>
      if decide (k' = k) then (k, v) :: m' else (k', v') :: set k v m'
  end.

Fixpoint get (k : string) (m : list (string * V)) : option V :=
  match m with
  | [] => None
  | (k', v') :: m' => if decide (k' = k) then Some v' else get k m'
  end.

Definition keys (m : list (string * V)) : list string := fst <$> m.
End JsMap.
End JsMap.

Abbreviation Graph := (list (string * list string)).

(** [buildGraph]: one entry per task id, holding its dependency list. *)
Definition buildGraph (tasks : list ValidatedTask.t) : Graph :=
  foldl (λ graph task,
           JsMap.set (ValidatedTask.id task) (ValidatedTask.dependencies task)
                     graph)
        [] tasks.

(** [graph.get(node) || []]. *)
Definition neighbors (graph : Graph) (node : string) : list string :=
  default [] (JsMap.get node graph).

(** The three sets that [dfs] mutates. *)
Record DfsState := mkDfs {
  visited : gset string;
  recursionStack : gset string;
  cycleNodes : gset string
}.

Definition enter (node : string) (st : DfsState) : DfsState :=
  mkDfs ({[node]} ∪ visited st) ({[node]} ∪ recursionStack st) (cycleNodes st).

Definition leave (node : string) (st : DfsState) : DfsState :=
  mkDfs (visited st) (recursionStack st ∖ {[node]}) (cycleNodes st).

Definition add_cycle (node : string) (st : DfsState) : DfsState :=
  mkDfs (visited st) (recursionStack st) ({[node]} ∪ cycleNodes st).

(** The [for (const neighbor of neighbors)] loop of [dfs], with the
    recursive call abstracted as [rec]. *)
Fixpoint dfs_neighbors (rec : string → DfsState → option (bool * DfsState))
    (node : string) (ns : list string) (st : DfsState)
  : option (bool * DfsState) :=
  match ns with
  | [] => Some (false, leave node st)
  | neighbor :: ns' =>
      if decide (neighbor ∉ visited st) then
        match rec neighbor st with
        | None => None
        | Some (true, st') => Some (true, add_cycle node st')
        | Some (false, st') => dfs_neighbors rec node ns' st'
        end
      else if decide (neighbor ∈ recursionStack st) then
        Some (true, add_cycle neighbor (add_cycle node st))
      else dfs_neighbors rec node ns' st
  end.

(** [dfs]: [None] only when the fuel runs out. *)
Fixpoint dfs (fuel : nat) (graph : Graph) (node : string) (st : DfsState)
  : option (bool * DfsState) :=
  match fuel with
  | O => None
  | S fuel' =>
      dfs_neighbors (dfs fuel' graph) node (neighbors graph node) (enter node st)
  end.

(** Every id that occurs in the graph, as a key or as a dependency. *)
Definition graph_nodes (graph : Graph) : list string :=
  JsMap.keys graph ++ mjoin (snd <$> graph).

(** The recursion depth of [dfs] never exceeds the number of distinct ids. *)
Definition dfs_fuel (graph : Graph) : nat := S (length (graph_nodes graph)).

(** The [for (const taskId of graph.keys())] loop of [detectCycles]. *)
Fixpoint detect_loop (graph : Graph) (ks : list string) (st : DfsState)
  : option DfsState :=
  match ks with
  | [] => Some st
  | taskId :: ks' =>
      if decide (taskId ∉ visited st) then
        match dfs (dfs_fuel graph) graph taskId st with
        | None => None
        | Some (_, st') => detect_loop graph ks' st'
        end
      else detect_loop graph ks' st
  end.

Record CycleDetectionResult := mkResult {
  hasCycles : bool;
  cycleNodesOf : gset string;
  tasksOf : list ValidatedTask.t
}.

Definition cycle_error_message : string :=
  "This task is part of a circular dependency".

Definition mark_cycle (cyc : gset string) (task : ValidatedTask.t)
  : ValidatedTask.t :=
  if decide (ValidatedTask.id task ∈ cyc) then
    ValidatedTask.mk
      (ValidatedTask.id task) (ValidatedTask.description task)
      (ValidatedTask.priority task) (ValidatedTask.dependencies task)
      TaskStatus.error (Some cycle_error_message)
      (ValidatedTask.sanitizedDependencies task)
  else task.

Definition initial_dfs_state : DfsState := mkDfs ∅ ∅ ∅.

(** The sets at the end of the traversal of [detectCycles]. *)
Definition detect_state (tasks : list ValidatedTask.t) : option DfsState :=
  let graph := buildGraph tasks in
  detect_loop graph (JsMap.keys graph) initial_dfs_state.

Definition detectCycles_opt (tasks : list ValidatedTask.t)
  : option CycleDetectionResult :=
  st ← detect_state tasks;
  Some (mkResult (bool_decide (0 < size (cycleNodes st)))
                 (cycleNodes st)
                 (mark_cycle (cycleNodes st) <$> tasks)).

(** [detectCycles]. The traversal always returns ([detectCycles_total]);
    the fallback branch is unreachable. *)
Definition detectCycles (tasks : list ValidatedTask.t) : CycleDetectionResult :=
  default (mkResult false ∅ tasks) (detectCycles_opt tasks).

(** The state of the closure of [topologicalSort]. *)
Record SortState := mkSort {
  sortVisited : gset string;
  sortStack : gset string;
  result : list string
}.

(** The neighbour loop of [dfsSort]; [false] signals a cycle. *)
Fixpoint dfsSort_neighbors
    (rec : string → SortState → option (bool * SortState))
    (node : string) (ns : list string) (st : SortState)
  : option (bool * SortState) :=
  match ns with
  | [] =>
      Some (true, mkSort (sortVisited st) (sortStack st ∖ {[node]})
                         (result st ++ [node]))
  | neighbor :: ns' =>
      if decide (neighbor ∉ sortVisited st) then
        match rec neighbor st with
        | None => None
        | Some (false, st') => Some (false, st')
        | Some (true, st') => dfsSort_neighbors rec node ns' st'
        end
      else if decide (neighbor ∈ sortStack st) then Some (false, st)
      else dfsSort_neighbors rec node ns' st
  end.

Fixpoint dfsSort (fuel : nat) (graph : Graph) (node : string) (st : SortState)
  : option (bool * SortState) :=
  match fuel with
  | O => None
  | S fuel' =>
      dfsSort_neighbors (dfsSort fuel' graph) node (neighbors graph node)
        (mkSort ({[node]} ∪ sortVisited st) ({[node]} ∪ sortStack st)
                (result st))
  end.

(** The outcome of [topologicalSort]: [string[] | null]. *)
Inductive SortOutcome :=
| Sorted (order : list string)
| Null.

Fixpoint sort_loop (graph : Graph) (ks : list string) (st : SortState)
  : option SortOutcome :=
  match ks with
  | [] => Some (Sorted (reverse (result st)))
  | taskId :: ks' =>
      if decide (taskId ∉ sortVisited st) then
        match dfsSort (dfs_fuel graph) graph taskId st with
        | None => None
        | Some (false, _) => Some Null
        | Some (true, st') => sort_loop graph ks' st'
        end
      else sort_loop graph ks' st
  end.

(** [topologicalSort]; [None] only if the fuel ran out, which
    [topologicalSort_total] excludes. *)
Definition topologicalSort (tasks : list ValidatedTask.t) : option SortOutcome :=
  let graph := buildGraph tasks in
  sort_loop graph (JsMap.keys graph) (mkSort ∅ ∅ []).

(** ** Directed cycles of a dependency graph *)

(** [edge graph u v]: [u] lists [v] among its dependencies. *)
Definition edge (graph : Graph) (u v : string) : Prop := v ∈ neighbors graph u.

(** [u] lies on a directed cycle: a path of at least one edge leads from
    [u] back to [u]. *)
Definition on_cycle (graph : Graph) (u : string) : Prop := tc (edge graph) u u.

Definition has_cycle (graph : Graph) : Prop := ∃ u, on_cycle graph u.

(* ===================================================================== *)
(** * Persistence (models/Task.ts, models/Transcript.ts)                  *)
(* ===================================================================== *)

(** [metadata] of a Transcript; times are milliseconds of [Date.now()]. *)
Record Metadata := mkMetadata {
  taskCount : nat;
  cyclesDetected : bool;
  processingTime : Z
}.

(** [interface ITranscript]; [oid] is the document's [_id]. The
    [createdAt]/[updatedAt] stamps are not modelled. *)
Module ITranscript.
Record t := mk {
  oid : nat;
  jobId : string;
  content : string;
  contentHash : string;
  status : JobStatus.t;
  errorMessage : option string;
  metadata : option Metadata
}.
End ITranscript.

(** [interface ITask]. *)
Module ITask.
Record t := mk {
  taskId : string;
  description : string;
  priority : Priority;
  dependencies : list string;
  status : TaskStatus.t;
  errorMessage : option string;
  transcriptId : nat
}.

Definition with_status (s : TaskStatus.t) (doc : t) : t :=
  mk (taskId doc) (description doc) (priority doc) (dependencies doc)
     s (errorMessage doc) (transcriptId doc).
End ITask.

(** The two collections. *)
Record Db := mkDb {
  transcripts : list ITranscript.t;
  tasks : list ITask.t
}.

(** [Model.findOne(filter)]: the first document that matches. *)
Fixpoint findOne {A : Type} (p : A → bool) (coll : list A) : option A :=
  match coll with
  | [] => None
  | doc :: coll' => if p doc then Some doc else findOne p coll'
  end.

(** [Model.findOneAndUpdate(filter, update)]: the first document that
    matches is updated in place; no match leaves the collection as it is. *)
Fixpoint findOneAndUpdate {A : Type} (p : A → bool) (upd : A → A)
    (coll : list A) : list A :=
  match coll with
  | [] => []
  | doc :: coll' =>
      if p doc then upd doc :: coll' else doc :: findOneAndUpdate p upd coll'
  end.

Definition byJobId (j : string) (tr : ITranscript.t) : bool :=
  bool_decide (ITranscript.jobId tr = j).

Definition byContentHash (h : string) (tr : ITranscript.t) : bool :=
  bool_decide (ITranscript.contentHash tr = h).

Definition byTaskId (i : string) (doc : ITask.t) : bool :=
  bool_decide (ITask.taskId doc = i).

Definition byTranscriptId (o : nat) (doc : ITask.t) : bool :=
  bool_decide (ITask.transcriptId doc = o).

(** The update documents that jobQueue.ts sends. *)
Definition set_processing (tr : ITranscript.t) : ITranscript.t :=
  ITranscript.mk (ITranscript.oid tr) (ITranscript.jobId tr)
    (ITranscript.content tr) (ITranscript.contentHash tr)
    JobStatus.processing (ITranscript.errorMessage tr) (ITranscript.metadata tr).

Definition set_completed (md : Metadata) (tr : ITranscript.t) : ITranscript.t :=
  ITranscript.mk (ITranscript.oid tr) (ITranscript.jobId tr)
    (ITranscript.content tr) (ITranscript.contentHash tr)
    JobStatus.completed (ITranscript.errorMessage tr) (Some md).

Definition set_failed (msg : string) (tr : ITranscript.t) : ITranscript.t :=
  ITranscript.mk (ITranscript.oid tr) (ITranscript.jobId tr)
    (ITranscript.content tr) (ITranscript.contentHash tr)
    JobStatus.failed (Some msg) (ITranscript.metadata tr).

Definition duplicate_key_message : string := "E11000 duplicate key error".

Definition validation_message : string := "Task validation failed".

(** The [required: true] validators of the Task schema on the string
    fields; a required string must not be empty. *)
Definition task_valid (doc : ITask.t) : bool :=
  bool_decide (ITask.taskId doc ≠ "") && bool_decide (ITask.description doc ≠ "").

(** The ordered insert under the unique index on [taskId]: documents are
    written in order; the first one whose [taskId] is already in the
    collection raises the duplicate-key error and stops the insert, the
    documents before it staying written. *)
Fixpoint insert_ordered (docs : list ITask.t) (coll : list ITask.t)
  : option string * list ITask.t :=
  match docs with
  | [] => (None, coll)
  | doc :: docs' =>
      if decide (ITask.taskId doc ∈ (ITask.taskId <$> coll))
      then (Some duplicate_key_message, coll)
      else insert_ordered docs' (coll ++ [doc])
  end.

(** [Task.insertMany(docs)]: all documents are validated first, and a
    validation error writes nothing; then the ordered insert runs. The
    first component is the error raised, if any. *)
Definition insertMany (docs : list ITask.t) (coll : list ITask.t)
  : option string * list ITask.t :=
  if forallb task_valid docs then insert_ordered docs coll
  else (Some validation_message, coll).

(** [new Transcript({jobId, content, contentHash, status: 'pending'})]
    followed by [save()]: the three strings are required, and [jobId] has
    a unique index. The new document is appended with a fresh [_id]. *)
Definition saveTranscript (jobId content contentHash : string)
    (coll : list ITranscript.t) : (string + ITranscript.t) * list ITranscript.t :=
  if bool_decide (jobId = "") || bool_decide (content = "")
     || bool_decide (contentHash = "")
  then (inl "Transcript validation failed", coll)
  else if decide (jobId ∈ (ITranscript.jobId <$> coll))
  then (inl duplicate_key_message, coll)
  else
    let doc := ITranscript.mk (length coll) jobId content contentHash
                              JobStatus.pending None None in
    (inr doc, coll ++ [doc]).

(** The document that [processJob] builds from a validated task. *)
Definition task_doc (transcriptOid : nat) (task : ValidatedTask.t) : ITask.t :=
  ITask.mk (ValidatedTask.id task) (ValidatedTask.description task)
    (ValidatedTask.priority task) (ValidatedTask.dependencies task)
    (ValidatedTask.status task) (ValidatedTask.errorMessage task)
    transcriptOid.

(* ===================================================================== *)
(** * JobQueue (jobQueue.ts)                                              *)
(* ===================================================================== *)

(** [interface Job]. *)
Record Job := mkJob {
  jobId : string;
  transcriptId : nat;
  status : JobStatus.t;
  startTime : option Z;
  endTime : option Z
}.

Definition job_set_processing (now : Z) (job : Job) : Job :=
  mkJob (jobId job) (transcriptId job) JobStatus.processing (Some now)
        (endTime job).

Definition job_set_completed (now : Z) (job : Job) : Job :=
  mkJob (jobId job) (transcriptId job) JobStatus.completed (startTime job)
        (Some now).

Definition job_set_failed (now : Z) (job : Job) : Job :=
  mkJob (jobId job) (transcriptId job) JobStatus.failed (startTime job)
        (Some now).

(** What the awaited call [llmService.extractTasksFromTranscript] settles
    to: the task list, or a thrown [Error] with its message. *)
Inductive Extraction :=
| Extracted (tasks : list TaskOutput.t)
| ExtractionFailure (message : string).

(** [error.message || 'Unknown error occurred']. *)
Definition captured_message (message : string) : string :=
  if decide (message = "") then "Unknown error occurred" else message.

(** An activation of [processQueue], suspended at one of the [await]s of
    [processJob] or at [await this.processJob(job)]. [job] is the reference
    of the Job object, an index into [jobObjects]. *)
Inductive Await :=
| AwaitMarkProcessing (job : nat) (start : Z)
| AwaitFindTranscript (job : nat) (start : Z)
| AwaitExtract (job : nat) (start : Z) (transcript : ITranscript.t)
| AwaitInsertMany (job : nat) (start : Z) (transcript : ITranscript.t)
    (cycleResult : CycleDetectionResult)
| AwaitMarkCompleted (job : nat) (finish : Z) (md : Metadata)
| AwaitMarkFailed (job : nat) (message : string)
| AwaitProcessJob.

(** The server: the fields of the [JobQueue] singleton, the suspended
    [processQueue] activations, and the database. Job objects live in
    [jobObjects] and are shared by reference between the [jobs] map and
    the activation that processes them. [enqueuedLog] and [startedLog] are
    history variables: the job ids passed to [enqueueJob] and the job ids
    handed to [processJob], both in order. *)
Record Server := mkServer {
  jobObjects : list Job;
  jobs : gmap string nat;
  processingQueue : list string;
  isProcessing : bool;
  workers : list Await;
  db : Db;
  enqueuedLog : list string;
  startedLog : list string
}.

Definition initial_server : Server :=
  mkServer [] ∅ [] false [] (mkDb [] []) [] [].

Definition with_db (d : Db) (s : Server) : Server :=
  mkServer (jobObjects s) (jobs s) (processingQueue s) (isProcessing s)
           (workers s) d (enqueuedLog s) (startedLog s).

Definition with_workers (ws : list Await) (s : Server) : Server :=
  mkServer (jobObjects s) (jobs s) (processingQueue s) (isProcessing s)
           ws (db s) (enqueuedLog s) (startedLog s).

Definition update_job (ref : nat) (f : Job → Job) (s : Server) : Server :=
  mkServer (alter f ref (jobObjects s)) (jobs s) (processingQueue s)
           (isProcessing s) (workers s) (db s) (enqueuedLog s) (startedLog s).

Definition update_transcripts (f : list ITranscript.t → list ITranscript.t)
    (s : Server) : Server :=
  with_db (mkDb (f (transcripts (db s))) (tasks (db s))) s.

(** The body of the [while] loop of [processQueue] up to the call of
    [processJob]: shift ids off the queue, skipping a falsy id and an id
    without Job, until one has a Job. Returns the Job reference, its id and
    the rest of the queue. *)
Fixpoint next_job (jobs : gmap string nat) (queue : list string)
  : option (nat * string * list string) :=
  match queue with
  | [] => None
  | jobId :: queue' =>
      if decide (jobId = "") then next_job jobs queue'
      else match jobs !! jobId with
           | None => next_job jobs queue'
           | Some ref => Some (ref, jobId, queue')
           end
  end.

(** The [while] loop of [processQueue] from its head to the first [await]
    of [processJob], or to [this.isProcessing = false]. The result is the
    new state and what the activation awaits ([None]: it has returned). *)
Definition loop_head (now : Z) (s : Server) : Server * option Await :=
  match next_job (jobs s) (processingQueue s) with
  | None =>
      (mkServer (jobObjects s) (jobs s) [] false (workers s) (db s)
                (enqueuedLog s) (startedLog s), None)
  | Some (ref, jobId, queue') =>
      (mkServer (alter (job_set_processing now) ref (jobObjects s)) (jobs s)
                queue' (isProcessing s) (workers s) (db s)
                (enqueuedLog s) (startedLog s ++ [jobId]),
       Some (AwaitMarkProcessing ref now))
  end.

(** [processQueue()], called without [await]: runs to its first [await]. *)
Definition processQueue (now : Z) (s : Server) : Server :=
  if isProcessing s || bool_decide (length (processingQueue s) = 0) then s
  else
    let s1 := mkServer (jobObjects s) (jobs s) (processingQueue s) true
                       (workers s) (db s) (enqueuedLog s) (startedLog s) in
    match loop_head now s1 with
    | (s2, None) => s2
    | (s2, Some a) => with_workers (workers s2 ++ [a]) s2
    end.

(** [enqueueJob(jobId, transcriptId)]. *)
Definition enqueueJob (jobId : string) (transcriptId : nat) (now : Z)
    (s : Server) : Server :=
  let job := mkJob jobId transcriptId JobStatus.pending None None in
  let s1 := mkServer (jobObjects s ++ [job])
                     (<[jobId := length (jobObjects s)]> (jobs s))
                     (processingQueue s ++ [jobId]) (isProcessing s)
                     (workers s) (db s)
                     (enqueuedLog s ++ [jobId]) (startedLog s) in
  if negb (isProcessing s1) then processQueue now s1 else s1.

(** The [catch (error)] block of [processJob] up to its [await]. *)
Definition catch_error (ref : nat) (message : string) (now : Z) (s : Server)
  : Server * option Await :=
  (update_job ref (job_set_failed now) s,
   Some (AwaitMarkFailed ref (captured_message message))).

Definition job_id_of (ref : nat) (s : Server) : string :=
  default "" (jobId <$> jobObjects s !! ref).

(** One resumption of a suspended activation: the awaited operation takes
    effect, and the code runs to the next [await]. [now] is what
    [Date.now()] returns and [gen] what the generator call settles to,
    should the activation read them. Here the awaited database operation
    succeeds, apart from the validation and duplicate-key errors of
    [insertMany]; [reject] below is the other outcome. *)
Definition resume (a : Await) (now : Z) (gen : Extraction) (s : Server)
  : Server * option Await :=
  match a with
  | AwaitMarkProcessing ref start =>
      (update_transcripts
         (findOneAndUpdate (byJobId (job_id_of ref s)) set_processing) s,
       Some (AwaitFindTranscript ref start))
  | AwaitFindTranscript ref start =>
      match findOne (byJobId (job_id_of ref s)) (transcripts (db s)) with
      | None => catch_error ref "Transcript not found" now s
      | Some transcript => (s, Some (AwaitExtract ref start transcript))
      end
  | AwaitExtract ref start transcript =>
      match gen with
      | ExtractionFailure message => catch_error ref message now s
      | Extracted llmTasks =>
          let validatedTasks := validateAndSanitizeTasks llmTasks in
          let cycleResult := detectCycles validatedTasks in
          (s, Some (AwaitInsertMany ref start transcript cycleResult))
      end
  | AwaitInsertMany ref start transcript cycleResult =>
      let docs := task_doc (ITranscript.oid transcript) <$> tasksOf cycleResult in
      match insertMany docs (tasks (db s)) with
      | (Some message, coll) =>
          catch_error ref message now
            (with_db (mkDb (transcripts (db s)) coll) s)
      | (None, coll) =>
          (with_db (mkDb (transcripts (db s)) coll) s,
           Some (AwaitMarkCompleted ref now
                   (mkMetadata (length docs) (hasCycles cycleResult)
                               (now - start))))
      end
  | AwaitMarkCompleted ref finish md =>
      (update_job ref (job_set_completed finish)
         (update_transcripts
            (findOneAndUpdate (byJobId (job_id_of ref s)) (set_completed md)) s),
       Some AwaitProcessJob)
  | AwaitMarkFailed ref message =>
      (update_transcripts
         (findOneAndUpdate (byJobId (job_id_of ref s)) (set_failed message)) s,
       Some AwaitProcessJob)
  | AwaitProcessJob => loop_head now s
  end.

(** The other way an awaited operation settles: it rejects with an error
    whose [message] is given (the database is not reachable, the generator
    call fails), and has written nothing. Inside the [try] of [processJob]
    the error reaches its [catch]. The update of the [catch] block is not
    guarded: its error makes [processJob] reject, and the
    [try]/[catch] of [processQueue] around [await this.processJob(job)]
    logs it and goes on with the loop, as it does when [processJob]
    returns. *)
Definition reject (a : Await) (message : string) (now : Z) (s : Server)
  : Server * option Await :=
  match a with
  | AwaitMarkProcessing ref _ | AwaitFindTranscript ref _
  | AwaitExtract ref _ _ | AwaitInsertMany ref _ _ _
  | AwaitMarkCompleted ref _ _ => catch_error ref message now s
  | AwaitMarkFailed _ _ => (s, Some AwaitProcessJob)
  | AwaitProcessJob => loop_head now s
  end.

(* ===================================================================== *)
(** * Routes                                                              *)
(* ===================================================================== *)

(** ** PATCH /api/tasks/:taskId/complete (taskRoutes.ts) *)

Definition as_validated (doc : ITask.t) : ValidatedTask.t :=
  ValidatedTask.mk (ITask.taskId doc) (ITask.description doc)
    (ITask.priority doc) (ITask.dependencies doc) (ITask.status doc) None None.

(** The [for (const updatedTask of updatedTasks)] loop. *)
Definition save_statuses (updatedTasks : list ValidatedTask.t)
    (coll : list ITask.t) : list ITask.t :=
  foldl (λ coll updatedTask,
           findOneAndUpdate (byTaskId (ValidatedTask.id updatedTask))
             (ITask.with_status (ValidatedTask.status updatedTask)) coll)
        coll updatedTasks.

(** The data of the 200 response. *)
Record CompleteResult := mkCompleteResult {
  completedTask : ITask.t;
  allTasks : list ITask.t
}.

(** The handler, on the Task collection; [None] is the 404 response.
    [task.save()] writes the status of the document that [findOne]
    returned, which is the first one with that [taskId]. *)
Definition complete_task (taskId : string) (coll : list ITask.t)
  : option CompleteResult * list ITask.t :=
  match findOne (byTaskId taskId) coll with
  | None => (None, coll)
  | Some found =>
      let task := ITask.with_status TaskStatus.completed found in
      let coll1 :=
        findOneAndUpdate (byTaskId taskId)
          (ITask.with_status TaskStatus.completed) coll in
      let allTasks := filter (λ t, byTranscriptId (ITask.transcriptId task) t) coll1 in
      let completedTaskIds : gset string :=
        list_to_set
          (ITask.taskId <$>
             filter (λ t, ITask.status t = TaskStatus.completed) allTasks) in
      let tasksToUpdate :=
        as_validated <$>
          filter (λ t, ITask.status t ≠ TaskStatus.completed
                       ∧ ITask.status t ≠ TaskStatus.error) allTasks in
      let updatedTasks := calculateTaskStatuses tasksToUpdate completedTaskIds in
      let coll2 := save_statuses updatedTasks coll1 in
      let finalTasks := filter (λ t, byTranscriptId (ITask.transcriptId task) t) coll2 in
      (Some (mkCompleteResult task finalTasks), coll2)
  end.

(** ** GET /api/jobs/:jobId (jobRoutes.ts) *)

(** The data of the 200 response. *)
Record JobSnapshot := mkJobSnapshot {
  snapshotJobId : string;
  snapshotStatus : JobStatus.t;
  snapshotTranscriptId : nat;
  snapshotContent : string;
  snapshotTasks : list ITask.t;
  snapshotMetadata : option Metadata;
  snapshotErrorMessage : option string;
  queueStatus : option Job
}.

(** [jobQueue.getJobStatus(jobId)]. *)
Definition getJobStatus (jobId : string) (s : Server) : option Job :=
  ref ← jobs s !! jobId; jobObjects s !! ref.

(** The handler; [None] is the 404 response. The transcript is read from
    the Transcript collection as it is at the first [await], the tasks from
    the Task collection as it is at the second one. *)
Definition get_job (jobId : string) (transcriptsNow : list ITranscript.t)
    (tasksLater : list ITask.t) (s : Server) : option JobSnapshot :=
  match findOne (byJobId jobId) transcriptsNow with
  | None => None
  | Some transcript =>
      let jobStatus := getJobStatus jobId s in
      let tasks :=
        if decide (ITranscript.status transcript = JobStatus.completed)
        then filter (λ t, byTranscriptId (ITranscript.oid transcript) t) tasksLater
        else [] in
      Some (mkJobSnapshot jobId (ITranscript.status transcript)
              (ITranscript.oid transcript) (ITranscript.content transcript)
              tasks (ITranscript.metadata transcript)
              (ITranscript.errorMessage transcript) jobStatus)
  end.

(** ** The server as a transition system *)

(** What can happen to the server: the calls that other handlers make on
    the queue and on the database, and the resumption of a suspended
    [processQueue] activation, by the result of what it awaits or by its
    rejection. *)
Inductive Event :=
| EvSaveTranscript (jobId content contentHash : string)
| EvEnqueue (jobId : string) (transcriptId : nat) (now : Z)
| EvCompleteTask (taskId : string)
| EvResume (w : nat) (now : Z) (gen : Extraction)
| EvReject (w : nat) (now : Z) (message : string).

(** Resuming activation [w]; an index without activation does nothing. *)
Definition resume_worker (w : nat) (now : Z) (gen : Extraction) (s : Server)
  : Server :=
  match workers s !! w with
  | None => s
  | Some a =>
      match resume a now gen s with
      | (s', Some a') => with_workers (<[w := a']> (workers s')) s'
      | (s', None) => with_workers (delete w (workers s')) s'
      end
  end.

(** Activation [w] is resumed by the rejection of what it awaits. *)
Definition reject_worker (w : nat) (now : Z) (message : string) (s : Server)
  : Server :=
  match workers s !! w with
  | None => s
  | Some a =>
      match reject a message now s with
      | (s', Some a') => with_workers (<[w := a']> (workers s')) s'
      | (s', None) => with_workers (delete w (workers s')) s'
      end
  end.

Definition step (e : Event) (s : Server) : Server :=
  match e with
  | EvSaveTranscript jobId content contentHash =>
      update_transcripts
        (λ coll, snd (saveTranscript jobId content contentHash coll)) s
  | EvEnqueue jobId transcriptId now => enqueueJob jobId transcriptId now s
  | EvCompleteTask taskId =>
      with_db (mkDb (transcripts (db s))
                    (snd (complete_task taskId (tasks (db s))))) s
  | EvResume w now gen => resume_worker w now gen s
  | EvReject w now message => reject_worker w now message s
  end.

Definition run (es : list Event) (s : Server) : Server :=
  foldl (λ s e, step e s) s es.

(** The states the server can be in. *)
Inductive reachable : Server → Prop :=
| reachable_init : reachable initial_server
| reachable_step s e : reachable s → reachable (step e s).

(** ** POST /api/transcripts (transcriptRoutes.ts, idempotencyService.ts,
       utils/hash.ts) *)

(** [generateJobId]: [timestamp] is [Date.now().toString(36)] and
    [randomBytes] is [crypto.randomBytes(8).toString('hex')]. *)
Definition generateJobId (timestamp randomBytes : string) : string :=
  "job_" +:+ timestamp +:+ "_" +:+ randomBytes.

(** The responses of the handler. *)
Inductive SubmitResponse :=
| BadRequest
| Accepted (code : nat) (jobId : string) (isDuplicate : bool)
| ServerError (message : string).

Section Submit.
(** The SHA-256 hex digest of node's [crypto], the two string
    built-ins ([String.prototype.trim] is idempotent), and the number of
    characters that the [isLength] validator counts. *)
Variable sha256 : string → string.
Variable trim : string → string.
Variable toLowerCase : string → string.
Variable characters : string → nat.

(** [generateContentHash]. *)
Definition generateContentHash (content : string) : string :=
  sha256 (toLowerCase (trim content)).

(** [checkDuplicate]: the transcript with the same hash, if any. *)
Definition checkDuplicate (content : string) (coll : list ITranscript.t)
  : option ITranscript.t :=
  findOne (byContentHash (generateContentHash content)) coll.

(** [createTranscript]. *)
Definition createTranscript (jobId content : string)
    (coll : list ITranscript.t) : (string + ITranscript.t) * list ITranscript.t :=
  saveTranscript jobId content (generateContentHash content) coll.

(** The handler, from the request to the response. It is suspended at
    three [await]s: the query of [checkDuplicate] reads the collection as
    it is in [s]; [es1] is what the rest of the server does until the
    [save] of [createTranscript] is carried out, [es2] what it does from
    then until the handler is resumed and calls [enqueueJob]; the job id
    is generated between the first two. [body] is [req.body.transcript];
    the validation chain trims it and rejects an empty or short value,
    and the handler then reads the trimmed value. *)
Definition post_transcripts (body : string) (timestamp randomBytes : string)
    (now : Z) (es1 es2 : list Event) (s : Server) : SubmitResponse * Server :=
  let transcript := trim body in
  if bool_decide (transcript = "") || bool_decide (characters transcript < 50)
  then (BadRequest, s)
  else
    let create :=
      let jobId := generateJobId timestamp randomBytes in
      let s1 := run es1 s in
      match createTranscript jobId transcript (transcripts (db s1)) with
      | (inl message, _) =>
          (ServerError
             (if decide (message = "") then "Failed to submit transcript"
              else message), s1)
      | (inr transcriptDoc, coll) =>
          (Accepted 202 jobId false,
           enqueueJob jobId (ITranscript.oid transcriptDoc) now
             (run es2 (update_transcripts (λ _, coll) s1)))
      end in
    match checkDuplicate transcript (transcripts (db s)) with
    | Some existingTranscript =>
        if decide (ITranscript.jobId existingTranscript ≠ "")
        then (Accepted 200 (ITranscript.jobId existingTranscript) true, s)
        else create
    | None => create
    end.
End Submit.

(** ASCII instances of the two string built-ins. *)
Definition is_space (a : Ascii.ascii) : bool :=
  let n := Ascii.nat_of_ascii a in
  bool_decide (n = 32) || (bool_decide (9 ≤ n) && bool_decide (n ≤ 13)).

Fixpoint trimStart (s : string) : string :=
  match s with
  | EmptyString => EmptyString
  | String a s' => if is_space a then trimStart s' else s
  end.

Fixpoint trimEnd (s : string) : string :=
  match s with
  | EmptyString => EmptyString
  | String a s' =>
      let r := trimEnd s' in
      if is_space a && bool_decide (r = EmptyString) then EmptyString
      else String a r
  end.

Definition ascii_trim (s : string) : string := trimEnd (trimStart s).

Definition lower_char (a : Ascii.ascii) : Ascii.ascii :=
  let n := Ascii.nat_of_ascii a in
  if bool_decide (65 ≤ n) && bool_decide (n ≤ 90) then Ascii.ascii_of_nat (n + 32)
  else a.

Fixpoint ascii_toLowerCase (s : string) : string :=
  match s with
  | EmptyString => EmptyString
  | String a s' => String (lower_char a) (ascii_toLowerCase s')
  end.

(* ===================================================================== *)
(** * Invariants used by the proofs                                       *)
(* ===================================================================== *)

Section TraversalInvariants.
Variable graph : Graph.

(** While no cycle node is recorded, every node of the recursion stack
    reaches the node being explored. *)
Definition stack_reaches (st : DfsState) (node : string) : Prop :=
  cycleNodes st = ∅ → ∀ s, s ∈ recursionStack st → rtc (edge graph) s node.

Definition sound_pre (st : DfsState) (node : string) : Prop :=
  (cycleNodes st ≠ ∅ → has_cycle graph) ∧ stack_reaches st node.

Definition sound_post (R : gset string) (st' : DfsState) : Prop :=
  (cycleNodes st' ≠ ∅ → has_cycle graph) ∧
  (cycleNodes st' = ∅ → recursionStack st' ⊆ R).

(** A node that was entered and left. *)
Definition finished (st : DfsState) (u : string) : Prop :=
  u ∈ visited st ∧ u ∉ recursionStack st.

(** The finished nodes are closed under edges and lie on no cycle. *)
Definition good (st : DfsState) : Prop :=
  recursionStack st ⊆ visited st ∧
  (∀ u v, finished st u → edge graph u v → finished st v) ∧
  (∀ u, finished st u → ¬ on_cycle graph u).

Definition false_post (st st' : DfsState) (R : gset string) (node : string)
  : Prop :=
  visited st ⊆ visited st' ∧ recursionStack st' = R ∧ good st' ∧
  node ∈ visited st'.

(** The ids that a traversal can visit. *)
Definition universe : gset string := list_to_set (graph_nodes graph).

Definition total_spec (f : nat)
    (rec : string → DfsState → option (bool * DfsState)) : Prop :=
  ∀ n s, n ∈ universe → n ∉ visited s → visited s ⊆ universe →
    size (universe ∖ visited s) ≤ f →
    ∃ b s', rec n s = Some (b, s') ∧
            visited s ⊆ visited s' ∧ visited s' ⊆ universe.
End TraversalInvariants.

(** ** Marked tasks and the recursion stack *)

(** The finished nodes are closed under edges, and the cycle nodes stay on
    the recursion stack. *)
Definition stack_keeps (graph : Graph) (st : DfsState) : Prop :=
  recursionStack st ⊆ visited st ∧
  cycleNodes st ⊆ recursionStack st ∧
  ∀ u v, finished st u → edge graph u v → finished st v.

Definition marks_post (graph : Graph) (st st' : DfsState) (R : gset string)
    (node : string) (b : bool) : Prop :=
  stack_keeps graph st' ∧ visited st ⊆ visited st' ∧ node ∈ visited st' ∧
  if b then R ⊆ recursionStack st' ∧
            recursionStack st' ⊆ recursionStack st ∪ cycleNodes st' ∧
            node ∈ cycleNodes st'
  else recursionStack st' = R ∧ cycleNodes st' = cycleNodes st.

(** ** The traversal of [topologicalSort] *)

(** [u] comes before [v] in [order]. *)
Definition precedes (order : list string) (u v : string) : Prop :=
  ∃ i j, order !! i = Some u ∧ order !! j = Some v ∧ i < j.

Definition sort_finished (st : SortState) (u : string) : Prop :=
  u ∈ sortVisited st ∧ u ∉ sortStack st.

(** [result] lists the finished nodes once each, every dependency of a
    finished node before the node, and no finished node lies on a cycle. *)
Definition sort_good (graph : Graph) (st : SortState) : Prop :=
  sortStack st ⊆ sortVisited st ∧
  NoDup (result st) ∧
  (∀ u, u ∈ result st ↔ sort_finished st u) ∧
  (∀ u v, sort_finished st u → edge graph u v → precedes (result st) v u) ∧
  (∀ u, sort_finished st u → ¬ on_cycle graph u).

Definition sort_true_post (graph : Graph) (st st' : SortState)
    (R : gset string) (node : string) : Prop :=
  sortVisited st ⊆ sortVisited st' ∧ sortStack st' = R ∧
  sort_good graph st' ∧ node ∈ sortVisited st'.

Definition sort_total_spec (graph : Graph) (f : nat)
    (rec : string → SortState → option (bool * SortState)) : Prop :=
  ∀ n s, n ∈ universe graph → n ∉ sortVisited s → sortVisited s ⊆ universe graph →
    size (universe graph ∖ sortVisited s) ≤ f →
    ∃ b s', rec n s = Some (b, s') ∧
            sortVisited s ⊆ sortVisited s' ∧ sortVisited s' ⊆ universe graph.


(** ** The queue *)

(** The ids that [processQueue] does not skip as falsy. *)
Definition nonempty_ids (ids : list string) : list string :=
  filter (λ j, j ≠ "") ids.

(** The Job whose [status] is ['processing'] while the activation is
    suspended at [a]. *)
Definition processing_ref (a : Await) : option nat :=
  match a with
  | AwaitMarkProcessing ref _ | AwaitFindTranscript ref _
  | AwaitExtract ref _ _ | AwaitInsertMany ref _ _ _
  | AwaitMarkCompleted ref _ _ => Some ref
  | AwaitMarkFailed _ _ | AwaitProcessJob => None
  end.

(** The Job that the activation holds. *)
Definition await_job (a : Await) : option nat :=
  match a with
  | AwaitMarkFailed ref _ => Some ref
  | _ => processing_ref a
  end.

(** The Job whose transcript the activation has found. *)
Definition found_ref (a : Await) : option nat :=
  match a with
  | AwaitExtract ref _ _ | AwaitInsertMany ref _ _ _
  | AwaitMarkCompleted ref _ _ => Some ref
  | _ => None
  end.

Record queue_inv (s : Server) : Prop := mkQueueInv {
  inv_single : length (workers s) ≤ 1;
  inv_flag : isProcessing s = bool_decide (workers s ≠ []);
  inv_idle : workers s = [] → processingQueue s = [];
  inv_fifo :
    startedLog s ++ nonempty_ids (processingQueue s)
    = nonempty_ids (enqueuedLog s);
  inv_jobs : ∀ j, j ∈ processingQueue s → is_Some (jobs s !! j);
  inv_refs : ∀ j ref, jobs s !! j = Some ref →
             ∃ job, jobObjects s !! ref = Some job ∧ jobId job = j;
  inv_held : ∀ a ref, a ∈ workers s → await_job a = Some ref →
             ref < length (jobObjects s);
  inv_processing : ∀ ref job, jobObjects s !! ref = Some job →
                   status job = JobStatus.processing →
                   ∃ a, workers s = [a] ∧ processing_ref a = Some ref;
  inv_found : ∀ a ref, a ∈ workers s → found_ref a = Some ref →
              is_Some (findOne (byJobId (job_id_of ref s))
                               (transcripts (db s)));
  inv_job_ids : Forall (λ tr, ITranscript.jobId tr ≠ "") (transcripts (db s))
}.

(** How many resumptions an activation suspended at [a] needs at most to
    come back to the head of the loop of [processQueue]. *)
Definition rank (a : Await) : nat :=
  match a with
  | AwaitMarkProcessing _ _ => 6
  | AwaitFindTranscript _ _ => 5
  | AwaitExtract _ _ _ => 4
  | AwaitInsertMany _ _ _ _ => 3
  | AwaitMarkCompleted _ _ _ => 2
  | AwaitMarkFailed _ _ => 2
  | AwaitProcessJob => 1
  end.

(** A bound on the resumptions that drain the queue. *)
Definition drain_bound (s : Server) : nat :=
  6 * length (processingQueue s)
  + match workers s with [] => 0 | a :: _ => rank a end.

(** Resuming the one activation with the given clock readings and
    generator outcomes. *)
Definition resumes (inputs : list (Z * Extraction)) : list Event :=
  (λ i, EvResume 0 i.1 i.2) <$> inputs.








(** An event that is not the resumption of an activation. *)
Definition external (e : Event) : Prop :=
  match e with EvResume _ _ _ | EvReject _ _ _ => False | _ => True end.

(** What identifies a transcript to the idempotency check. *)
Definition transcript_keys (coll : list ITranscript.t) : list (string * string) :=
  (λ tr, (ITranscript.jobId tr, ITranscript.contentHash tr)) <$> coll.

(** What the events of other handlers keep while an activation is
    suspended. *)
Definition kept (s s' : Server) : Prop :=
  workers s' = workers s ∧
  length (jobObjects s) ≤ length (jobObjects s') ∧
  (∀ ref, ref < length (jobObjects s) → job_id_of ref s' = job_id_of ref s) ∧
  (∀ j, is_Some (findOne (byJobId j) (transcripts (db s))) →
        is_Some (findOne (byJobId j) (transcripts (db s')))).

(** ** Batches of the specification's scenarios *)

Definition task (id : string) (deps : list string) : TaskOutput.t :=
  TaskOutput.mk id ("do " +:+ id) medium deps.

(** [A(deps:[])], [B(deps:[A])], [C(deps:[X])], with [X] absent. *)
Definition scenario_batch : list TaskOutput.t :=
  [task "A" []; task "B" ["A"]; task "C" ["X"]].

(** [A → B → C → A]. *)
Definition three_cycle : list TaskOutput.t :=
  [task "A" ["B"]; task "B" ["C"]; task "C" ["A"]].

(** [A] and [B] depend on each other, [D] depends on [A]. *)
Definition cycle_then_dependent : list TaskOutput.t :=
  [task "A" ["B"]; task "B" ["A"]; task "D" ["A"]].

Definition dependent_then_cycle : list TaskOutput.t :=
  [task "D" ["A"]; task "A" ["B"]; task "B" ["A"]].

(** [B] depends on [A]. *)
Definition chain : list TaskOutput.t := [task "A" []; task "B" ["A"]].

Definition statuses (batch : list ValidatedTask.t)
  : list (string * TaskStatus.t) :=
  (λ t, (ValidatedTask.id t, ValidatedTask.status t)) <$> batch.

Definition stored_statuses (coll : list ITask.t) : list (string * TaskStatus.t) :=
  (λ t, (ITask.taskId t, ITask.status t)) <$> coll.

(** A server that holds one pending transcript, and the events of one
    successful job on it: the enqueue and the resumptions of
    [processJob], the generator returning [batch]. *)
Definition one_transcript : Server :=
  step (EvSaveTranscript "job_1" "minutes" "h1") initial_server.

Definition one_job (batch : list TaskOutput.t) : list Event :=
  [EvEnqueue "job_1" 0 100; EvResume 0 101 (Extracted batch);
   EvResume 0 102 (Extracted batch); EvResume 0 103 (Extracted batch);
   EvResume 0 104 (Extracted batch); EvResume 0 105 (Extracted batch);
   EvResume 0 106 (Extracted batch)].

(** A server whose one activation awaits the generator call of its
    first job. *)
Definition awaiting_generator : Server :=
  run [EvSaveTranscript "job_1" "minutes" "h1"; EvEnqueue "job_1" 0 100;
       EvResume 0 101 (Extracted []); EvResume 0 102 (Extracted [])]
      initial_server.

(** A server with one job in processing and one job queued. *)
Definition busy_server : Server :=
  run [EvSaveTranscript "job_1" "minutes" "h1"; EvEnqueue "job_1" 0 100;
       EvSaveTranscript "job_2" "notes" "h2"; EvEnqueue "job_2" 1 101]
      initial_server.

(** Two submissions that differ in case and in surrounding white space,
    and a stand-in for the digest. *)
Definition first_body : string :=
  "  Alice will draft the plan; Bob reviews it once Alice is done.  ".

Definition second_body : string :=
  "ALICE WILL DRAFT THE PLAN; BOB REVIEWS IT ONCE ALICE IS DONE.".

Definition digest_model (s : string) : string := "sha256:" +:+ s.

(* ===================================================================== *)
(** * The services beyond the pipeline                                    *)
(* ===================================================================== *)

(** A validated task read at its base interface [TaskOutput]. *)
Definition as_TaskOutput (task : ValidatedTask.t) : TaskOutput.t :=
  TaskOutput.mk (ValidatedTask.id task) (ValidatedTask.description task)
    (ValidatedTask.priority task) (ValidatedTask.dependencies task).

(** Two tasks that differ in their status at most. *)
Definition same_but_status (t t' : ValidatedTask.t) : Prop :=
  ValidatedTask.id t' = ValidatedTask.id t ∧
  ValidatedTask.description t' = ValidatedTask.description t ∧
  ValidatedTask.priority t' = ValidatedTask.priority t ∧
  ValidatedTask.dependencies t' = ValidatedTask.dependencies t ∧
  ValidatedTask.errorMessage t' = ValidatedTask.errorMessage t ∧
  ValidatedTask.sanitizedDependencies t' = ValidatedTask.sanitizedDependencies t.

(** A directed cycle can be reached from [u] along dependency edges. *)
Definition reaches_cycle (graph : Graph) (u : string) : Prop :=
  ∃ v, rtc (edge graph) u v ∧ on_cycle graph v.

(** Every recorded node reaches a cycle, and so does every node of the
    recursion stack that is not on the path to the node being explored. *)
Definition marked_pre (graph : Graph) (st : DfsState) (node : string) : Prop :=
  (∀ c, c ∈ cycleNodes st → reaches_cycle graph c) ∧
  (∀ s, s ∈ recursionStack st → reaches_cycle graph s ∨ rtc (edge graph) s node).

Definition marked_post (graph : Graph) (R : gset string) (st' : DfsState)
    (b : bool) (node : string) : Prop :=
  (∀ c, c ∈ cycleNodes st' → reaches_cycle graph c) ∧
  (∀ s, s ∈ recursionStack st' → reaches_cycle graph s ∨ s ∈ R) ∧
  (b = true → reaches_cycle graph node).

(** ** IdempotencyService: the two accessors (idempotencyService.ts) *)

(** [getTranscriptByJobId]. *)
Definition getTranscriptByJobId (jobId : string) (coll : list ITranscript.t)
  : option ITranscript.t :=
  findOne (byJobId jobId) coll.

(** The update document of [updateTranscriptStatus]: [{ status }], to
    which [errorMessage] is added when it is given and not empty. *)
Definition status_update (status : JobStatus.t) (errorMessage : option string)
    (tr : ITranscript.t) : ITranscript.t :=
  ITranscript.mk (ITranscript.oid tr) (ITranscript.jobId tr)
    (ITranscript.content tr) (ITranscript.contentHash tr) status
    (match errorMessage with
     | Some message =>
         if decide (message = "") then ITranscript.errorMessage tr
         else Some message
     | None => ITranscript.errorMessage tr
     end)
    (ITranscript.metadata tr).

(** [updateTranscriptStatus]: [findOneAndUpdate] with [new: true] returns
    the updated document, or [null] when no transcript has the job id. *)
Definition updateTranscriptStatus (jobId : string) (status : JobStatus.t)
    (errorMessage : option string) (coll : list ITranscript.t)
  : option ITranscript.t * list ITranscript.t :=
  let update := status_update status errorMessage in
  (update <$> findOne (byJobId jobId) coll,
   findOneAndUpdate (byJobId jobId) update coll).

(** The transcript that an activation read with [findOne] and holds
    while it is suspended. *)
Definition held_transcript (a : Await) : option ITranscript.t :=
  match a with
  | AwaitExtract _ _ transcript | AwaitInsertMany _ _ transcript _ =>
      Some transcript
  | _ => None
  end.

(** What the schemas and the handlers keep of the two collections: the
    unique indexes on [taskId] and [jobId], the [_id]s of the transcripts,
    the required fields of the tasks, and the transcript of every task. *)
Record db_inv (s : Server) : Prop := mkDbInv {
  dbi_task_ids : NoDup (ITask.taskId <$> tasks (db s));
  dbi_job_ids : NoDup (ITranscript.jobId <$> transcripts (db s));
  dbi_oids :
    ITranscript.oid <$> transcripts (db s)
    = seq 0 (length (transcripts (db s)));
  dbi_tasks :
    Forall (λ doc, task_valid doc = true ∧
                   ITask.transcriptId doc < length (transcripts (db s)))
           (tasks (db s));
  dbi_held : ∀ a tr, a ∈ workers s → held_transcript a = Some tr →
             ITranscript.oid tr < length (transcripts (db s))
}.

(** ** Queue statistics (jobQueue.ts, GET /api/jobs) *)

(** The object that [getQueueStats] returns. *)
Record QueueStats := mkQueueStats {
  totalJobs : nat;
  pendingJobs : nat;
  processingJobs : nat;
  completedJobs : nat;
  failedJobs : nat
}.

(** The body of [this.jobs.forEach(job => { switch (job.status) ... })]. *)
Definition count_job (stats : QueueStats) (job : Job) : QueueStats :=
  match status job with
  | JobStatus.pending =>
      mkQueueStats (totalJobs stats) (S (pendingJobs stats))
        (processingJobs stats) (completedJobs stats) (failedJobs stats)
  | JobStatus.processing =>
      mkQueueStats (totalJobs stats) (pendingJobs stats)
        (S (processingJobs stats)) (completedJobs stats) (failedJobs stats)
  | JobStatus.completed =>
      mkQueueStats (totalJobs stats) (pendingJobs stats)
        (processingJobs stats) (S (completedJobs stats)) (failedJobs stats)
  | JobStatus.failed =>
      mkQueueStats (totalJobs stats) (pendingJobs stats)
        (processingJobs stats) (completedJobs stats) (S (failedJobs stats))
  end.

(** The Job objects that the [jobs] map holds; the counters do not depend
    on the order in which [forEach] visits them. *)
Definition job_values (s : Server) : list Job :=
  omap (λ entry, jobObjects s !! entry.2) (map_to_list (jobs s)).

(** [getQueueStats]. *)
Definition getQueueStats (s : Server) : QueueStats :=
  foldl count_job (mkQueueStats (size (jobs s)) 0 0 0 0) (job_values s).

(** What the queue keeps of its Job objects: the map holds the ids that
    were enqueued; a pending Job with a truthy id is still queued; the
    Job that an activation holds has a truthy id; and a Job with the empty
    id is never started. *)
Record jobs_inv (s : Server) : Prop := mkJobsInv {
  ji_dom : dom (jobs s) = list_to_set (enqueuedLog s);
  ji_pending : ∀ j ref job,
    jobs s !! j = Some ref → jobObjects s !! ref = Some job →
    status job = JobStatus.pending → j ≠ "" → j ∈ processingQueue s;
  ji_held : ∀ a ref, a ∈ workers s → await_job a = Some ref →
            job_id_of ref s ≠ "";
  ji_empty : ∀ ref job, jobObjects s !! ref = Some job → jobId job = "" →
             status job = JobStatus.pending ∧ startTime job = None ∧
             endTime job = None
}.

(** One update of the loop that saves the recomputed statuses. *)
Definition save_status (updatedTask : ValidatedTask.t) (doc : ITask.t) : ITask.t :=
  if decide (ITask.taskId doc = ValidatedTask.id updatedTask)
  then ITask.with_status (ValidatedTask.status updatedTask) doc
  else doc.

(** ** The read routes by [_id] (taskRoutes.ts, transcriptRoutes.ts) *)

(** What a read handler answers: 200 with its data, 404, or the 500 of
    its [catch] block. *)
Inductive ReadResponse (A : Type) :=
| Status200 (data : A)
| Status404
| Status500.
Arguments Status200 {A} data.
Arguments Status404 {A}.
Arguments Status500 {A}.

(** The data of GET /api/tasks/transcript/:transcriptId. *)
Record TaskList := mkTaskList {
  listedTasks : list ITask.t;
  count : nat
}.

(** [Transcript.findById] with an [_id] value. *)
Definition findByOid (oid : nat) (coll : list ITranscript.t)
  : option ITranscript.t :=
  findOne (λ tr, bool_decide (ITranscript.oid tr = oid)) coll.

Section ObjectIds.
(** The cast that Mongoose applies to a string where the schema has an
    [ObjectId]: the [_id] that the string denotes, or [None] when the
    string is no [ObjectId] and the query rejects with a [CastError]. *)
Variable castObjectId : string → option nat.

(** GET /api/tasks/transcript/:transcriptId; the path parameter is used
    as it comes. *)
Definition get_tasks_of_transcript (transcriptId : string) (coll : list ITask.t)
  : ReadResponse TaskList :=
  match castObjectId transcriptId with
  | None => Status500
  | Some oid =>
      let tasks := filter (λ t, byTranscriptId oid t) coll in
      Status200 (mkTaskList tasks (length tasks))
  end.

(** [Transcript.findById(id)] with the path parameter: [None] is the
    rejection. *)
Definition findById (id : string) (coll : list ITranscript.t)
  : option (option ITranscript.t) :=
  match castObjectId id with
  | None => None
  | Some oid => Some (findByOid oid coll)
  end.

(** GET /api/transcripts/:id. The transcript is read from the Transcript
    collection as it is at the first [await], the tasks from the Task
    collection as it is at the second one. *)
Definition get_transcript (id : string) (trs : list ITranscript.t)
    (tks : list ITask.t) : ReadResponse (ITranscript.t * list ITask.t) :=
  match findById id trs with
  | None => Status500
  | Some None => Status404
  | Some (Some transcript) =>
      match castObjectId id with
      | None => Status500
      | Some oid => Status200 (transcript, filter (λ t, byTranscriptId oid t) tks)
      end
  end.
End ObjectIds.

(** What a transcript keeps for good: its [_id], its job id, its content
    and the hash of its content. *)
Definition transcript_identity (tr : ITranscript.t)
  : nat * string * string * string :=
  (ITranscript.oid tr, ITranscript.jobId tr, ITranscript.content tr,
   ITranscript.contentHash tr).

(* ===================================================================== *)
(** * Untyped values (llmService.ts, validationService.ts)                *)
(* ===================================================================== *)

(** The plain data values that [JSON.parse] yields and that the checks on
    [any] inspect: a number is a double in its IEEE 754 reading, an object
    is the list of its own properties in their order. *)
#[warnings="-register-all"] Inductive JsValue :=
| JsUndefined
| JsNull
| JsBoolean (b : bool)
| JsNumber (x : SpecFloat.spec_float)
| JsString (s : string)
| JsArray (items : list JsValue)
| JsObject (props : list (string * JsValue)).

(** A thrown error: its [name] and its [message]. *)
Record JsError := mkJsError {
  errorName : string;
  thrownMessage : string
}.

(** [!!v]. *)
Definition truthy (v : JsValue) : bool :=
  match v with
  | JsUndefined | JsNull => false
  | JsBoolean b => b
  | JsNumber (SpecFloat.S754_zero _) | JsNumber SpecFloat.S754_nan => false
  | JsNumber _ => true
  | JsString s => negb (bool_decide (s = ""))
  | JsArray _ | JsObject _ => true
  end.

(** [Array.isArray(v)]. *)
Definition isArray (v : JsValue) : bool :=
  match v with JsArray _ => true | _ => false end.

(** [v.key] on a value that is neither [null] nor [undefined], for the
    keys that the code reads ([tasks], [id], [description], [priority],
    [dependencies]): an own property of an object, and [undefined] on
    anything else. *)
Definition prop (v : JsValue) (key : string) : JsValue :=
  match v with
  | JsObject props => default JsUndefined (JsMap.get key props)
  | _ => JsUndefined
  end.

(** [['high', 'medium', 'low'].includes(v)]. *)
Definition is_priority (v : JsValue) : bool :=
  match v with
  | JsString s =>
      bool_decide (s = "high") || bool_decide (s = "medium")
      || bool_decide (s = "low")
  | _ => false
  end.

(** [String(error)] of an [Error] object. *)
Definition error_toString (e : JsError) : string :=
  if decide (thrownMessage e = "") then errorName e
  else errorName e +:+ ": " +:+ thrownMessage e.

(** [catch (error) { throw new Error(`prefix${error}`) }]. *)
Definition rethrow (prefix : string) (e : JsError) : JsError :=
  mkJsError "Error" (prefix +:+ error_toString e).

(** The report of [validateTaskStructure]. *)
Record StructureReport := mkStructureReport {
  valid : bool;
  errors : list string
}.

Definition nullish (v : JsValue) : Prop := v = JsUndefined ∨ v = JsNull.

Section Untyped.
(** The string of a number, the messages of the [TypeError]s that reading
    a property of [null] or [undefined], calling a property that is no
    function and converting an object without primitive value raise, and
    the values of the successive [uuidv4()] calls. *)
Variable number_toString : SpecFloat.spec_float → string.
Variable cannot_read : JsValue → string → string.
Variable not_a_function : JsValue → string → string.
Variable cannot_convert : JsValue → string.
Variable uuid : nat → string.

(** The string that a template literal interpolates for a value, or
    [None] when the conversion throws a [TypeError]. An array is the join
    of its elements, [null] and [undefined] giving the empty string. An
    object is ['[object Object]'], unless it has a [toString] of its own:
    no value of a parsed object is callable, and [valueOf] returns the
    object, so that such an object has no primitive value. *)
Fixpoint template (v : JsValue) : option string :=
  match v with
  | JsUndefined => Some "undefined"
  | JsNull => Some "null"
  | JsBoolean b => Some (if b then "true" else "false")
  | JsNumber x => Some (number_toString x)
  | JsString s => Some s
  | JsArray items =>
      (fix join (items : list JsValue) : option string :=
         match items with
         | [] => Some ""
         | item :: rest =>
             match match item with
                   | JsUndefined | JsNull => Some ""
                   | _ => template item
                   end, rest with
             | None, _ => None
             | Some text, [] => Some text
             | Some text, _ :: _ =>
                 match join rest with
                 | None => None
                 | Some texts => Some (text +:+ "," +:+ texts)
                 end
             end
         end) items
  | JsObject props =>
      match JsMap.get "toString" props with
      | Some _ => None
      | None => Some "[object Object]"
      end
  end.

(** A task on which the body of the [forEach] of [validateTaskStructure]
    throws: it is [null] or [undefined], or its priority is reported and
    has no string. *)
Definition raising_task (task : JsValue) : Prop :=
  nullish task ∨
  (truthy (prop task "priority") = true ∧
   is_priority (prop task "priority") = false ∧
   template (prop task "priority") = None).

(** Reading [v.key]. *)
Definition read (v : JsValue) (key : string) : JsError + JsValue :=
  match v with
  | JsUndefined | JsNull => inl (mkJsError "TypeError" (cannot_read v key))
  | _ => inr (prop v key)
  end.

(** ** [validateTaskStructure] *)

(** The body of [tasks.forEach((task, index) => ...)]: the messages that
    one task adds to [errors], or the error thrown. *)
Definition task_errors (index : nat) (task : JsValue) : JsError + list string :=
  match read task "id" with
  | inl e => inl e
  | inr id =>
      let description := prop task "description" in
      let priority := prop task "priority" in
      let dependencies := prop task "dependencies" in
      let missing :=
        (if truthy id then []
         else ["Task at index " +:+ pretty index +:+ " is missing 'id' field"])
        ++ (if truthy description then []
            else ["Task at index " +:+ pretty index
                  +:+ " is missing 'description' field"]) in
      let invalid_dependencies :=
        if truthy dependencies && negb (isArray dependencies)
        then ["Task at index " +:+ pretty index
              +:+ " has invalid dependencies (must be array)"]
        else [] in
      if truthy priority && negb (is_priority priority)
      then
        match template priority with
        | None => inl (mkJsError "TypeError" (cannot_convert priority))
        | Some text =>
            inr (missing
                 ++ ["Task at index " +:+ pretty index
                     +:+ " has invalid priority: " +:+ text]
                 ++ invalid_dependencies)
        end
      else inr (missing ++ invalid_dependencies)
  end.

Fixpoint structure_errors (index : nat) (tasks : list JsValue)
  : JsError + list string :=
  match tasks with
  | [] => inr []
  | task :: rest =>
      match task_errors index task with
      | inl e => inl e
      | inr es =>
          match structure_errors (S index) rest with
          | inl e => inl e
          | inr es' => inr (es ++ es')
          end
      end
  end.

Definition validateTaskStructure (tasks : JsValue) : JsError + StructureReport :=
  match tasks with
  | JsArray items =>
      match structure_errors 0 items with
      | inl e => inl e
      | inr es => inr (mkStructureReport (bool_decide (length es = 0)) es)
      end
  | _ => inr (mkStructureReport false ["Tasks must be an array"])
  end.

(** ** [parseResponse], from the value that [JSON.parse] returned *)

(** The body of [parsed.tasks.forEach((task, index) => ...)]: the task
    after the two assignments, or the error thrown. *)
Definition normalize_task (index : nat) (task : JsValue) : JsError + JsValue :=
  match read task "description" with
  | inl e => inl e
  | inr description =>
      if truthy description then
        match task with
        | JsObject props =>
            let props1 :=
              if negb (truthy (prop task "priority"))
                 || negb (is_priority (prop task "priority"))
              then JsMap.set "priority" (JsString "medium") props else props in
            let props2 :=
              if negb (isArray (prop (JsObject props1) "dependencies"))
              then JsMap.set "dependencies" (JsArray []) props1 else props1 in
            inr (JsObject props2)
        | _ => inr task
        end
      else inl (mkJsError "Error"
                  ("Task " +:+ pretty index +:+ " is missing description"))
  end.

Fixpoint normalize_tasks (index : nat) (tasks : list JsValue)
  : JsError + list JsValue :=
  match tasks with
  | [] => inr []
  | task :: rest =>
      match normalize_task index task with
      | inl e => inl e
      | inr task' =>
          match normalize_tasks (S index) rest with
          | inl e => inl e
          | inr rest' => inr (task' :: rest')
          end
      end
  end.

(** The [try] block of [parseResponse] after [JSON.parse]. *)
Definition check_parsed (parsed : JsValue) : JsError + JsValue :=
  match read parsed "tasks" with
  | inl e => inl e
  | inr tasks =>
      if negb (truthy tasks) || negb (isArray tasks)
      then inl (mkJsError "Error"
                  "Invalid response format: tasks array is required")
      else
        match tasks, parsed with
        | JsArray items, JsObject props =>
            match normalize_tasks 0 items with
            | inl e => inl e
            | inr items' => inr (JsObject (JsMap.set "tasks" (JsArray items') props))
            end
        | _, _ => inr parsed
        end
  end.

(** [parseResponse] from the outcome of [JSON.parse] (the value, or the
    [SyntaxError] thrown), with its [catch]. *)
Definition parseResponse_parsed (parsed : JsError + JsValue)
  : JsError + JsValue :=
  match match parsed with
        | inl e => inl e
        | inr value => check_parsed value
        end with
  | inl e => inl (rethrow "Failed to parse LLM response: " e)
  | inr response => inr response
  end.

(** ** [extractTasksFromTranscript], from the parsed value *)

(** The own enumerable properties that [{...v}] copies. *)
Definition own_props (v : JsValue) : list (string * JsValue) :=
  match v with
  | JsObject props => props
  | JsArray items => imap (λ i item, (pretty i, item)) items
  | JsString s =>
      imap (λ i c, (pretty i, JsString (String c EmptyString)))
           (String.list_ascii_of_string s)
  | _ => []
  end.

(** [parsedResponse.tasks.map(task => ({...task, id: task.id || uuidv4()}))];
    [next] counts the [uuidv4()] calls made so far. *)
Fixpoint tasksWithIds (next : nat) (tasks : list JsValue)
  : JsError + list JsValue :=
  match tasks with
  | [] => inr []
  | task :: rest =>
      match read task "id" with
      | inl e => inl e
      | inr id =>
          let next' := if truthy id then next else S next in
          let id' := if truthy id then id else JsString (uuid next) in
          match tasksWithIds next' rest with
          | inl e => inl e
          | inr rest' =>
              inr (JsObject (JsMap.set "id" id' (own_props task)) :: rest')
          end
      end
  end.

(** The [try] block of [extractTasksFromTranscript] after the generator
    answered, with its [catch]. *)
Definition extract_parsed (parsed : JsError + JsValue) : JsError + JsValue :=
  let attempt :=
    match parseResponse_parsed parsed with
    | inl e => inl e
    | inr parsedResponse =>
        match read parsedResponse "tasks" with
        | inl e => inl e
        | inr (JsArray items) =>
            match tasksWithIds 0 items with
            | inl e => inl e
            | inr tasks => inr (JsObject [("tasks", JsArray tasks)])
            end
        | inr other =>
            inl (mkJsError "TypeError" (not_a_function other "map"))
        end
    end in
  match attempt with
  | inl e => inl (rethrow "Failed to extract tasks from transcript: " e)
  | inr response => inr response
  end.
End Untyped.

(** A task as [parseResponse] leaves it. *)
Definition normal_task (task : JsValue) : Prop :=
  (∃ props, task = JsObject props) ∧
  truthy (prop task "description") = true ∧
  is_priority (prop task "priority") = true ∧
  isArray (prop task "dependencies") = true.

(** A task that [validateTaskStructure] reports nothing about. *)
Definition well_formed_task (task : JsValue) : Prop :=
  truthy (prop task "id") = true ∧
  truthy (prop task "description") = true ∧
  (truthy (prop task "priority") = true →
   is_priority (prop task "priority") = true) ∧
  (truthy (prop task "dependencies") = true →
   isArray (prop task "dependencies") = true).

(** [task'] is [task] with the defaults of [parseResponse] filled in. *)
Definition defaults_filled (task task' : JsValue) : Prop :=
  normal_task task' ∧
  (∀ key, key ≠ "priority" → key ≠ "dependencies" →
          prop task' key = prop task key) ∧
  prop task' "priority"
  = (if is_priority (prop task "priority") then prop task "priority"
     else JsString "medium") ∧
  prop task' "dependencies"
  = (if isArray (prop task "dependencies") then prop task "dependencies"
     else JsArray []).

(** [task'] is [task] with an id of its own. *)
Definition id_filled (uuid : nat → string) (task task' : JsValue) : Prop :=
  (∀ key, key ≠ "id" → prop task' key = prop task key) ∧
  if truthy (prop task "id") then prop task' "id" = prop task "id"
  else ∃ n, prop task' "id" = JsString (uuid n).

(** ** [Buffer.prototype.toString('hex')] (utils/hash.ts) *)

Definition hex_digit (n : nat) : Ascii.ascii :=
  nth n (String.list_ascii_of_string "0123456789abcdef") Ascii.zero.

(** Two lower-case digits for a byte. *)
Definition hex_byte (b : Byte.byte) : string :=
  String (hex_digit (Byte.to_nat b / 16))
         (String (hex_digit (Byte.to_nat b mod 16)) EmptyString).

Fixpoint toHex (bytes : list Byte.byte) : string :=
  match bytes with
  | [] => ""
  | b :: rest => hex_byte b +:+ toHex rest
  end.

(** ** Scenario data *)

(** The server after the one job of [one_transcript] ran to its end on
    [scenario_batch]. *)
Definition finished_server : Server :=
  run (one_job scenario_batch) one_transcript.

(** A parsed generator answer: the first task lacks an id, a priority and
    its dependencies, the second has a priority that is none of the
    three. *)
Definition scenario_parsed : JsValue :=
  JsObject
    [("tasks",
      JsArray
        [JsObject [("description", JsString "draft the plan")];
         JsObject [("id", JsString "t2");
                   ("description", JsString "review the plan");
                   ("priority", JsString "urgent");
                   ("dependencies", JsArray [JsString "t1"])]])].

(** A stand-in for the cast to [ObjectId]: the strings of the first two
    [_id]s, every other string being no [ObjectId]. *)
Definition scenario_castObjectId (id : string) : option nat :=
  if decide (id = "65f0a1b2c3d4e5f601234567") then Some 0
  else if decide (id = "65f0a1b2c3d4e5f601234568") then Some 1
  else None.

Definition scenario_uuid (n : nat) : string := "uuid-" +:+ pretty n.

Definition scenario_message (v : JsValue) (key : string) : string :=
  "Cannot read properties (reading '" +:+ key +:+ "')".

Definition scenario_conversion (v : JsValue) : string :=
  "Cannot convert object to primitive value".

(** A stand-in for the string of a number; the scenarios hold none. *)
Definition scenario_number (x : SpecFloat.spec_float) : string := "0".

Definition scenario_bytes : list Byte.byte :=
  [Byte.x00; Byte.x01; Byte.x7f; Byte.x80; Byte.xa5; Byte.xc3; Byte.xfe; Byte.xff].

(** Deciding a property of an optional value. *)
#[local] Instance option_case_dec {B} (P : B → Prop) `{∀ y, Decision (P y)}
    (o : option B) :
  Decision (match o with Some y => P y | None => False end).
Proof. destruct o; apply _. Defined.


(* ===================================================================== *)
(** * Cycle detection: the traversal and the graph                        *)
(* ===================================================================== *)

Lemma tc_inv_l {A} (R : relation A) x z : tc R x z → ∃ y, R x y ∧ rtc R y z.
Proof.
  intros H. destruct H as [x z H|x y z H1 H2].
  - exists z. split; [done|apply rtc_refl].
  - exists y. split; [done|by apply tc_rtc].
Qed.

Section Dfs.
Variable graph : Graph.
Local Abbreviation E := (edge graph).
Local Abbreviation stack_reaches := (stack_reaches graph).
Local Abbreviation sound_pre := (sound_pre graph).
Local Abbreviation sound_post := (sound_post graph).
Local Abbreviation good := (good graph).
Local Abbreviation false_post := (false_post graph).
Local Abbreviation universe := (universe graph).
Local Abbreviation total_spec := (total_spec graph).

(** Cycle nodes only grow, and a [true] result records the node. *)
Lemma dfs_neighbors_cycleNodes rec node ns st b st' :
  (∀ n s b' s', rec n s = Some (b', s') →
     cycleNodes s ⊆ cycleNodes s' ∧ (b' = true → n ∈ cycleNodes s')) →
  dfs_neighbors rec node ns st = Some (b, st') →
  cycleNodes st ⊆ cycleNodes st' ∧ (b = true → node ∈ cycleNodes st').
Proof.
  intros Hrec. revert st. induction ns as [|n ns IH]; intros st H; simpl in H.
  - inversion H; subst; simpl. split; [done|discriminate].
  - destruct (decide (n ∉ visited st)).
    + destruct (rec n st) as [[[] s1]|] eqn:Hr; try discriminate.
      * inversion H; subst; simpl. apply Hrec in Hr as [? ?]. set_solver.
      * apply Hrec in Hr as [? ?]. apply IH in H as [? ?]. set_solver.
    + destruct (decide (n ∈ recursionStack st)).
      * inversion H; subst; simpl. set_solver.
      * by apply IH.
Qed.

Lemma dfs_cycleNodes fuel node st b st' :
  dfs fuel graph node st = Some (b, st') →
  cycleNodes st ⊆ cycleNodes st' ∧ (b = true → node ∈ cycleNodes st').
Proof.
  revert node st b st'. induction fuel as [|fuel IH]; intros node st b st' H.
  - discriminate.
  - simpl in H. eapply dfs_neighbors_cycleNodes in H; [|exact IH]. done.
Qed.

(** *** Soundness: a recorded cycle node witnesses a directed cycle *)

Lemma dfs_neighbors_sound rec node ns st b st' :
  (∀ n s b' s', rec n s = Some (b', s') →
     cycleNodes s ⊆ cycleNodes s' ∧ (b' = true → n ∈ cycleNodes s')) →
  (∀ n s b' s', rec n s = Some (b', s') → sound_pre s n →
     sound_post (recursionStack s) s') →
  (∀ n, n ∈ ns → E node n) →
  dfs_neighbors rec node ns st = Some (b, st') →
  sound_pre st node →
  sound_post (recursionStack st ∖ {[node]}) st'.
Proof.
  intros Hmono Hrec. revert st.
  induction ns as [|n ns IH]; intros st Hns H [Hc Hr]; simpl in H.
  - inversion H; subst. split; simpl; [done|set_solver].
  - assert (Hn : E node n) by (apply Hns; left).
    assert (Hns' : ∀ m, m ∈ ns → E node m) by (intros m Hm; apply Hns; by right).
    destruct (decide (n ∉ visited st)).
    + destruct (rec n st) as [[b1 s1]|] eqn:Hrn; [|discriminate].
      destruct (Hmono _ _ _ _ Hrn) as [Hsub Hin].
      destruct (Hrec _ _ _ _ Hrn) as [Hc1 Hr1].
      { split; [done|]. intros Hz s Hs. eapply rtc_r; [by apply Hr|done]. }
      destruct b1.
      * inversion H; subst. split; simpl; [|set_solver].
        intros _. apply Hc1. specialize (Hin eq_refl). set_solver.
      * destruct (IH s1 Hns' H) as [Hc' Hr'].
        { split; [done|]. intros Hz s Hs. apply Hr; [set_solver|].
          apply Hr1; done. }
        split; [done|]. intros Hz. specialize (Hr' Hz).
        assert (cycleNodes s1 = ∅).
        { eapply dfs_neighbors_cycleNodes in H as [? _]; [|done]. set_solver. }
        specialize (Hr1 ltac:(done)). set_solver.
    + destruct (decide (n ∈ recursionStack st)).
      * inversion H; subst. split; simpl; [|set_solver].
        intros _. destruct (decide (cycleNodes st = ∅)) as [Hz|Hz]; [|by apply Hc].
        exists node. eapply tc_rtc_r; [|by apply Hr]. by apply tc_once.
      * by apply IH.
Qed.

Lemma dfs_sound fuel node st b st' :
  dfs fuel graph node st = Some (b, st') →
  sound_pre st node →
  sound_post (recursionStack st) st'.
Proof.
  revert node st b st'. induction fuel as [|fuel IH]; intros node st b st' H Hpre;
    [discriminate|].
  simpl in H.
  eapply dfs_neighbors_sound in H.
  - destruct H as [Hc Hr]. split; [done|]. intros Hz. specialize (Hr Hz).
    simpl in Hr. set_solver.
  - intros. by eapply dfs_cycleNodes.
  - exact IH.
  - done.
  - destruct Hpre as [Hc Hr]. split; [done|].
    intros Hz s Hs. simpl in Hs, Hz.
    apply elem_of_union in Hs as [Hs|Hs]; [apply elem_of_singleton in Hs; by subst|].
    by apply Hr.
Qed.

(** *** Completeness: a traversal without [true] result leaves no cycle *)

Lemma finished_rtc st u v :
  good st → finished st u → rtc E u v → finished st v.
Proof.
  intros (_ & Hcl & _) Hu Huv. induction Huv as [|x y z Hxy _ IH]; [done|].
  apply IH. by eapply Hcl.
Qed.

Lemma dfs_neighbors_false rec node done ns st st' :
  (∀ n s s', rec n s = Some (false, s') → n ∉ visited s → good s →
     false_post s s' (recursionStack s) n) →
  neighbors graph node = done ++ ns →
  dfs_neighbors rec node ns st = Some (false, st') →
  node ∈ recursionStack st → good st →
  (∀ v, v ∈ done → finished st v) →
  false_post st st' (recursionStack st ∖ {[node]}) node.
Proof.
  intros Hrec. revert done st.
  induction ns as [|n ns IH]; intros done st Hnb H Hnode Hgood Hdone; simpl in H.
  - inversion H; subst; clear H. rewrite app_nil_r in Hnb.
    destruct Hgood as (Hsub & Hcl & Hac).
    assert (Hold : ∀ u, finished (leave node st) u → u = node ∨ finished st u).
    { intros u [Hu1 Hu2]. simpl in *. destruct (decide (u = node)); [by left|].
      right. split; [done|set_solver]. }
    assert (Hnew : ∀ u, finished st u → finished (leave node st) u).
    { intros u [Hu1 Hu2]. split; simpl; [done|set_solver]. }
    assert (Hsucc : ∀ v, E node v → finished st v).
    { intros v Hv. apply Hdone. unfold edge in Hv. by rewrite Hnb in Hv. }
    split; [done|]. split; [done|]. split; [|simpl; set_solver].
    split; [simpl; set_solver|]. split.
    + intros u v Hu Huv. apply Hnew. destruct (Hold u Hu) as [->|Hu'].
      * by apply Hsucc.
      * by eapply Hcl.
    + intros u Hu Hcyc. destruct (Hold u Hu) as [->|Hu']; [|by eapply Hac].
      unfold on_cycle in Hcyc. apply tc_inv_l in Hcyc.
      destruct Hcyc as (v & Hv & Hback).
      assert (finished st node) as [_ ?]; [|done].
      eapply finished_rtc; [done|by apply Hsucc|done].
  - assert (Hnb' : neighbors graph node = (done ++ [n]) ++ ns)
      by (by rewrite <- app_assoc).
    destruct (decide (n ∉ visited st)).
    + destruct (rec n st) as [[[] s1]|] eqn:Hrn; try discriminate.
      destruct (Hrec _ _ _ Hrn) as (HV & HR & Hg1 & Hn1); [done..|].
      destruct (IH _ _ Hnb' H) as (HV' & HR' & Hg' & Hn'); [by rewrite HR|done| |].
      { intros v Hv. apply elem_of_app in Hv as [Hv|Hv].
        - destruct (Hdone v Hv). split; [set_solver|by rewrite HR].
        - apply list_elem_of_singleton in Hv as ->. split; [done|].
          rewrite HR. destruct Hgood as [? _]. set_solver. }
      split; [set_solver|]. split; [by rewrite HR', HR|done].
    + destruct (decide (n ∈ recursionStack st)); [discriminate|].
      apply (IH _ _ Hnb' H); [done..|].
      intros v Hv. apply elem_of_app in Hv as [Hv|Hv]; [by apply Hdone|].
      apply list_elem_of_singleton in Hv as ->. split; [set_solver|done].
Qed.

Lemma dfs_false fuel node st st' :
  dfs fuel graph node st = Some (false, st') →
  node ∉ visited st → good st →
  false_post st st' (recursionStack st) node.
Proof.
  revert node st st'. induction fuel as [|fuel IH]; intros node st st' H Hn Hg;
    [discriminate|].
  simpl in H. destruct Hg as (Hsub & Hcl & Hac).
  eapply (dfs_neighbors_false _ _ []) in H.
  - destruct H as (HV & HR & Hg' & Hn'). simpl in *.
    split; [set_solver|]. split; [|done]. rewrite HR. set_solver.
  - exact IH.
  - done.
  - simpl. set_solver.
  - assert (Hold : ∀ u, finished (enter node st) u → finished st u).
    { intros u [Hu1 Hu2]. simpl in *. split; set_solver. }
    split; [simpl; set_solver|]. split.
    + intros u v Hu Huv. destruct (Hcl u v (Hold u Hu) Huv) as [Hv1 Hv2].
      split; simpl; [set_solver|].
      intros Hv. apply elem_of_union in Hv as [Hv|Hv]; [|done].
      apply elem_of_singleton in Hv as ->. done.
    + intros u Hu. apply Hac. by apply Hold.
  - intros v Hv. by apply elem_of_nil in Hv.
Qed.

(** *** Termination: the fuel of the callers is enough *)

Lemma key_in_universe k : k ∈ JsMap.keys graph → k ∈ universe.
Proof.
  intros Hk. apply elem_of_list_to_set. unfold graph_nodes.
  apply elem_of_app. by left.
Qed.

Lemma JsMap_get_Some {V} k (m : list (string * V)) v :
  JsMap.get k m = Some v → (k, v) ∈ m.
Proof.
  induction m as [|[k' v'] m IH]; simpl; [done|].
  destruct (decide (k' = k)) as [->|].
  - intros [= ->]. left.
  - intros H. right. by apply IH.
Qed.

Lemma neighbors_in_universe node n : n ∈ neighbors graph node → n ∈ universe.
Proof.
  unfold neighbors. destruct (JsMap.get node graph) as [ns|] eqn:Hg; simpl.
  - intros Hn. apply elem_of_list_to_set. unfold graph_nodes.
    apply elem_of_app. right. apply list_elem_of_join. exists ns.
    split; [done|]. apply JsMap_get_Some in Hg.
    apply list_elem_of_fmap. by exists (node, ns).
  - intros Hn. by apply elem_of_nil in Hn.
Qed.

Lemma dfs_neighbors_total rec f node ns st :
  total_spec f rec →
  (∀ n, n ∈ ns → n ∈ universe) →
  visited st ⊆ universe → size (universe ∖ visited st) ≤ f →
  ∃ b st', dfs_neighbors rec node ns st = Some (b, st') ∧
           visited st ⊆ visited st' ∧ visited st' ⊆ universe.
Proof.
  intros Hrec. revert st.
  induction ns as [|n ns IH]; intros st Hns HV Hsz; simpl.
  - eexists _, _. split; [done|]. simpl. set_solver.
  - assert (Hns' : ∀ m, m ∈ ns → m ∈ universe)
      by (intros m Hm; apply Hns; by right).
    destruct (decide (n ∉ visited st)).
    + destruct (Hrec n st) as (b1 & s1 & -> & HV1 & HU1); [apply Hns; left|done..|].
      destruct b1.
      * eexists _, _. split; [done|]. simpl. set_solver.
      * destruct (IH s1 Hns' HU1) as (b & st' & -> & ? & ?).
        { etrans; [|exact Hsz]. apply subseteq_size. set_solver. }
        eexists _, _. split; [done|]. set_solver.
    + destruct (decide (n ∈ recursionStack st)).
      * eexists _, _. split; [done|]. simpl. set_solver.
      * by apply IH.
Qed.

Lemma dfs_enough_fuel fuel : total_spec fuel (dfs fuel graph).
Proof.
  induction fuel as [|fuel IH]; intros node st HU Hn HV Hsz.
  - exfalso. assert (Hz : size (universe ∖ visited st) = 0) by lia.
    apply size_empty_iff in Hz. set_solver.
  - simpl.
    destruct (dfs_neighbors_total (dfs fuel graph) fuel node
                (neighbors graph node) (enter node st) IH)
      as (b & st' & Hr & HV' & HU').
    + apply neighbors_in_universe.
    + simpl. set_solver.
    + simpl.
      assert (Heq : universe ∖ visited st
                    = {[node]} ∪ universe ∖ ({[node]} ∪ visited st)).
      { apply set_eq. intros x. rewrite elem_of_union, !elem_of_difference,
          elem_of_union, elem_of_singleton.
        destruct (decide (x = node)) as [->|]; naive_solver. }
      rewrite Heq, size_union, size_singleton in Hsz; [lia|set_solver].
    + exists b, st'. split; [done|]. simpl in HV'. set_solver.
Qed.

Lemma universe_size (V : gset string) : size (universe ∖ V) < dfs_fuel graph.
Proof.
  unfold dfs_fuel. apply Nat.lt_succ_r.
  etrans; [apply subseteq_size; apply subseteq_difference_l; reflexivity|].
  unfold universe. generalize (graph_nodes graph). intros l.
  induction l as [|x l IH].
  - rewrite list_to_set_nil, size_empty. simpl. lia.
  - rewrite list_to_set_cons, size_union_alt, size_singleton.
    assert (size (list_to_set l ∖ {[x]} : gset string)
            ≤ size (list_to_set l : gset string))
      by (apply subseteq_size; set_solver).
    simpl. lia.
Qed.

(** *** The loop of [detectCycles] *)

Lemma detect_loop_total ks st :
  (∀ k, k ∈ ks → k ∈ universe) → visited st ⊆ universe →
  ∃ st', detect_loop graph ks st = Some st'.
Proof.
  revert st. induction ks as [|k ks IH]; intros st Hks HV; cbn [detect_loop]; [by eexists|].
  assert (Hks' : ∀ m, m ∈ ks → m ∈ universe)
    by (intros m Hm; apply Hks; by right).
  destruct (decide (k ∉ visited st)); [|by apply IH].
  destruct (dfs_enough_fuel (dfs_fuel graph) k st) as (b & s1 & -> & ? & ?);
    [apply Hks; left|done|done| |by apply IH].
  pose proof (universe_size (visited st)). lia.
Qed.

Lemma detect_loop_cycleNodes ks st st' :
  detect_loop graph ks st = Some st' → cycleNodes st ⊆ cycleNodes st'.
Proof.
  revert st. induction ks as [|k ks IH]; intros st H; cbn [detect_loop] in H.
  - by inversion H.
  - destruct (decide (k ∉ visited st)); [|by apply IH].
    destruct (dfs _ graph k st) as [[b s1]|] eqn:Hd; [|discriminate].
    apply dfs_cycleNodes in Hd as [? _]. apply IH in H. set_solver.
Qed.

Lemma detect_loop_sound ks st st' :
  detect_loop graph ks st = Some st' →
  (cycleNodes st ≠ ∅ → has_cycle graph) →
  (cycleNodes st = ∅ → recursionStack st = ∅) →
  cycleNodes st' ≠ ∅ → has_cycle graph.
Proof.
  revert st. induction ks as [|k ks IH]; intros st H Hc Hr; cbn [detect_loop] in H.
  - by inversion H; subst.
  - destruct (decide (k ∉ visited st)); [|by eapply IH].
    destruct (dfs _ graph k st) as [[b s1]|] eqn:Hd; [|discriminate].
    pose proof (dfs_cycleNodes _ _ _ _ _ Hd) as [Hsub _].
    apply dfs_sound in Hd as [Hc1 Hr1].
    + eapply IH; [done|done|]. intros Hz. specialize (Hr1 Hz).
      assert (cycleNodes st = ∅) as Hz0 by set_solver.
      rewrite (Hr Hz0) in Hr1. set_solver.
    + split; [done|]. intros Hz s Hs. rewrite (Hr Hz) in Hs. set_solver.
Qed.

Lemma detect_loop_complete ks st st' :
  detect_loop graph ks st = Some st' →
  cycleNodes st' = ∅ →
  good st → recursionStack st = ∅ →
  good st' ∧ recursionStack st' = ∅ ∧ visited st ⊆ visited st' ∧
  ∀ k, k ∈ ks → k ∈ visited st'.
Proof.
  revert st. induction ks as [|k ks IH]; intros st H Hz Hg Hr; cbn [detect_loop] in H.
  - inversion H; subst. split_and!; [done..|]. intros k Hk. by apply elem_of_nil in Hk.
  - destruct (decide (k ∉ visited st)) as [Hk|Hk].
    + destruct (dfs _ graph k st) as [[b s1]|] eqn:Hd; [|discriminate].
      pose proof (detect_loop_cycleNodes _ _ _ H) as Hsub.
      pose proof (dfs_cycleNodes _ _ _ _ _ Hd) as [_ Hb].
      destruct b; [specialize (Hb eq_refl); set_solver|].
      apply dfs_false in Hd as (HV & HR & Hg1 & Hk1); [|done..].
      destruct (IH s1 H Hz Hg1) as (Hg' & Hr' & HV' & Hks); [by rewrite HR|].
      split_and!; [done|done|set_solver|].
      intros k' Hk'. apply elem_of_cons in Hk' as [->|Hk']; [set_solver|by apply Hks].
    + destruct (IH st H Hz Hg Hr) as (Hg' & Hr' & HV' & Hks).
      split_and!; [done..|].
      intros k' Hk'. apply elem_of_cons in Hk' as [->|Hk']; [|by apply Hks].
      apply dec_stable in Hk. set_solver.
Qed.

Lemma edge_key u v : E u v → u ∈ JsMap.keys graph.
Proof.
  unfold edge, neighbors. destruct (JsMap.get u graph) as [ns|] eqn:Hg; simpl.
  - intros _. apply JsMap_get_Some in Hg. apply list_elem_of_fmap.
    by exists (u, ns).
  - intros H. by apply elem_of_nil in H.
Qed.

(** The traversal records a cycle node exactly when the graph has a
    directed cycle. *)
Lemma detect_loop_spec :
  ∃ st, detect_loop graph (JsMap.keys graph) initial_dfs_state = Some st ∧
        (cycleNodes st ≠ ∅ ↔ has_cycle graph).
Proof.
  destruct (detect_loop_total (JsMap.keys graph) initial_dfs_state)
    as [st Hst]; [apply key_in_universe|simpl; set_solver|].
  exists st. split; [done|]. split.
  - eapply detect_loop_sound; [done|simpl; done|done].
  - intros [u Hu] Hz.
    destruct (detect_loop_complete _ _ _ Hst Hz) as (Hg & Hr & _ & Hks).
    + split_and!; simpl; [set_solver| |]; intros x; unfold finished; simpl; set_solver.
    + done.
    + destruct Hg as (_ & _ & Hac). apply (Hac u); [|done].
      pose proof Hu as Hu'. apply tc_inv_l in Hu' as (v & Huv & _).
      split; [apply Hks; by eapply edge_key|]. rewrite Hr. set_solver.
Qed.
End Dfs.

(** ** The graph that [buildGraph] builds *)

Lemma JsMap_get_set {V} k k' (v : V) m :
  JsMap.get k' (JsMap.set k v m)
  = if decide (k = k') then Some v else JsMap.get k' m.
Proof.
  induction m as [|[k0 v0] m IH]; simpl.
  - destruct (decide (k = k')); done.
  - destruct (decide (k0 = k)) as [->|Hne]; simpl.
    + destruct (decide (k = k')); done.
    + destruct (decide (k0 = k')) as [->|]; [|done].
      destruct (decide (k = k')); [congruence|done].
Qed.

(** The entry of an id holds the dependencies of the last task of the
    batch with that id. *)
Lemma buildGraph_get tasks k :
  JsMap.get k (buildGraph tasks)
  = ValidatedTask.dependencies
      <$> last (filter (λ t, ValidatedTask.id t = k) tasks).
Proof.
  unfold buildGraph.
  enough (H : ∀ g0,
    JsMap.get k (foldl (λ graph task,
        JsMap.set (ValidatedTask.id task) (ValidatedTask.dependencies task) graph)
      g0 tasks)
    = match last (filter (λ t, ValidatedTask.id t = k) tasks) with
      | Some t => Some (ValidatedTask.dependencies t)
      | None => JsMap.get k g0
      end).
  { rewrite H. by destruct (last _). }
  induction tasks as [|t ts IH]; intros g0; simpl; [done|].
  rewrite IH, JsMap_get_set, filter_cons.
  destruct (decide (ValidatedTask.id t = k)) as [Hk|Hk].
  - rewrite last_cons. by destruct (last (filter _ ts)).
  - done.
Qed.

Lemma buildGraph_edge tasks u v :
  edge (buildGraph tasks) u v ↔
  ∃ t, last (filter (λ t, ValidatedTask.id t = u) tasks) = Some t ∧
       v ∈ ValidatedTask.dependencies t.
Proof.
  unfold edge, neighbors. rewrite buildGraph_get.
  destruct (last _) as [t|]; simpl.
  - split; [intros H; by exists t|intros (t' & [= <-] & H); done].
  - split; [intros H; by apply elem_of_nil in H|intros (t' & [=] & _)].
Qed.

(** With distinct ids the edges are the declared dependencies. *)
Lemma buildGraph_edge_NoDup tasks u v :
  NoDup (ValidatedTask.id <$> tasks) →
  edge (buildGraph tasks) u v ↔
  ∃ t, t ∈ tasks ∧ ValidatedTask.id t = u ∧ v ∈ ValidatedTask.dependencies t.
Proof.
  intros Hnd. rewrite buildGraph_edge. split.
  - intros (t & Hl & Hv). exists t.
    assert (Ht : t ∈ filter (λ t, ValidatedTask.id t = u) tasks).
    { apply last_Some in Hl as [l' ->]. apply elem_of_app. right. left. }
    apply list_elem_of_filter in Ht as [? ?]. done.
  - intros (t & Ht & Hu & Hv). exists t. split; [|done].
    clear Hv. induction tasks as [|t0 ts IH]; [by apply elem_of_nil in Ht|].
    rewrite fmap_cons in Hnd. apply NoDup_cons in Hnd as [Hnotin Hnd].
    rewrite filter_cons. apply elem_of_cons in Ht as [<-|Ht].
    + rewrite decide_True by done. rewrite last_cons.
      assert (Hnil : filter (λ t0, ValidatedTask.id t0 = u) ts = []).
      { apply elem_of_nil_inv. intros x Hx.
        apply list_elem_of_filter in Hx as [Hxu Hx].
        apply Hnotin. rewrite Hu, <- Hxu. by apply list_elem_of_fmap_2. }
      by rewrite Hnil.
    + destruct (decide (ValidatedTask.id t0 = u)) as [Heq|Hne]; [|by apply IH].
      exfalso. apply Hnotin. rewrite Heq, <- Hu. by apply list_elem_of_fmap_2.
Qed.

(** ** [detectCycles] *)

(** The traversal of [detectCycles] always returns, and the result is
    built from its final sets. *)
Lemma detectCycles_total tasks :
  ∃ st, detect_state tasks = Some st ∧
        detectCycles tasks
        = mkResult (bool_decide (0 < size (cycleNodes st))) (cycleNodes st)
                   (mark_cycle (cycleNodes st) <$> tasks) ∧
        (cycleNodes st ≠ ∅ ↔ has_cycle (buildGraph tasks)).
Proof.
  destruct (detect_loop_spec (buildGraph tasks)) as (st & Hst & Hiff).
  exists st. split; [done|]. split; [|done].
  unfold detectCycles, detectCycles_opt, detect_state. by rewrite Hst.
Qed.

Lemma detectCycles_hasCycles tasks :
  hasCycles (detectCycles tasks) = true ↔ has_cycle (buildGraph tasks).
Proof.
  destruct (detectCycles_total tasks) as (st & _ & -> & Hiff). simpl.
  rewrite bool_decide_eq_true, <- Hiff.
  split.
  - intros Hsz Hz. rewrite Hz, size_empty in Hsz. lia.
  - intros Hne.
    assert (size (cycleNodes st) ≠ 0); [|lia].
    apply size_non_empty_iff. intros Hz. apply Hne. by apply leibniz_equiv.
Qed.

Lemma detectCycles_acyclic tasks :
  ¬ has_cycle (buildGraph tasks) → tasksOf (detectCycles tasks) = tasks.
Proof.
  intros Hno. destruct (detectCycles_total tasks) as (st & _ & -> & Hiff). simpl.
  assert (Hz : cycleNodes st = ∅).
  { destruct (decide (cycleNodes st = ∅)); [done|]. exfalso. by apply Hno, Hiff. }
  rewrite Hz. rewrite <- (list_fmap_id tasks) at 2. apply list_fmap_ext.
  intros i t _. unfold mark_cycle. rewrite decide_False; [done|set_solver].
Qed.

Lemma sanitized_ids batch :
  ValidatedTask.id <$> validateAndSanitizeTasks batch = TaskOutput.id <$> batch.
Proof.
  unfold validateAndSanitizeTasks. rewrite <- list_fmap_compose.
  by apply list_fmap_ext.
Qed.

Lemma sanitized_ready batch :
  Forall (λ t, ValidatedTask.status t = TaskStatus.ready)
         (validateAndSanitizeTasks batch).
Proof.
  unfold validateAndSanitizeTasks. apply Forall_fmap, Forall_forall. done.
Qed.

(** C5. [detectCycles] reports [hasCycles = true] exactly when the graph
    of the sanitized batch has a directed cycle; on the three-task cycle
    A → B → C → A it records and marks exactly A, B and C; and on an
    acyclic batch it returns the tasks as they are, none of them with
    status ['error']. The graph is the one [buildGraph] builds; when the
    ids of the batch are distinct its edges are the sanitized
    dependencies of the tasks. *)
Theorem detectCycles_reports_cycles :
  (∀ batch,
     let tasks := validateAndSanitizeTasks batch in
     hasCycles (detectCycles tasks) = true ↔ has_cycle (buildGraph tasks)) ∧
  (let r := detectCycles (validateAndSanitizeTasks three_cycle) in
   hasCycles r = true ∧
   (∀ x, x ∈ cycleNodesOf r ↔ x ∈ ["A"; "B"; "C"]) ∧
   statuses (tasksOf r)
   = [("A", TaskStatus.error); ("B", TaskStatus.error);
      ("C", TaskStatus.error)]) ∧
  (∀ batch,
     let tasks := validateAndSanitizeTasks batch in
     ¬ has_cycle (buildGraph tasks) →
     hasCycles (detectCycles tasks) = false ∧
     tasksOf (detectCycles tasks) = tasks ∧
     Forall (λ t, ValidatedTask.status t ≠ TaskStatus.error)
            (tasksOf (detectCycles tasks))) ∧
  (∀ batch u v,
     let tasks := validateAndSanitizeTasks batch in
     NoDup (TaskOutput.id <$> batch) →
     edge (buildGraph tasks) u v ↔
     ∃ t, t ∈ tasks ∧ ValidatedTask.id t = u ∧
          v ∈ ValidatedTask.dependencies t).
Proof.
  split; [|split; [|split]]; cycle 3.
  { intros batch u v tasks Hnd. apply buildGraph_edge_NoDup.
    unfold tasks. by rewrite sanitized_ids. }
  - intros batch tasks. apply detectCycles_hasCycles.
  - split; [by vm_compute|]. split; [|by vm_compute].
    intros x.
    assert (Heq : cycleNodesOf (detectCycles (validateAndSanitizeTasks three_cycle))
                  = {["A"]} ∪ ({["B"]} ∪ {["C"]})) by (by vm_compute).
    rewrite Heq. set_solver.
  - intros batch tasks Hno. split; [|split].
    + destruct (hasCycles (detectCycles tasks)) eqn:Hh; [|done].
      exfalso. by apply Hno, detectCycles_hasCycles.
    + by apply detectCycles_acyclic.
    + rewrite detectCycles_acyclic by done.
      eapply Forall_impl; [apply sanitized_ready|]. intros t Ht. simpl in Ht.
      by rewrite Ht.
Qed.

Lemma detectCycles_reports_cycles_witness :
  let tasks := validateAndSanitizeTasks scenario_batch in
  ¬ has_cycle (buildGraph tasks) ∧
  hasCycles (detectCycles tasks) = false ∧
  tasksOf (detectCycles tasks) = tasks.
Proof.
  intros tasks.
  assert (Hno : ¬ has_cycle (buildGraph tasks)).
  { intros Hc. apply detectCycles_hasCycles in Hc.
    vm_compute in Hc. discriminate Hc. }
  destruct detectCycles_reports_cycles as (_ & _ & Hacyclic & _).
  destruct (Hacyclic scenario_batch Hno) as (H1 & H2 & _).
  split_and!; [exact Hno|exact H1|exact H2].
Defined.

(** What [detectCycles] returns for a sanitized batch has no task with
    status ['blocked']: every task is ['ready'] or ['error']. *)
Lemma detected_never_blocked batch :
  Forall (λ t, ValidatedTask.status t = TaskStatus.ready
               ∨ ValidatedTask.status t = TaskStatus.error)
         (tasksOf (detectCycles (validateAndSanitizeTasks batch))).
Proof.
  destruct (detectCycles_total (validateAndSanitizeTasks batch))
    as (st & _ & -> & _).
  cbn [tasksOf]. apply Forall_fmap.
  eapply Forall_impl; [apply sanitized_ready|].
  intros t Ht. cbn. unfold mark_cycle. destruct (decide _); [by right|by left].
Qed.

(** ** Tasks that depend on a marked task *)

Section Marks.
Variable graph : Graph.
Local Abbreviation E := (edge graph).
Local Abbreviation keeps := (stack_keeps graph).

Lemma dfs_neighbors_marks rec node done ns st b st' :
  (∀ n s b' s', rec n s = Some (b', s') → n ∉ visited s → keeps s →
     marks_post graph s s' (recursionStack s) n b') →
  neighbors graph node = done ++ ns →
  dfs_neighbors rec node ns st = Some (b, st') →
  node ∈ recursionStack st → node ∉ cycleNodes st → keeps st →
  (∀ v, v ∈ done → finished st v) →
  marks_post graph st st' (recursionStack st ∖ {[node]}) node b.
Proof.
  intros Hrec. revert done st.
  induction ns as [|n ns IH]; intros done st Hnb H Hnode Hnc Hk Hdone;
    cbn [dfs_neighbors] in H.
  - injection H as <- <-. rewrite app_nil_r in Hnb.
    destruct Hk as (Hsub & Hcs & Hcl). unfold marks_post, stack_keeps.
    split_and!; cbn; [set_solver|set_solver| |set_solver|set_solver|done|done].
    intros u v [Hu1 Hu2] Huv. cbn in *.
    assert (finished st v) as [Hv1 Hv2].
    { destruct (decide (u = node)) as [->|Hne].
      - apply Hdone. unfold edge in Huv. by rewrite Hnb in Huv.
      - apply (Hcl u v); [split; [done|set_solver]|done]. }
    split; cbn; [done|set_solver].
  - assert (Hnb' : neighbors graph node = (done ++ [n]) ++ ns)
      by (by rewrite <- app_assoc).
    destruct (decide (n ∉ visited st)) as [Hn|Hn].
    + destruct (rec n st) as [[b1 s1]|] eqn:Hrn; [|done].
      destruct (Hrec _ _ _ _ Hrn Hn Hk) as (Hk1 & HV1 & Hn1 & Hb1).
      destruct b1.
      * injection H as <- <-. destruct Hb1 as (HR1 & HR1' & HnC).
        destruct Hk1 as (Hsub1 & Hcs1 & Hcl1). unfold marks_post, stack_keeps.
        split_and!; cbn; [set_solver|set_solver|done|done|set_solver|set_solver|set_solver|set_solver].
      * destruct Hb1 as [HR1 HC1].
        destruct (IH _ _ Hnb' H) as (Hk' & HV' & Hnode' & Hb');
          [by rewrite HR1|by rewrite HC1|done| |].
        { intros v Hv. apply elem_of_app in Hv as [Hv|Hv].
          - destruct (Hdone v Hv). split; [set_solver|by rewrite HR1].
          - apply list_elem_of_singleton in Hv as ->. split; [done|].
            rewrite HR1. destruct Hk as [? _]. set_solver. }
        unfold marks_post. split_and!; [done|set_solver|done|].
        destruct b; [|by rewrite HR1, HC1 in Hb'].
        by rewrite HR1 in Hb'.
    + apply dec_stable in Hn.
      destruct (decide (n ∈ recursionStack st)) as [Hr|Hr].
      * injection H as <- <-. destruct Hk as (Hsub & Hcs & Hcl).
        unfold marks_post, stack_keeps.
        split_and!; cbn; [done|set_solver|done|done|set_solver|set_solver|set_solver|set_solver].
      * apply (IH _ _ Hnb' H); [done..|].
        intros v Hv. apply elem_of_app in Hv as [Hv|Hv]; [by apply Hdone|].
        by apply list_elem_of_singleton in Hv as ->.
Qed.

Lemma dfs_marks fuel node st b st' :
  dfs fuel graph node st = Some (b, st') →
  node ∉ visited st → keeps st →
  marks_post graph st st' (recursionStack st) node b.
Proof.
  revert node st b st'.
  induction fuel as [|fuel IH]; intros node st b st' H Hn Hk; [done|].
  cbn [dfs] in H. destruct Hk as (Hsub & Hcs & Hcl).
  eapply (dfs_neighbors_marks _ _ []) in H.
  - destruct H as (Hk' & HV & Hnode & Hb). cbn in *.
    unfold marks_post. split_and!; [done|set_solver|done|].
    destruct b.
    + destruct Hb as (H1 & H2 & H3). split_and!; [set_solver|set_solver|done].
    + destruct Hb as [H1 H2]. split; [|done]. rewrite H1. set_solver.
  - exact IH.
  - done.
  - cbn. set_solver.
  - cbn. set_solver.
  - split_and!; cbn; [set_solver|set_solver|].
    intros u v [Hu1 Hu2] Huv. cbn in *.
    destruct (Hcl u v) as [Hv1 Hv2]; [split; set_solver|done|].
    split; cbn; set_solver.
  - intros v Hv. by apply elem_of_nil in Hv.
Qed.

Lemma detect_loop_marks ks st st' :
  detect_loop graph ks st = Some st' →
  keeps st → recursionStack st ⊆ cycleNodes st →
  keeps st' ∧ recursionStack st' ⊆ cycleNodes st' ∧
  visited st ⊆ visited st' ∧ ∀ k, k ∈ ks → k ∈ visited st'.
Proof.
  revert st. induction ks as [|k ks IH]; intros st H Hk HR; cbn [detect_loop] in H.
  - injection H as <-. split_and!; [done..|]. intros k Hk'. by apply elem_of_nil in Hk'.
  - destruct (decide (k ∉ visited st)) as [Hn|Hn].
    + destruct (dfs _ graph k st) as [[b s1]|] eqn:Hd; [|done].
      pose proof (dfs_cycleNodes _ _ _ _ _ _ Hd) as [HC _].
      apply dfs_marks in Hd as (Hk1 & HV1 & Hk1' & Hb); [|done..].
      destruct (IH s1 H Hk1) as (Hk' & HR' & HV' & Hks').
      { destruct b; [destruct Hb as (_ & Hb & _); set_solver|].
        destruct Hb as [-> ->]. done. }
      split_and!; [done|done|set_solver|].
      intros k' Hk''. apply elem_of_cons in Hk'' as [->|Hk'']; [set_solver|by apply Hks'].
    + apply dec_stable in Hn. destruct (IH st H Hk HR) as (Hk' & HR' & HV' & Hks').
      split_and!; [done..|].
      intros k' Hk''. apply elem_of_cons in Hk'' as [->|Hk'']; [set_solver|by apply Hks'].
Qed.
End Marks.

(** Every task that lists a marked task among its dependencies is marked
    too: the set of cycle nodes is closed under "depends on". *)
Lemma detectCycles_marks_dependents tasks u v :
  edge (buildGraph tasks) u v →
  v ∈ cycleNodesOf (detectCycles tasks) →
  u ∈ cycleNodesOf (detectCycles tasks).
Proof.
  intros Huv. destruct (detectCycles_total tasks) as (st & Hst & -> & _). cbn.
  unfold detect_state in Hst.
  apply detect_loop_marks in Hst as ((Hsub & Hcs & Hcl) & HR & _ & Hks).
  - intros Hv. destruct (decide (u ∈ recursionStack st)) as [|Hu]; [set_solver|].
    destruct (Hcl u v) as [_ Hv']; [|done|set_solver].
    split; [|done]. apply Hks. by eapply edge_key.
  - split_and!; cbn; [set_solver|set_solver|]. intros x y [Hx _]. set_solver.
  - cbn. set_solver.
Qed.

(** ** [topologicalSort] returns *)

Section SortTotal.
Variable graph : Graph.
Local Abbreviation universe := (universe graph).
Local Abbreviation sort_total_spec := (sort_total_spec graph).

Lemma dfsSort_neighbors_total rec f node ns st :
  sort_total_spec f rec →
  (∀ n, n ∈ ns → n ∈ universe) →
  sortVisited st ⊆ universe → size (universe ∖ sortVisited st) ≤ f →
  ∃ b st', dfsSort_neighbors rec node ns st = Some (b, st') ∧
           sortVisited st ⊆ sortVisited st' ∧ sortVisited st' ⊆ universe.
Proof.
  intros Hrec. revert st.
  induction ns as [|n ns IH]; intros st Hns HV Hsz; cbn [dfsSort_neighbors].
  - eexists _, _. split; [done|]. cbn. set_solver.
  - assert (Hns' : ∀ m, m ∈ ns → m ∈ universe)
      by (intros m Hm; apply Hns; by right).
    destruct (decide (n ∉ sortVisited st)).
    + destruct (Hrec n st) as (b1 & s1 & -> & HV1 & HU1); [apply Hns; left|done..|].
      destruct b1.
      * destruct (IH s1 Hns' HU1) as (b & st' & -> & ? & ?).
        { etrans; [|exact Hsz]. apply subseteq_size. set_solver. }
        eexists _, _. split; [done|]. set_solver.
      * eexists _, _. split; [done|]. set_solver.
    + destruct (decide (n ∈ sortStack st)).
      * eexists _, _. split; [done|]. set_solver.
      * by apply IH.
Qed.

Lemma dfsSort_enough_fuel fuel : sort_total_spec fuel (dfsSort fuel graph).
Proof.
  induction fuel as [|fuel IH]; intros node st HU Hn HV Hsz.
  - exfalso. assert (Hz : size (universe ∖ sortVisited st) = 0) by lia.
    apply size_empty_iff in Hz. set_solver.
  - cbn [dfsSort].
    destruct (dfsSort_neighbors_total (dfsSort fuel graph) fuel node
                (neighbors graph node)
                (mkSort ({[node]} ∪ sortVisited st) ({[node]} ∪ sortStack st)
                        (result st)) IH)
      as (b & st' & Hr & HV' & HU').
    + apply neighbors_in_universe.
    + cbn. set_solver.
    + cbn.
      assert (Heq : universe ∖ sortVisited st
                    = {[node]} ∪ universe ∖ ({[node]} ∪ sortVisited st)).
      { apply set_eq. intros x. rewrite elem_of_union, !elem_of_difference,
          elem_of_union, elem_of_singleton.
        destruct (decide (x = node)) as [->|]; naive_solver. }
      rewrite Heq, size_union, size_singleton in Hsz; [lia|set_solver].
    + exists b, st'. split; [done|]. cbn in HV'. set_solver.
Qed.

Lemma sort_loop_total ks st :
  (∀ k, k ∈ ks → k ∈ universe) → sortVisited st ⊆ universe →
  is_Some (sort_loop graph ks st).
Proof.
  revert st. induction ks as [|k ks IH]; intros st Hks HV; cbn [sort_loop]; [done|].
  assert (Hks' : ∀ m, m ∈ ks → m ∈ universe)
    by (intros m Hm; apply Hks; by right).
  destruct (decide (k ∉ sortVisited st)); [|by apply IH].
  destruct (dfsSort_enough_fuel (dfs_fuel graph) k st) as (b & s1 & -> & ? & ?);
    [apply Hks; left|done|done| |].
  - pose proof (universe_size graph (sortVisited st)). lia.
  - destruct b; [by apply IH|done].
Qed.
End SortTotal.

(** [topologicalSort] always returns an order or [null]. *)
Lemma topologicalSort_total tasks : is_Some (topologicalSort tasks).
Proof.
  unfold topologicalSort. apply sort_loop_total; [apply key_in_universe|].
  cbn. set_solver.
Qed.

(** ** The order that [topologicalSort] returns *)

Section Sort.
Variable graph : Graph.
Local Abbreviation E := (edge graph).
Local Abbreviation sgood := (sort_good graph).

Lemma sort_finished_edge st u v :
  sgood st → sort_finished st u → E u v → sort_finished st v.
Proof.
  intros (_ & _ & Hres & Hpre & _) Hu Huv.
  destruct (Hpre u v Hu Huv) as (i & j & Hi & _ & _).
  apply Hres. apply list_elem_of_lookup. by exists i.
Qed.

Lemma sort_finished_rtc st u v :
  sgood st → sort_finished st u → rtc E u v → sort_finished st v.
Proof.
  intros Hg Hu Huv. induction Huv as [|x y z Hxy _ IH]; [done|].
  apply IH. by eapply sort_finished_edge.
Qed.

Lemma dfsSort_neighbors_true rec node done ns st st' :
  (∀ n s s', rec n s = Some (true, s') → n ∉ sortVisited s → sgood s →
     sort_true_post graph s s' (sortStack s) n) →
  neighbors graph node = done ++ ns →
  dfsSort_neighbors rec node ns st = Some (true, st') →
  node ∈ sortStack st → sgood st →
  (∀ v, v ∈ done → sort_finished st v) →
  sort_true_post graph st st' (sortStack st ∖ {[node]}) node.
Proof.
  intros Hrec. revert done st.
  induction ns as [|n ns IH]; intros done st Hnb H Hnode Hgood Hdone;
    cbn [dfsSort_neighbors] in H.
  - injection H as <-. rewrite app_nil_r in Hnb.
    pose proof Hgood as (Hsub & Hnd & Hres & Hpre & Hac).
    assert (Hsucc : ∀ v, E node v → sort_finished st v).
    { intros v Hv. apply Hdone. unfold edge in Hv. by rewrite Hnb in Hv. }
    assert (Hnotin : node ∉ result st).
    { intros Hin. apply Hres in Hin as [_ ?]. done. }
    assert (Hfin : ∀ u, sort_finished
                          (mkSort (sortVisited st) (sortStack st ∖ {[node]})
                                  (result st ++ [node])) u
                        ↔ u = node ∨ sort_finished st u).
    { intros u. unfold sort_finished. cbn. split.
      - intros [Hu1 Hu2]. destruct (decide (u = node)); [by left|].
        right. split; [done|set_solver].
      - intros [->|[Hu1 Hu2]]; split; set_solver. }
    split; [done|]. split; [done|]. split; [|cbn; set_solver].
    split; [cbn; set_solver|]. split_and!; cbn [result].
    + apply NoDup_app. split_and!; [done| |apply NoDup_singleton].
      intros x Hx Hx'. apply list_elem_of_singleton in Hx' as ->. done.
    + intros u. rewrite Hfin, elem_of_app, list_elem_of_singleton, Hres. tauto.
    + intros u v Hu Huv. apply Hfin in Hu as [->|Hu].
      * destruct (Hsucc v Huv) as [Hv1 Hv2].
        assert (Hv : v ∈ result st) by (apply Hres; by split).
        apply list_elem_of_lookup in Hv as [i Hi].
        exists i, (length (result st)). split_and!.
        -- rewrite lookup_app_l; [done|by eapply lookup_lt_Some].
        -- by rewrite list_lookup_middle.
        -- by eapply lookup_lt_Some.
      * destruct (Hpre u v Hu Huv) as (i & j & Hi & Hj & Hlt).
        exists i, j. split_and!; [| |done];
          (rewrite lookup_app_l; [done|by eapply lookup_lt_Some]).
    + intros u Hu Hcyc. apply Hfin in Hu as [->|Hu]; [|by eapply Hac].
      unfold on_cycle in Hcyc. apply tc_inv_l in Hcyc as (v & Hv & Hback).
      assert (sort_finished st node) as [_ ?]; [|done].
      eapply sort_finished_rtc; [done|by apply Hsucc|done].
  - assert (Hnb' : neighbors graph node = (done ++ [n]) ++ ns)
      by (by rewrite <- app_assoc).
    destruct (decide (n ∉ sortVisited st)) as [Hn|Hn].
    + destruct (rec n st) as [[[] s1]|] eqn:Hrn; try done.
      destruct (Hrec _ _ _ Hrn Hn Hgood) as (HV & HR & Hg1 & Hn1).
      destruct (IH _ _ Hnb' H) as (HV' & HR' & Hg' & Hn'); [by rewrite HR|done| |].
      { intros v Hv. apply elem_of_app in Hv as [Hv|Hv].
        - destruct (Hdone v Hv). split; [set_solver|by rewrite HR].
        - apply list_elem_of_singleton in Hv as ->. split; [done|].
          rewrite HR. destruct Hgood as [? _]. set_solver. }
      split; [set_solver|]. split; [by rewrite HR', HR|done].
    + apply dec_stable in Hn.
      destruct (decide (n ∈ sortStack st)); [done|].
      apply (IH _ _ Hnb' H); [done..|].
      intros v Hv. apply elem_of_app in Hv as [Hv|Hv]; [by apply Hdone|].
      by apply list_elem_of_singleton in Hv as ->.
Qed.

Lemma dfsSort_true fuel node st st' :
  dfsSort fuel graph node st = Some (true, st') →
  node ∉ sortVisited st → sgood st →
  sort_true_post graph st st' (sortStack st) node.
Proof.
  revert node st st'. induction fuel as [|fuel IH]; intros node st st' H Hn Hg;
    [done|].
  cbn [dfsSort] in H. pose proof Hg as (Hsub & Hnd & Hres & Hpre & Hac).
  eapply (dfsSort_neighbors_true _ _ []) in H.
  - destruct H as (HV & HR & Hg' & Hn'). cbn in *.
    split; [set_solver|]. split; [|done]. rewrite HR. set_solver.
  - exact IH.
  - done.
  - cbn. set_solver.
  - assert (Hfin : ∀ u, sort_finished
                          (mkSort ({[node]} ∪ sortVisited st)
                                  ({[node]} ∪ sortStack st) (result st)) u
                        ↔ sort_finished st u).
    { intros u. unfold sort_finished. cbn. set_solver. }
    split_and!; cbn [result sortStack sortVisited].
    + set_solver.
    + done.
    + intros u. by rewrite Hfin.
    + intros u v Hu. apply Hpre. by apply Hfin.
    + intros u Hu. apply Hac. by apply Hfin.
  - intros v Hv. by apply elem_of_nil in Hv.
Qed.

(** A [false] result witnesses a cycle, when the stack reaches the node. *)
Lemma dfsSort_neighbors_sound
    (rec : string → SortState → option (bool * SortState)) node ns st
    (b : bool) st' :
  (∀ n s b' s', rec n s = Some (b', s') →
     (∀ x, x ∈ sortStack s → rtc E x n) →
     if b' then sortStack s' ⊆ sortStack s else has_cycle graph) →
  (∀ n, n ∈ ns → E node n) →
  dfsSort_neighbors rec node ns st = Some (b, st') →
  (∀ x, x ∈ sortStack st → rtc E x node) →
  if b then sortStack st' ⊆ sortStack st ∖ {[node]} else has_cycle graph.
Proof.
  intros Hrec. revert st.
  induction ns as [|n ns IH]; intros st Hns H Hr; cbn [dfsSort_neighbors] in H.
  - injection H as <- <-. done.
  - assert (Hn : E node n) by (apply Hns; left).
    assert (Hns' : ∀ m, m ∈ ns → E node m) by (intros m Hm; apply Hns; by right).
    destruct (decide (n ∉ sortVisited st)).
    + destruct (rec n st) as [[b1 s1]|] eqn:Hrn; [|done].
      pose proof (Hrec _ _ _ _ Hrn) as H1. destruct b1.
      * assert (Hs1 : sortStack s1 ⊆ sortStack st).
        { apply H1. intros y Hy. eapply rtc_r; [by apply Hr|done]. }
        assert (Hr1 : ∀ x, x ∈ sortStack s1 → rtc E x node).
        { intros x Hx. apply Hr. set_solver. }
        pose proof (IH s1 Hns' H Hr1) as H2. destruct b; [set_solver|done].
      * injection H as <- <-. apply H1.
        intros y Hy. eapply rtc_r; [by apply Hr|done].
    + destruct (decide (n ∈ sortStack st)) as [Hin|Hin].
      * injection H as <- <-. exists node.
        eapply tc_rtc_r; [by apply tc_once|by apply Hr].
      * by apply IH.
Qed.

Lemma dfsSort_sound fuel node st (b : bool) st' :
  dfsSort fuel graph node st = Some (b, st') →
  (∀ x, x ∈ sortStack st → rtc E x node) →
  if b then sortStack st' ⊆ sortStack st else has_cycle graph.
Proof.
  revert node st b st'. induction fuel as [|fuel IH]; intros node st b st' H Hr;
    [done|].
  cbn [dfsSort] in H. eapply dfsSort_neighbors_sound in H.
  - destruct b; [|done]. cbn in H. set_solver.
  - exact IH.
  - done.
  - cbn. intros x Hx. apply elem_of_union in Hx as [Hx|Hx]; [|by apply Hr].
    apply elem_of_singleton in Hx as ->. done.
Qed.

Lemma sort_loop_spec ks st outcome :
  sort_loop graph ks st = Some outcome →
  sgood st → sortStack st = ∅ →
  match outcome with
  | Null => has_cycle graph
  | Sorted order =>
      ∃ st', order = reverse (result st') ∧ sgood st' ∧ sortStack st' = ∅ ∧
             sortVisited st ⊆ sortVisited st' ∧
             ∀ k, k ∈ ks → k ∈ sortVisited st'
  end.
Proof.
  revert st. induction ks as [|k ks IH]; intros st H Hg Hr; cbn [sort_loop] in H.
  - injection H as <-. exists st. split_and!; [done..|].
    intros k Hk. by apply elem_of_nil in Hk.
  - destruct (decide (k ∉ sortVisited st)) as [Hk|Hk].
    + destruct (dfsSort _ graph k st) as [[[] s1]|] eqn:Hd; [| |done].
      * apply dfsSort_true in Hd as (HV & HR & Hg1 & Hk1); [|done..].
        specialize (IH s1 H Hg1). rewrite HR in IH. specialize (IH Hr).
        destruct outcome as [order|]; [|done].
        destruct IH as (st' & -> & Hg' & Hr' & HV' & Hks).
        exists st'. split_and!; [done|done|done|set_solver|].
        intros k' Hk'. apply elem_of_cons in Hk' as [->|Hk']; [set_solver|by apply Hks].
      * injection H as <-. apply dfsSort_sound in Hd; [done|].
        intros x Hx. rewrite Hr in Hx. set_solver.
    + apply dec_stable in Hk. specialize (IH st H Hg Hr).
      destruct outcome as [order|]; [|done].
      destruct IH as (st' & -> & Hg' & Hr' & HV' & Hks).
      exists st'. split_and!; [done..|].
      intros k' Hk'. apply elem_of_cons in Hk' as [->|Hk']; [set_solver|by apply Hks].
Qed.
End Sort.

Lemma precedes_reverse (l : list string) u v :
  precedes l v u → precedes (reverse l) u v.
Proof.
  intros (i & j & Hi & Hj & Hlt).
  pose proof (lookup_lt_Some _ _ _ Hi). pose proof (lookup_lt_Some _ _ _ Hj).
  exists (length l - S j), (length l - S i). split_and!; [| |lia].
  - apply reverse_lookup_Some. split; [|lia].
    by replace (length l - S (length l - S j)) with j by lia.
  - apply reverse_lookup_Some. split; [|lia].
    by replace (length l - S (length l - S i)) with i by lia.
Qed.

(** What [topologicalSort] returns: [null] exactly when the graph has a
    directed cycle, and otherwise every id of the batch once, each task
    before the tasks it depends on. *)
Lemma topologicalSort_spec tasks :
  let graph := buildGraph tasks in
  is_Some (topologicalSort tasks) ∧
  (topologicalSort tasks = Some Null ↔ has_cycle graph) ∧
  ∀ order, topologicalSort tasks = Some (Sorted order) →
    NoDup order ∧
    (∀ k, k ∈ JsMap.keys graph → k ∈ order) ∧
    ∀ u v, edge graph u v → precedes order u v.
Proof.
  intros graph.
  assert (Hinit : sort_good graph (mkSort ∅ ∅ [])).
  { split_and!; cbn.
    - set_solver.
    - apply NoDup_nil_2.
    - intros u. unfold sort_finished. cbn. set_solver.
    - intros u v [Hu _]. cbn in Hu. set_solver.
    - intros u [Hu _]. cbn in Hu. set_solver. }
  assert (Hsorted : ∀ order, topologicalSort tasks = Some (Sorted order) →
    ¬ has_cycle graph ∧ NoDup order ∧
    (∀ k, k ∈ JsMap.keys graph → k ∈ order) ∧
    ∀ u v, edge graph u v → precedes order u v).
  { intros order H. unfold topologicalSort in H.
    apply sort_loop_spec in H as (st' & -> & Hg & Hr & _ & Hks); [|done..].
    pose proof Hg as (_ & Hnd & Hres & Hpre & Hac).
    assert (Hfin : ∀ k, k ∈ JsMap.keys graph → sort_finished st' k).
    { intros k Hk. split; [by apply Hks|]. rewrite Hr. set_solver. }
    split_and!.
    - intros [u Hu]. apply (Hac u); [|done]. apply Hfin.
      apply tc_inv_l in Hu as (v & Huv & _). by eapply edge_key.
    - by rewrite reverse_Permutation.
    - intros k Hk. apply elem_of_reverse, Hres. by apply Hfin.
    - intros u v Huv. apply precedes_reverse, Hpre; [|done].
      apply Hfin. by eapply edge_key. }
  pose proof (topologicalSort_total tasks) as [outcome Ho].
  split; [by rewrite Ho|]. split; [|intros order H; by apply Hsorted].
  split.
  - intros H. unfold topologicalSort in H.
    by apply sort_loop_spec in H.
  - intros Hc. destruct outcome as [order|]; [|done].
    by destruct (Hsorted order Ho) as [? _].
Qed.

(* ===================================================================== *)
(** * The pipeline on the scenarios of the specification                  *)
(* ===================================================================== *)

(** ** The sanitizer *)

(** C6. After sanitization every dependency id of every task is the id of
    a task of the batch, whatever the generator returned; the sanitizer
    keeps the tasks and their ids, and a batch with dropped dependencies
    goes on to the insert, not to the failure path of the job. *)
Theorem sanitized_dependencies_resolve (batch : list TaskOutput.t) :
  let tasks := validateAndSanitizeTasks batch in
  ValidatedTask.id <$> tasks = TaskOutput.id <$> batch ∧
  Forall (λ t, ∀ depId, depId ∈ ValidatedTask.dependencies t →
               depId ∈ ValidatedTask.id <$> tasks) tasks ∧
  ∀ ref start transcript now s,
    resume (AwaitExtract ref start transcript) now (Extracted batch) s
    = (s, Some (AwaitInsertMany ref start transcript (detectCycles tasks))).
Proof.
  intros tasks. split; [apply sanitized_ids|]. split; [|done].
  unfold tasks. rewrite sanitized_ids.
  unfold validateAndSanitizeTasks. apply Forall_fmap, Forall_forall.
  intros t _ depId Hd. simpl in Hd.
  apply list_elem_of_filter in Hd as [Hd _].
  by apply elem_of_list_to_set in Hd.
Qed.

Lemma closed_reach (g : Graph) (S : list string) u v :
  (∀ x y, x ∈ S → edge g x y → y ∈ S) → u ∈ S → rtc (edge g) u v → v ∈ S.
Proof.
  intros Hcl Hu Huv. induction Huv as [|x y z Hxy _ IH]; [done|].
  apply IH. by eapply Hcl.
Qed.

(** C3. A task that depends on a member of a cycle, without being on a
    cycle itself, is given status ['error'] by [detectCycles], whether it
    comes after the cycle in the batch or before it, and is stored with
    that status by the job. *)
Theorem dependent_of_cycle_is_marked :
  let g := buildGraph (validateAndSanitizeTasks cycle_then_dependent) in
  edge g "D" "A" ∧ on_cycle g "A" ∧ ¬ on_cycle g "D" ∧
  statuses (tasksOf (detectCycles (validateAndSanitizeTasks cycle_then_dependent)))
  = [("A", TaskStatus.error); ("B", TaskStatus.error); ("D", TaskStatus.error)] ∧
  statuses (tasksOf (detectCycles (validateAndSanitizeTasks dependent_then_cycle)))
  = [("D", TaskStatus.error); ("A", TaskStatus.error); ("B", TaskStatus.error)] ∧
  stored_statuses (tasks (db (run (one_job cycle_then_dependent) one_transcript)))
  = [("A", TaskStatus.error); ("B", TaskStatus.error); ("D", TaskStatus.error)].
Proof.
  intros g.
  assert (HA : ∀ y, edge g "A" y → y = "B").
  { intros y Hy. unfold edge in Hy. vm_compute in Hy.
    by apply list_elem_of_singleton in Hy. }
  assert (HB : ∀ y, edge g "B" y → y = "A").
  { intros y Hy. unfold edge in Hy. vm_compute in Hy.
    by apply list_elem_of_singleton in Hy. }
  assert (HD : ∀ y, edge g "D" y → y = "A").
  { intros y Hy. unfold edge in Hy. vm_compute in Hy.
    by apply list_elem_of_singleton in Hy. }
  split_and!.
  - unfold edge. vm_compute. left.
  - eapply tc_l; [|apply tc_once]; unfold edge; vm_compute; left.
  - intros Hc. apply tc_inv_l in Hc as (y & Hy & Hback).
    apply HD in Hy as ->.
    assert (Hin : "D" ∈ ["A"; "B"]).
    { eapply closed_reach; [|left|exact Hback].
      intros x y Hx Hxy. apply elem_of_cons in Hx as [->|Hx].
      - apply HA in Hxy as ->. right. left.
      - apply list_elem_of_singleton in Hx as ->. apply HB in Hxy as ->. left. }
    apply elem_of_cons in Hin as [[=]|Hin].
    by apply list_elem_of_singleton in Hin.
  - by vm_compute.
  - by vm_compute.
  - by vm_compute.
Qed.

(** C4. On the acyclic batch [A], [B(deps:[A])], [topologicalSort] returns
    the order [B, A]: the dependent [B] comes before its dependency [A].
    On the three-task cycle it returns [null]. *)
Theorem topologicalSort_puts_dependent_first :
  let tasks := validateAndSanitizeTasks chain in
  edge (buildGraph tasks) "B" "A" ∧
  ¬ has_cycle (buildGraph tasks) ∧
  topologicalSort tasks = Some (Sorted ["B"; "A"]) ∧
  precedes ["B"; "A"] "B" "A" ∧ ¬ precedes ["B"; "A"] "A" "B" ∧
  topologicalSort (validateAndSanitizeTasks three_cycle) = Some Null.
Proof.
  intros tasks. split_and!.
  - unfold edge. vm_compute. left.
  - intros Hc. subst tasks. apply detectCycles_hasCycles in Hc.
    vm_compute in Hc. discriminate Hc.
  - by vm_compute.
  - exists 0, 1. split_and!; [done|done|lia].
  - intros (i & j & Hi & Hj & Hlt).
    destruct i as [|[|i]]; simpl in Hi; try discriminate.
    destruct j as [|[|j]]; [lia|..]; simpl in Hj; discriminate.
  - by vm_compute.
Qed.

(** C1. For the batch [A(deps:[])], [B(deps:[A])], [C(deps:[X])] the job
    completes and stores all three tasks as ['ready'], [B] included, while
    the readiness recomputation with the empty completed-set gives [B]
    ['blocked']: [processJob] does not run the recomputation. *)
Theorem stored_statuses_skip_readiness :
  let s := run (one_job scenario_batch) one_transcript in
  let validated :=
    tasksOf (detectCycles (validateAndSanitizeTasks scenario_batch)) in
  ITranscript.status <$> transcripts (db s) = [JobStatus.completed] ∧
  stored_statuses (tasks (db s))
  = [("A", TaskStatus.ready); ("B", TaskStatus.ready); ("C", TaskStatus.ready)] ∧
  statuses (calculateTaskStatuses validated ∅)
  = [("A", TaskStatus.ready); ("B", TaskStatus.blocked); ("C", TaskStatus.ready)].
Proof. split_and!; by vm_compute. Qed.

(** C2. Completing a task whose status is ['error'] sets it to
    ['completed']: after the job on the three-task cycle has stored A, B
    and C as ['error'], the complete-task operation on A stores A as
    ['completed']. *)
Theorem completing_an_error_task_changes_it :
  let coll := tasks (db (run (one_job three_cycle) one_transcript)) in
  stored_statuses coll
  = [("A", TaskStatus.error); ("B", TaskStatus.error); ("C", TaskStatus.error)] ∧
  stored_statuses (complete_task "A" coll).2
  = [("A", TaskStatus.completed); ("B", TaskStatus.error);
     ("C", TaskStatus.error)].
Proof. split; by vm_compute. Qed.

(** C10. The poll operation answers with the status of the transcript it
    found; unless that status is ['completed'] its task list is empty,
    whatever the Task collection holds, and when it is ['completed'] the
    list is the tasks of that transcript. *)
Theorem poll_shows_tasks_only_when_completed
    (jobId : string) (trs : list ITranscript.t) (tks : list ITask.t)
    (s : Server) (snap : JobSnapshot) :
  get_job jobId trs tks s = Some snap →
  ∃ tr, findOne (byJobId jobId) trs = Some tr ∧
        snapshotStatus snap = ITranscript.status tr ∧
        (snapshotStatus snap ≠ JobStatus.completed → snapshotTasks snap = []) ∧
        (snapshotTasks snap ≠ [] → snapshotStatus snap = JobStatus.completed) ∧
        (snapshotStatus snap = JobStatus.completed →
         snapshotTasks snap
         = filter (λ t, byTranscriptId (ITranscript.oid tr) t) tks).
Proof.
  unfold get_job. destruct (findOne (byJobId jobId) trs) as [tr|]; [|discriminate].
  intros [= <-]. exists tr. simpl.
  destruct (decide (ITranscript.status tr = JobStatus.completed)) as [Hc|Hc];
    split_and!; try done.
Qed.

Lemma poll_shows_tasks_only_when_completed_witness :
  let stored := tasks (db (run (one_job scenario_batch) one_transcript)) in
  let snap := mkJobSnapshot "job_1" JobStatus.pending 0 "minutes" [] None None None in
  get_job "job_1" (transcripts (db one_transcript)) stored one_transcript
  = Some snap ∧
  ∃ tr, findOne (byJobId "job_1") (transcripts (db one_transcript)) = Some tr ∧
        snapshotStatus snap = ITranscript.status tr ∧
        (snapshotStatus snap ≠ JobStatus.completed → snapshotTasks snap = []) ∧
        (snapshotTasks snap ≠ [] → snapshotStatus snap = JobStatus.completed) ∧
        (snapshotStatus snap = JobStatus.completed →
         snapshotTasks snap
         = filter (λ t, byTranscriptId (ITranscript.oid tr) t) stored).
Proof.
  intros stored snap. split; [reflexivity|].
  apply (poll_shows_tasks_only_when_completed "job_1"
           (transcripts (db one_transcript)) stored one_transcript snap).
  reflexivity.
Defined.

(* ===================================================================== *)
(** * The job queue                                                       *)
(* ===================================================================== *)

(** ** Collections *)

Lemma findOne_Some {A} (p : A → bool) coll doc :
  findOne p coll = Some doc → doc ∈ coll ∧ p doc = true.
Proof.
  induction coll as [|d coll IH]; simpl; [done|].
  destruct (p d) eqn:Hp.
  - intros [= ->]. split; [left|done].
  - intros H. destruct (IH H). split; [by right|done].
Qed.

Lemma findOne_is_Some {A} (p : A → bool) coll :
  is_Some (findOne p coll) ↔ ∃ doc, doc ∈ coll ∧ p doc = true.
Proof.
  induction coll as [|d coll IH]; simpl.
  - split; [by intros [? ?]|intros (doc & H & _); by apply elem_of_nil in H].
  - destruct (p d) eqn:Hp.
    + split; [intros _; exists d; split; [left|done]|by eexists].
    + rewrite IH. split.
      * intros (doc & ? & ?). exists doc. split; [by right|done].
      * intros (doc & Hd & ?). apply elem_of_cons in Hd as [->|Hd]; [congruence|].
        by exists doc.
Qed.

Lemma findOne_app {A} (p : A → bool) coll coll' :
  findOne p (coll ++ coll')
  = match findOne p coll with Some doc => Some doc | None => findOne p coll' end.
Proof.
  induction coll as [|d coll IH]; simpl; [done|]. by destruct (p d).
Qed.

Lemma findOneAndUpdate_fmap {A B} (p : A → bool) (upd : A → A) (f : A → B) coll :
  (∀ doc, f (upd doc) = f doc) →
  f <$> findOneAndUpdate p upd coll = f <$> coll.
Proof.
  intros Hf. induction coll as [|d coll IH]; cbn [findOneAndUpdate]; [done|].
  destruct (p d); rewrite !fmap_cons; [by rewrite Hf|by rewrite IH].
Qed.

Lemma findOneAndUpdate_length {A} (p : A → bool) (upd : A → A) coll :
  length (findOneAndUpdate p upd coll) = length coll.
Proof.
  induction coll as [|d coll IH]; simpl; [done|]. destruct (p d); simpl; lia.
Qed.

(** The first match, updated, is what [findOne] then returns, when the
    update keeps the document a match. *)
Lemma findOne_findOneAndUpdate {A} (p : A → bool) (upd : A → A) coll doc :
  (∀ d, p d = true → p (upd d) = true) →
  findOne p coll = Some doc →
  findOne p (findOneAndUpdate p upd coll) = Some (upd doc).
Proof.
  intros Hp. induction coll as [|d coll IH]; simpl; [done|].
  destruct (p d) eqn:Hd; simpl.
  - intros [= ->]. by rewrite Hp.
  - rewrite Hd. apply IH.
Qed.

(** Whether a transcript with a job id exists depends on the keys only. *)
Lemma findOne_byJobId_keys j coll :
  is_Some (findOne (byJobId j) coll) ↔ j ∈ (transcript_keys coll).*1.
Proof.
  rewrite findOne_is_Some. unfold transcript_keys, byJobId.
  rewrite <- list_fmap_compose. rewrite list_elem_of_fmap. simpl. split.
  - intros (doc & Hd & Hj). apply bool_decide_eq_true in Hj. by exists doc.
  - intros (doc & -> & Hd). exists doc. split; [done|]. by apply bool_decide_eq_true.
Qed.

Lemma saveTranscript_keys jobId content contentHash coll :
  (transcript_keys (saveTranscript jobId content contentHash coll).2
   = transcript_keys coll) ∨
  (jobId ≠ "" ∧
   transcript_keys (saveTranscript jobId content contentHash coll).2
   = transcript_keys coll ++ [(jobId, contentHash)]).
Proof.
  unfold saveTranscript.
  destruct (bool_decide (jobId = "")) eqn:Hj; simpl; [by left|].
  destruct (bool_decide (content = "") || bool_decide (contentHash = ""));
    simpl; [by left|].
  destruct (decide _); simpl; [by left|]. right.
  apply bool_decide_eq_false in Hj. split; [done|].
  unfold transcript_keys. by rewrite fmap_app.
Qed.

(** ** The loop of [processQueue] *)

Lemma nonempty_ids_app q q' :
  nonempty_ids (q ++ q') = nonempty_ids q ++ nonempty_ids q'.
Proof. apply filter_app. Qed.

Lemma next_job_spec (jbs : gmap string nat) q :
  (∀ j, j ∈ q → is_Some (jbs !! j)) →
  match next_job jbs q with
  | None => nonempty_ids q = []
  | Some (ref, j, q') =>
      jbs !! j = Some ref ∧ nonempty_ids q = j :: nonempty_ids q' ∧
      length q' < length q ∧ ∀ x, x ∈ q' → x ∈ q
  end.
Proof.
  induction q as [|j q IH]; intros Hq; simpl; [done|].
  assert (Hq' : ∀ x, x ∈ q → is_Some (jbs !! x))
    by (intros x Hx; apply Hq; by right).
  specialize (IH Hq'). unfold nonempty_ids in *.
  destruct (decide (j = "")) as [->|Hj].
  - rewrite filter_cons_False by (intros H; by apply H).
    destruct (next_job jbs q) as [[[ref j'] q']|]; [|done].
    destruct IH as (? & ? & ? & Hin). split_and!; [done|done|simpl; lia|].
    intros x Hx. right. by apply Hin.
  - destruct (jbs !! j) as [ref|] eqn:Hl.
    + rewrite filter_cons_True by done. split_and!; [done|done|simpl; lia|].
      intros x Hx. by right.
    + destruct (Hq j) as [? ?]; [left|congruence].
Qed.

(** ** The invariant of the queue *)

Lemma queue_inv_init : queue_inv initial_server.
Proof.
  split; simpl; try done; intros;
    repeat match goal with
      | H : _ ∈ [] |- _ => by apply elem_of_nil in H
      | H : ∅ !! _ = Some _ |- _ => by rewrite lookup_empty in H
      | H : [] !! _ = Some _ |- _ => by rewrite lookup_nil in H
      end; lia.
Qed.

Lemma job_id_of_alter ref r (f : Job → Job) s objs :
  (∀ job, jobId (f job) = jobId job) →
  jobObjects s = alter f r objs →
  default "" (jobId <$> jobObjects s !! ref) = default "" (jobId <$> objs !! ref).
Proof.
  intros Hf ->. destruct (decide (r = ref)) as [->|Hne].
  - rewrite list_lookup_alter, decide_True by done.
    destruct (objs !! ref) as [job|]; cbn; [|done]. by rewrite (Hf job).
  - by rewrite list_lookup_alter_ne.
Qed.

Lemma idle_of_flag s : queue_inv s → isProcessing s = false → workers s = [].
Proof.
  intros Hinv Hf. rewrite (inv_flag _ Hinv) in Hf.
  apply bool_decide_eq_false in Hf. by apply dec_stable in Hf.
Qed.

Lemma busy_of_flag s :
  queue_inv s → isProcessing s = true → ∃ a, workers s = [a].
Proof.
  intros Hinv Hf. rewrite (inv_flag _ Hinv) in Hf.
  apply bool_decide_eq_true in Hf. pose proof (inv_single _ Hinv) as Hl.
  destruct (workers s) as [|a [|b ws]]; [done|by exists a|simpl in Hl; lia].
Qed.

Lemma found_ref_await a ref : found_ref a = Some ref → await_job a = Some ref.
Proof. destruct a; simpl; congruence. Qed.

Lemma processing_ref_await a ref :
  processing_ref a = Some ref → await_job a = Some ref.
Proof. destruct a; simpl; congruence. Qed.

Lemma job_id_of_eq ref s s' :
  jobId <$> jobObjects s' = jobId <$> jobObjects s →
  job_id_of ref s' = job_id_of ref s.
Proof.
  intros H. unfold job_id_of. by rewrite <- !list_lookup_fmap, H.
Qed.

(** A step that keeps the queue and moves the activations from [ws] to
    [ws'] keeps the invariant, under the side conditions on the Job
    objects and on the transcripts. *)
Lemma queue_inv_phase s s' :
  queue_inv s →
  jobs s' = jobs s → processingQueue s' = processingQueue s →
  isProcessing s' = isProcessing s → enqueuedLog s' = enqueuedLog s →
  startedLog s' = startedLog s →
  length (workers s') = length (workers s) →
  jobId <$> jobObjects s' = jobId <$> jobObjects s →
  (∀ a' ref, a' ∈ workers s' → await_job a' = Some ref →
     ∃ a, a ∈ workers s ∧ await_job a = Some ref) →
  (∀ ref job', jobObjects s' !! ref = Some job' →
     status job' = JobStatus.processing →
     (∃ job, jobObjects s !! ref = Some job ∧ status job = JobStatus.processing) ∧
     ∀ a, workers s = [a] → processing_ref a = Some ref →
          ∃ a', workers s' = [a'] ∧ processing_ref a' = Some ref) →
  (∃ extra, transcript_keys (transcripts (db s'))
            = transcript_keys (transcripts (db s)) ++ extra ∧
            Forall (λ k, k.1 ≠ "") extra) →
  (∀ a' ref, a' ∈ workers s' → found_ref a' = Some ref →
     (∃ a, a ∈ workers s ∧ found_ref a = Some ref) ∨
     is_Some (findOne (byJobId (job_id_of ref s)) (transcripts (db s)))) →
  queue_inv s'.
Proof.
  intros Hinv Hjobs Hq Hip Hel Hsl Hlen Hids Hheld Hproc (extra & Hkeys & Hextra) Hfound.
  assert (Hnil : workers s' = [] ↔ workers s = []).
  { destruct (workers s), (workers s'); simpl in Hlen; try done; lia. }
  destruct Hinv as [inv_single inv_flag inv_idle inv_fifo inv_jobs inv_refs inv_held
                     inv_processing inv_found inv_job_ids]. split.
  - by rewrite Hlen.
  - rewrite Hip, inv_flag. apply bool_decide_ext. by rewrite Hnil.
  - rewrite Hnil, Hq. done.
  - by rewrite Hsl, Hq, Hel.
  - rewrite Hq, Hjobs. done.
  - intros j ref Hj. rewrite Hjobs in Hj.
    destruct (inv_refs _ _ Hj) as (job & Hjob & Hid).
    assert (Hl : (jobId <$> jobObjects s') !! ref = Some j).
    { rewrite Hids, list_lookup_fmap, Hjob. simpl. by rewrite Hid. }
    rewrite list_lookup_fmap in Hl.
    destruct (jobObjects s' !! ref) as [job'|]; [|done].
    exists job'. split; [done|]. simpl in Hl. congruence.
  - intros a' ref Ha' Hr. destruct (Hheld _ _ Ha' Hr) as (a & Ha & Hra).
    rewrite <- (length_fmap jobId), Hids, length_fmap. exact (inv_held _ _ Ha Hra).
  - intros ref job' Hjob' Hst.
    destruct (Hproc _ _ Hjob' Hst) as [(job & Hjob & Hst0) Hw].
    destruct (inv_processing _ _ Hjob Hst0) as (a & Ha & Hra). by eapply Hw.
  - intros a' ref Ha' Hr. rewrite (job_id_of_eq _ _ _ Hids).
    apply findOne_byJobId_keys. rewrite Hkeys, fmap_app. apply elem_of_app. left.
    apply findOne_byJobId_keys.
    destruct (Hfound _ _ Ha' Hr) as [(a & Ha & Hra)|H]; [exact (inv_found _ _ Ha Hra)|done].
  - apply Forall_forall. intros tr Htr.
    assert (Hk : (ITranscript.jobId tr, ITranscript.contentHash tr)
                 ∈ transcript_keys (transcripts (db s'))).
    { unfold transcript_keys. apply list_elem_of_fmap. by exists tr. }
    rewrite Hkeys in Hk. apply elem_of_app in Hk as [Hk|Hk].
    + unfold transcript_keys in Hk.
      apply list_elem_of_fmap in Hk as (tr0 & Heq & Htr0).
      injection Heq as -> _. rewrite Forall_forall in inv_job_ids.
      by apply inv_job_ids.
    + rewrite Forall_forall in Hextra. apply (Hextra _ Hk).
Qed.

Lemma queue_inv_db s d :
  queue_inv s →
  (∃ extra, transcript_keys (transcripts d)
            = transcript_keys (transcripts (db s)) ++ extra ∧
            Forall (λ k, k.1 ≠ "") extra) →
  queue_inv (with_db d s).
Proof.
  intros Hinv Hkeys. eapply queue_inv_phase; try done; cbn.
  - intros a' ref Ha' Hr. by exists a'.
  - intros ref job' Hjob' Hst. split; [by exists job'|]. intros a Ha Hr. by exists a.
  - intros a' ref Ha' Hr. left. by exists a'.
Qed.

Lemma keys_same coll : ∃ extra : list (string * string),
  transcript_keys coll = transcript_keys coll ++ extra ∧
  Forall (λ k, k.1 ≠ "") extra.
Proof. exists []. by rewrite app_nil_r. Qed.

Lemma keys_update p upd coll :
  (∀ tr, ITranscript.jobId (upd tr) = ITranscript.jobId tr ∧
         ITranscript.contentHash (upd tr) = ITranscript.contentHash tr) →
  transcript_keys (findOneAndUpdate p upd coll) = transcript_keys coll.
Proof.
  intros H. apply findOneAndUpdate_fmap. intros tr. by destruct (H tr) as [-> ->].
Qed.

Lemma queue_inv_save j c h s :
  queue_inv s → queue_inv (step (EvSaveTranscript j c h) s).
Proof.
  intros Hinv. apply queue_inv_db; [done|]. cbn [transcripts].
  destruct (saveTranscript_keys j c h (transcripts (db s))) as [->|[Hj ->]].
  - apply keys_same.
  - eexists. split; [done|]. by apply Forall_singleton.
Qed.

Lemma queue_inv_complete i s :
  queue_inv s → queue_inv (step (EvCompleteTask i) s).
Proof.
  intros Hinv. apply queue_inv_db; [done|]. cbn [transcripts]. apply keys_same.
Qed.

(** The head of the loop of [processQueue], entered with the flag set
    and no Job in processing, re-establishes the invariant: either it
    hands the next Job to [processJob], or it clears the flag. *)
Lemma queue_inv_loop_head now s0 :
  isProcessing s0 = true →
  startedLog s0 ++ nonempty_ids (processingQueue s0)
  = nonempty_ids (enqueuedLog s0) →
  (∀ j, j ∈ processingQueue s0 → is_Some (jobs s0 !! j)) →
  (∀ j ref, jobs s0 !! j = Some ref →
     ∃ job, jobObjects s0 !! ref = Some job ∧ jobId job = j) →
  (∀ ref job, jobObjects s0 !! ref = Some job →
     status job ≠ JobStatus.processing) →
  Forall (λ tr, ITranscript.jobId tr ≠ "") (transcripts (db s0)) →
  queue_inv (with_workers (option_list (loop_head now s0).2) (loop_head now s0).1).
Proof.
  intros Hip Hfifo Hjobs Hrefs Hnone Hids. unfold loop_head.
  pose proof (next_job_spec (jobs s0) (processingQueue s0) Hjobs) as Hnext.
  destruct (next_job (jobs s0) (processingQueue s0)) as [[[ref j] q']|].
  - destruct Hnext as (Hj & Hne & Hlen & Hsub).
    destruct (Hrefs _ _ Hj) as (job & Hjob & Hid).
    split; cbn -[nonempty_ids].
    + lia.
    + by rewrite Hip.
    + done.
    + by rewrite <- app_assoc, <- Hfifo, Hne.
    + intros x Hx. by apply Hjobs, Hsub.
    + intros x r Hx. destruct (Hrefs _ _ Hx) as (jx & Hjx & Hidx).
      destruct (decide (ref = r)) as [->|Hr].
      * eexists. rewrite list_lookup_alter, decide_True, Hjx by done. done.
      * exists jx. by rewrite list_lookup_alter_ne.
    + intros a r Ha Hr. apply list_elem_of_singleton in Ha as ->.
      injection Hr as <-. rewrite length_alter. by eapply lookup_lt_Some.
    + intros r job' Hl Hst. exists (AwaitMarkProcessing ref now).
      split; [done|]. simpl. f_equal.
      destruct (decide (ref = r)) as [|Hr]; [done|].
      rewrite list_lookup_alter_ne in Hl by done. by destruct (Hnone _ _ Hl).
    + intros a r Ha Hr. apply list_elem_of_singleton in Ha as ->. done.
    + done.
  - split; cbn -[nonempty_ids].
    + lia.
    + done.
    + done.
    + by rewrite <- Hfifo, Hnext.
    + intros x Hx. by apply elem_of_nil in Hx.
    + done.
    + intros a r Ha. by apply elem_of_nil in Ha.
    + intros r job' Hl Hst. by destruct (Hnone _ _ Hl).
    + intros a r Ha. by apply elem_of_nil in Ha.
    + done.
Qed.

Lemma fmap_alter_jobId (f : Job → Job) (r : nat) (objs : list Job) :
  (∀ job, jobId (f job) = jobId job) →
  jobId <$> alter f r objs = jobId <$> objs.
Proof.
  intros Hf. apply list_eq. intros i. rewrite !list_lookup_fmap.
  destruct (decide (r = i)) as [->|Hne].
  - rewrite list_lookup_alter, decide_True by done.
    destruct (objs !! i) as [job|]; cbn; [|done]. by rewrite (Hf job).
  - by rewrite list_lookup_alter_ne.
Qed.

Lemma with_workers_id s : with_workers (workers s) s = s.
Proof. by destruct s. Qed.

Lemma loop_head_workers now s : workers (loop_head now s).1 = workers s.
Proof.
  unfold loop_head. by destruct (next_job _ _) as [[[ref j] q']|].
Qed.

Lemma resume_workers a now gen s : workers (resume a now gen s).1 = workers s.
Proof.
  destruct a; cbn -[loop_head insertMany]; try done.
  - by destruct (findOne _ _).
  - by destruct gen.
  - by destruct (insertMany _ _) as [[?|] ?].
  - apply loop_head_workers.
Qed.

Lemma queue_inv_processQueue now s1 :
  isProcessing s1 = false → workers s1 = [] → processingQueue s1 ≠ [] →
  startedLog s1 ++ nonempty_ids (processingQueue s1)
  = nonempty_ids (enqueuedLog s1) →
  (∀ j, j ∈ processingQueue s1 → is_Some (jobs s1 !! j)) →
  (∀ j ref, jobs s1 !! j = Some ref →
     ∃ job, jobObjects s1 !! ref = Some job ∧ jobId job = j) →
  (∀ ref job, jobObjects s1 !! ref = Some job →
     status job ≠ JobStatus.processing) →
  Forall (λ tr, ITranscript.jobId tr ≠ "") (transcripts (db s1)) →
  queue_inv (processQueue now s1).
Proof.
  intros Hip Hw Hq Hfifo Hjobs Hrefs Hnone Hids. unfold processQueue.
  rewrite Hip. rewrite bool_decide_eq_false_2 by (by destruct (processingQueue s1)).
  cbn [orb].
  set (s1' := mkServer _ _ _ true _ _ _ _).
  pose proof (queue_inv_loop_head now s1' eq_refl Hfifo Hjobs Hrefs Hnone Hids) as H.
  pose proof (loop_head_workers now s1') as Hlw.
  destruct (loop_head now s1') as [s2 [a|]]; cbn [fst snd option_list] in *.
  - rewrite Hlw. cbn. by rewrite Hw.
  - rewrite <- (with_workers_id s2), Hlw. cbn. by rewrite Hw.
Qed.

Lemma queue_inv_enqueue j t now s :
  queue_inv s → queue_inv (enqueueJob j t now s).
Proof.
  intros Hinv. unfold enqueueJob. cbn [isProcessing].
  destruct (isProcessing s) eqn:Hip; cbn [negb].
  - destruct (busy_of_flag _ Hinv Hip) as [a Ha].
    destruct Hinv as [inv_single inv_flag inv_idle inv_fifo inv_jobs inv_refs inv_held
                     inv_processing inv_found inv_job_ids]. split; cbn -[nonempty_ids].
    + done.
    + by rewrite Ha.
    + by rewrite Ha.
    + by rewrite !nonempty_ids_app, app_assoc, inv_fifo.
    + intros x Hx. apply elem_of_app in Hx as [Hx|Hx].
      * destruct (decide (j = x)) as [->|]; [by rewrite lookup_insert_eq|].
        rewrite lookup_insert_ne by done. by apply inv_jobs.
      * apply list_elem_of_singleton in Hx as ->. by rewrite lookup_insert_eq.
    + intros x ref Hx. destruct (decide (j = x)) as [->|Hne].
      * rewrite lookup_insert_eq in Hx. injection Hx as <-.
        eexists. by rewrite lookup_app_r, Nat.sub_diag.
      * rewrite lookup_insert_ne in Hx by done.
        destruct (inv_refs _ _ Hx) as (job & Hjob & ?). exists job.
        split; [|done]. by apply lookup_app_l_Some.
    + intros a' ref Ha' Hr. rewrite length_app. specialize (inv_held _ _ Ha' Hr). lia.
    + intros ref job Hl Hst. apply lookup_app_Some in Hl as [Hl|[_ Hl]].
      * by eapply inv_processing.
      * destruct (ref - length (jobObjects s)); simpl in Hl; [|done].
        injection Hl as <-. done.
    + intros a' ref Ha' Hr. unfold job_id_of. cbn.
      rewrite lookup_app_l by (eapply inv_held; [done|by apply found_ref_await]).
      apply (inv_found a' ref Ha' Hr).
    + done.
  - pose proof (idle_of_flag _ Hinv Hip) as Hw.
    pose proof (inv_idle _ Hinv Hw) as Hq.
    destruct Hinv as [inv_single inv_flag inv_idle inv_fifo inv_jobs inv_refs inv_held
                     inv_processing inv_found inv_job_ids]. apply queue_inv_processQueue; cbn -[nonempty_ids]; rewrite ?Hq.
    + done.
    + done.
    + done.
    + rewrite Hq in inv_fifo. change (nonempty_ids []) with (@nil string) in *.
      rewrite app_nil_r in inv_fifo. by rewrite !nonempty_ids_app, <- inv_fifo.
    + intros x Hx. apply list_elem_of_singleton in Hx as ->.
      by rewrite lookup_insert_eq.
    + intros x ref Hx. destruct (decide (j = x)) as [->|Hne].
      * rewrite lookup_insert_eq in Hx. injection Hx as <-.
        eexists. by rewrite lookup_app_r, Nat.sub_diag.
      * rewrite lookup_insert_ne in Hx by done.
        destruct (inv_refs _ _ Hx) as (job & Hjob & ?). exists job.
        split; [|done]. by apply lookup_app_l_Some.
    + intros ref job Hl Hst. apply lookup_app_Some in Hl as [Hl|[_ Hl]].
      * destruct (inv_processing _ _ Hl Hst) as (a & Ha & _). congruence.
      * destruct (ref - length (jobObjects s)); simpl in Hl; [|done].
        injection Hl as <-. done.
    + done.
Qed.

Lemma single_worker s w a :
  queue_inv s → workers s !! w = Some a → w = 0 ∧ workers s = [a].
Proof.
  intros Hinv Hl. pose proof (inv_single _ Hinv) as Hlen.
  destruct (workers s) as [|b [|c ws]]; [done| |simpl in Hlen; lia].
  destruct w; simpl in Hl; [|done]. by injection Hl as ->.
Qed.

Lemma set_keys :
  (∀ tr, ITranscript.jobId (set_processing tr) = ITranscript.jobId tr ∧
         ITranscript.contentHash (set_processing tr) = ITranscript.contentHash tr) ∧
  (∀ md tr, ITranscript.jobId (set_completed md tr) = ITranscript.jobId tr ∧
            ITranscript.contentHash (set_completed md tr) = ITranscript.contentHash tr) ∧
  (∀ m tr, ITranscript.jobId (set_failed m tr) = ITranscript.jobId tr ∧
           ITranscript.contentHash (set_failed m tr) = ITranscript.contentHash tr).
Proof. done. Qed.

Ltac solve_held :=
  let a' := fresh "a'" in let Ha' := fresh "Ha'" in let Hr := fresh "Hr" in
  intros a' ? Ha' Hr; apply list_elem_of_singleton in Ha' as ->;
  first [ discriminate Hr | eexists; split; [left|exact Hr] ].

Ltac solve_proc_same :=
  let Ha := fresh "Ha" in
  intros ? job' ? ?; split; [by exists job'|];
  intros ? Ha ?; injection Ha as <-; eexists; split; [reflexivity|eassumption].

Ltac solve_proc_alter ref :=
  let r := fresh "r" in let Hj := fresh "Hj" in let Hst := fresh "Hst" in
  let Ha := fresh "Ha" in let Hr := fresh "Hr" in
  intros r job' Hj Hst;
  destruct (decide (ref = r)) as [<-|?];
  [ rewrite list_lookup_alter, decide_True in Hj by done;
    destruct (_ !! ref); [|done]; injection Hj as <-; done
  | rewrite list_lookup_alter_ne in Hj by done;
    split; [by exists job'|];
    intros ? Ha Hr; injection Ha as <-; cbn in Hr; congruence ].

Ltac solve_keys :=
  fold (transcript_keys);
  rewrite ?keys_update by apply set_keys; apply keys_same.

Ltac solve_found :=
  let a' := fresh "a'" in let Ha' := fresh "Ha'" in let Hr := fresh "Hr" in
  intros a' ? Ha' Hr; apply list_elem_of_singleton in Ha' as ->;
  first [ discriminate Hr | left; eexists; split; [left|exact Hr] ].

Lemma queue_inv_catch ref message now s a :
  queue_inv s → workers s = [a] → processing_ref a = Some ref →
  queue_inv (with_workers [AwaitMarkFailed ref (captured_message message)]
               (update_job ref (job_set_failed now) s)).
Proof.
  intros Hinv Hw Hr.
  eapply queue_inv_phase; [exact Hinv|cbn; try done..]; rewrite ?Hw.
  - done.
  - by apply fmap_alter_jobId.
  - intros a' r Ha' Hr'. apply list_elem_of_singleton in Ha' as ->.
    exists a. split; [left|]. injection Hr' as <-. by apply processing_ref_await.
  - solve_proc_alter ref.
  - apply keys_same.
  - solve_found.
Qed.

Lemma queue_inv_resume w now gen s :
  queue_inv s → queue_inv (resume_worker w now gen s).
Proof.
  intros Hinv. unfold resume_worker.
  destruct (workers s !! w) as [a|] eqn:Hl; [|done].
  destruct (single_worker _ _ _ Hinv Hl) as [-> Hw].
  pose proof (resume_workers a now gen s) as Hrw.
  destruct a; cbn -[loop_head insertMany] in *.
  - cbn; rewrite ?Hw; cbn.
    eapply queue_inv_phase; [exact Hinv|cbn; try done..]; rewrite ?Hw.
    + done.
    + solve_held.
    + solve_proc_same.
    + solve_keys.
    + solve_found.
  - destruct (findOne _ _) as [transcript|] eqn:Hf.
    + cbn; rewrite ?Hw; cbn.
      eapply queue_inv_phase; [exact Hinv|cbn; try done..]; rewrite ?Hw.
      * done.
      * solve_held.
      * solve_proc_same.
      * apply keys_same.
      * intros a' r Ha' Hr. apply list_elem_of_singleton in Ha' as ->.
        injection Hr as <-. right. by rewrite Hf.
    + cbn; rewrite ?Hw; cbn. by eapply queue_inv_catch.
  - destruct gen as [llmTasks|message].
    + cbn; rewrite ?Hw; cbn.
      eapply queue_inv_phase; [exact Hinv|cbn; try done..]; rewrite ?Hw.
      * done.
      * solve_held.
      * solve_proc_same.
      * apply keys_same.
      * solve_found.
    + cbn; rewrite ?Hw; cbn. by eapply queue_inv_catch.
  - destruct (insertMany _ _) as [[message|] coll] eqn:Hins.
    + cbn. cbn; rewrite ?Hw; cbn.
      apply (queue_inv_catch _ _ _ (with_db _ s) (AwaitInsertMany job start transcript cycleResult));
        [|done|done].
      apply queue_inv_db; [done|]. apply keys_same.
    + cbn; rewrite ?Hw; cbn.
      eapply queue_inv_phase; [exact Hinv|cbn; try done..]; rewrite ?Hw.
      * done.
      * solve_held.
      * solve_proc_same.
      * apply keys_same.
      * solve_found.
  - cbn; rewrite ?Hw; cbn.
    eapply queue_inv_phase; [exact Hinv|cbn; try done..]; rewrite ?Hw.
    + done.
    + by apply fmap_alter_jobId.
    + solve_held.
    + solve_proc_alter job.
    + solve_keys.
    + solve_found.
  - cbn; rewrite ?Hw; cbn.
    eapply queue_inv_phase; [exact Hinv|cbn; try done..]; rewrite ?Hw.
    + done.
    + solve_held.
    + solve_proc_same.
    + solve_keys.
    + solve_found.
  - pose proof (queue_inv_loop_head now s) as H.
    destruct Hinv as [inv_single inv_flag inv_idle inv_fifo inv_jobs inv_refs inv_held
                     inv_processing inv_found inv_job_ids].
    specialize (H ltac:(by rewrite inv_flag, Hw) inv_fifo inv_jobs inv_refs).
    destruct (loop_head now s) as [s' [a'|]]; cbn [fst snd option_list] in *;
      rewrite Hrw, Hw; cbn; apply H; try done.
    all: intros ref job Hj Hst; destruct (inv_processing _ _ Hj Hst) as (a0 & Ha0 & Hr0);
      rewrite Hw in Ha0; injection Ha0 as <-; done.
Qed.

Lemma reject_workers a message now s :
  workers (reject a message now s).1 = workers s.
Proof. destruct a; cbn -[loop_head]; try done. apply loop_head_workers. Qed.

Lemma queue_inv_reject w now message s :
  queue_inv s → queue_inv (reject_worker w now message s).
Proof.
  intros Hinv. unfold reject_worker.
  destruct (workers s !! w) as [a|] eqn:Hl; [|done].
  destruct (single_worker _ _ _ Hinv Hl) as [-> Hw].
  pose proof (reject_workers a message now s) as Hrw.
  destruct a; cbn -[loop_head] in *.
  1-5: cbn; rewrite ?Hw; cbn; by eapply queue_inv_catch.
  - cbn; rewrite ?Hw; cbn.
    eapply queue_inv_phase; [exact Hinv|cbn; try done..]; rewrite ?Hw.
    + done.
    + solve_held.
    + solve_proc_same.
    + apply keys_same.
    + solve_found.
  - pose proof (queue_inv_loop_head now s) as H.
    destruct Hinv as [inv_single inv_flag inv_idle inv_fifo inv_jobs inv_refs inv_held
                     inv_processing inv_found inv_job_ids].
    specialize (H ltac:(by rewrite inv_flag, Hw) inv_fifo inv_jobs inv_refs).
    destruct (loop_head now s) as [s' [a'|]]; cbn [fst snd option_list] in *;
      rewrite Hrw, Hw; cbn; apply H; try done.
    all: intros ref job Hj Hst; destruct (inv_processing _ _ Hj Hst) as (a0 & Ha0 & Hr0);
      rewrite Hw in Ha0; injection Ha0 as <-; done.
Qed.

Lemma queue_inv_step e s : queue_inv s → queue_inv (step e s).
Proof.
  destruct e.
  - apply queue_inv_save.
  - apply queue_inv_enqueue.
  - apply queue_inv_complete.
  - apply queue_inv_resume.
  - apply queue_inv_reject.
Qed.

Lemma queue_inv_run es s : queue_inv s → queue_inv (run es s).
Proof.
  revert s. induction es as [|e es IH]; intros s Hinv; [done|].
  apply IH. by apply queue_inv_step.
Qed.

Lemma queue_inv_reachable s : reachable s → queue_inv s.
Proof.
  induction 1; [apply queue_inv_init|by apply queue_inv_step].
Qed.

Lemma reachable_run es s : reachable s → reachable (run es s).
Proof.
  revert s. induction es as [|e es IH]; intros s Hr; [done|].
  apply IH. by constructor.
Qed.

(** ** Draining *)

Lemma resume_worker_idle w now gen s :
  workers s = [] → resume_worker w now gen s = s.
Proof. intros Hw. unfold resume_worker. by rewrite Hw. Qed.

Lemma resume_worker_single now gen s a :
  workers s = [a] →
  resume_worker 0 now gen s
  = with_workers (option_list (resume a now gen s).2) (resume a now gen s).1.
Proof.
  intros Hw. unfold resume_worker. rewrite Hw. cbn [lookup list_lookup].
  pose proof (resume_workers a now gen s) as Hrw.
  destruct (resume a now gen s) as [s' [a'|]]; cbn [fst snd option_list] in *;
    by rewrite Hrw, Hw.
Qed.

Lemma resume_decreases now gen s a :
  queue_inv s → workers s = [a] →
  drain_bound (resume_worker 0 now gen s) < drain_bound s.
Proof.
  intros Hinv Hw. rewrite (resume_worker_single _ _ _ _ Hw).
  unfold drain_bound at 2. rewrite Hw.
  destruct a; cbn -[loop_head insertMany Nat.mul].
  - unfold drain_bound; cbn; lia.
  - destruct (findOne _ _); unfold drain_bound; cbn; lia.
  - destruct gen; unfold drain_bound; cbn; lia.
  - destruct (insertMany _ _) as [[?|] ?]; unfold drain_bound; cbn; lia.
  - unfold drain_bound; cbn; lia.
  - unfold drain_bound; cbn; lia.
  - unfold loop_head.
    pose proof (next_job_spec (jobs s) (processingQueue s) (inv_jobs _ Hinv)) as Hn.
    destruct (next_job _ _) as [[[ref j] q']|]; unfold drain_bound; cbn.
    + destruct Hn as (_ & _ & Hlen & _). lia.
    + lia.
Qed.

(** Enough resumptions bring the activation back to idle. *)
Lemma drain_idle inputs s :
  queue_inv s → drain_bound s ≤ length inputs →
  workers (run (resumes inputs) s) = [].
Proof.
  revert s. induction inputs as [|i inputs IH]; intros s Hinv Hb.
  - cbn. unfold drain_bound in Hb. destruct (workers s) as [|a ws]; [done|].
    change (length []) with 0 in Hb. exfalso. destruct a; cbn [rank] in Hb; lia.
  - cbn [resumes fmap list_fmap run foldl step].
    change (foldl (λ s e, step e s) ?x ?l) with (run l x).
    pose proof (inv_single _ Hinv) as Hlen.
    destruct (workers s) as [|a [|b ws]] eqn:Hw; [| |simpl in Hlen; lia].
    + rewrite resume_worker_idle by done. apply IH; [done|].
      unfold drain_bound in *. rewrite Hw in *. rewrite (inv_idle _ Hinv Hw). cbn. lia.
    + apply IH; [by apply queue_inv_resume|].
      pose proof (resume_decreases i.1 i.2 s a Hinv Hw). simpl length in Hb. lia.
Qed.

Lemma idle_all_started s :
  queue_inv s → workers s = [] →
  processingQueue s = [] ∧ isProcessing s = false ∧
  startedLog s = nonempty_ids (enqueuedLog s).
Proof.
  intros Hinv Hw. pose proof (inv_idle _ Hinv Hw) as Hq.
  split; [done|]. split.
  - rewrite (inv_flag _ Hinv), Hw. done.
  - rewrite <- (inv_fifo _ Hinv), Hq. cbn. by rewrite app_nil_r.
Qed.

(** Whatever happened before, enough resumptions drain the queue: the
    activation returns, and every job that was enqueued has been handed
    to [processJob]. *)
Lemma queue_drains s inputs :
  queue_inv s → drain_bound s ≤ length inputs →
  let s' := run (resumes inputs) s in
  workers s' = [] ∧ processingQueue s' = [] ∧ isProcessing s' = false ∧
  startedLog s' = nonempty_ids (enqueuedLog s').
Proof.
  intros Hinv Hb s'.
  assert (Hw : workers s' = []) by (by apply drain_idle).
  split; [done|]. apply idle_all_started; [|done]. by apply queue_inv_run.
Qed.

(** ** Failure of a job *)

Lemma captured_message_nonempty message : captured_message message ≠ "".
Proof. unfold captured_message. by destruct (decide (message = "")). Qed.

Lemma kept_refl s : kept s s.
Proof. by split_and!. Qed.

Lemma kept_trans s1 s2 s3 : kept s1 s2 → kept s2 s3 → kept s1 s3.
Proof.
  intros (Hw1 & Hl1 & Hj1 & Ht1) (Hw2 & Hl2 & Hj2 & Ht2). split_and!.
  - congruence.
  - lia.
  - intros ref Hr. rewrite Hj2 by lia. by apply Hj1.
  - intros j Hj. by apply Ht2, Ht1.
Qed.

Lemma kept_step e s :
  queue_inv s → workers s ≠ [] → external e → kept s (step e s).
Proof.
  intros Hinv Hw He. destruct e as [j c h|j t now|i| |]; [| | |done|done].
  - split_and!; try done. intros j' Hj'. cbn [step update_transcripts with_db db transcripts].
    apply findOne_byJobId_keys. apply findOne_byJobId_keys in Hj'.
    destruct (saveTranscript_keys j c h (transcripts (db s))) as [->|[_ ->]]; [done|].
    rewrite fmap_app. apply elem_of_app. by left.
  - cbn [step]. unfold enqueueJob. cbn [isProcessing].
    rewrite (inv_flag _ Hinv), bool_decide_eq_true_2 by done. cbn [negb].
    split_and!; cbn.
    + done.
    + rewrite length_app. lia.
    + intros ref Hr. unfold job_id_of. cbn. by rewrite lookup_app_l.
    + done.
  - by split_and!.
Qed.

Lemma kept_run es s :
  queue_inv s → workers s ≠ [] → Forall external es → kept s (run es s).
Proof.
  revert s. induction es as [|e es IH]; intros s Hinv Hw Hes; [apply kept_refl|].
  apply Forall_cons in Hes as [He Hes].
  pose proof (kept_step e s Hinv Hw He) as Hk.
  eapply kept_trans; [exact Hk|]. apply IH; [by apply queue_inv_step| |done].
  destruct Hk as [-> _]. done.
Qed.

(** [enqueueJob] returns with every activation it started suspended at
    the first [await] of [processJob]: nothing of the job has run yet. *)
Lemma enqueueJob_suspends j t now s a :
  a ∈ workers (enqueueJob j t now s) →
  a ∈ workers s ∨ ∃ ref, a = AwaitMarkProcessing ref now.
Proof.
  unfold enqueueJob. cbn [isProcessing]. destruct (isProcessing s); cbn [negb].
  - cbn. by left.
  - unfold processQueue. cbn [isProcessing orb].
    destruct (bool_decide _); [cbn; by left|].
    unfold loop_head. cbn [jobs processingQueue].
    destruct (next_job _ _) as [[[ref j'] q']|]; cbn; [|by left].
    intros Ha. apply elem_of_app in Ha as [Ha|Ha]; [by left|].
    apply list_elem_of_singleton in Ha as ->. right. by exists ref.
Qed.








(** ** The history variables *)

Lemma enqueuedLog_resume a now gen s :
  enqueuedLog (resume a now gen s).1 = enqueuedLog s.
Proof.
  destruct a; cbn -[insertMany]; try done.
  - by destruct (findOne _ _).
  - by destruct gen.
  - by destruct (insertMany _ _) as [[?|] ?].
  - unfold loop_head. by destruct (next_job _ _) as [[[? ?] ?]|].
Qed.

Lemma enqueuedLog_reject a message now s :
  enqueuedLog (reject a message now s).1 = enqueuedLog s.
Proof.
  destruct a; cbn; try done.
  unfold loop_head. by destruct (next_job _ _) as [[[? ?] ?]|].
Qed.

Lemma enqueuedLog_step e s :
  enqueuedLog (step e s)
  = enqueuedLog s ++ match e with EvEnqueue j _ _ => [j] | _ => [] end.
Proof.
  destruct e as [j c h|j t now|i|w now gen|w now message]; cbn [step];
    [| | | |rewrite app_nil_r; unfold reject_worker;
            destruct (workers s !! w) as [a|]; [|done];
            pose proof (enqueuedLog_reject a message now s) as H;
            by destruct (reject a message now s) as [s' [a'|]]].
  - cbn. by rewrite app_nil_r.
  - unfold enqueueJob. cbn [isProcessing]. destruct (isProcessing s); cbn [negb]; [done|].
    unfold processQueue. cbn [isProcessing orb].
    destruct (bool_decide _); [done|].
    unfold loop_head. cbn [jobs processingQueue].
    by destruct (next_job _ _) as [[[? ?] ?]|].
  - cbn. by rewrite app_nil_r.
  - rewrite app_nil_r. unfold resume_worker.
    destruct (workers s !! w) as [a|]; [|done].
    pose proof (enqueuedLog_resume a now gen s) as H.
    by destruct (resume a now gen s) as [s' [a'|]].
Qed.

Lemma enqueuedLog_resumes inputs s :
  enqueuedLog (run (resumes inputs) s) = enqueuedLog s.
Proof.
  revert s. induction inputs as [|i inputs IH]; intros s; [done|].
  cbn [resumes fmap list_fmap run foldl].
  change (foldl (λ s e, step e s) ?x ?l) with (run l x).
  etrans; [apply IH|]. by rewrite enqueuedLog_step, app_nil_r.
Qed.

(** C9. In every state the server can reach there is at most one
    suspended activation of [processQueue], and at most one Job object has
    status ['processing'], however many enqueue events occurred. The jobs
    handed to [processJob] so far, followed by the queued ones, are the
    enqueued jobs in the order of the enqueue calls. When no activation is
    left the queue is empty and every enqueued job has been handed to
    [processJob]; and from every state enough resumptions lead there. The
    enqueue log records the id of every enqueue call and nothing else. *)
Theorem one_job_at_a_time_in_order s :
  reachable s →
  length (workers s) ≤ 1 ∧
  (∀ r1 r2 job1 job2,
     jobObjects s !! r1 = Some job1 → status job1 = JobStatus.processing →
     jobObjects s !! r2 = Some job2 → status job2 = JobStatus.processing →
     r1 = r2) ∧
  startedLog s ++ nonempty_ids (processingQueue s)
  = nonempty_ids (enqueuedLog s) ∧
  (workers s = [] →
   processingQueue s = [] ∧ isProcessing s = false ∧
   startedLog s = nonempty_ids (enqueuedLog s)) ∧
  (∀ inputs, drain_bound s ≤ length inputs →
     let s' := run (resumes inputs) s in
     workers s' = [] ∧ startedLog s' = nonempty_ids (enqueuedLog s)) ∧
  (∀ e, enqueuedLog (step e s)
        = enqueuedLog s ++ match e with EvEnqueue j _ _ => [j] | _ => [] end).
Proof.
  intros Hreach. pose proof (queue_inv_reachable _ Hreach) as Hinv. split_and!.
  - apply (inv_single _ Hinv).
  - intros r1 r2 job1 job2 H1 Hs1 H2 Hs2.
    destruct (inv_processing _ Hinv _ _ H1 Hs1) as (a1 & Ha1 & Hr1).
    destruct (inv_processing _ Hinv _ _ H2 Hs2) as (a2 & Ha2 & Hr2).
    congruence.
  - apply (inv_fifo _ Hinv).
  - by apply idle_all_started.
  - intros inputs Hb s'.
    destruct (queue_drains s inputs Hinv Hb) as (Hw & _ & _ & Hst).
    split; [done|]. fold s' in Hst. rewrite Hst. unfold s'.
    by rewrite enqueuedLog_resumes.
  - intros e. apply enqueuedLog_step.
Qed.

(* ===================================================================== *)
(** * The complete-task route                                             *)
(* ===================================================================== *)

Lemma findOneAndUpdate_keeps {A} (p : A → bool) (upd : A → A) coll doc :
  doc ∈ coll → p doc = false → doc ∈ findOneAndUpdate p upd coll.
Proof.
  induction coll as [|d coll IH]; intros Hin Hp; [done|]. cbn [findOneAndUpdate].
  apply elem_of_cons in Hin as [<-|Hin].
  - rewrite Hp. left.
  - destruct (p d); right; [done|by apply IH].
Qed.

Lemma save_statuses_keeps updatedTasks coll doc :
  doc ∈ coll →
  ITask.taskId doc ∉ ValidatedTask.id <$> updatedTasks →
  doc ∈ save_statuses updatedTasks coll.
Proof.
  unfold save_statuses. revert coll.
  induction updatedTasks as [|t ts IH]; intros coll Hin Hid; [done|].
  cbn [foldl]. apply IH.
  - apply findOneAndUpdate_keeps; [done|]. unfold byTaskId.
    apply bool_decide_eq_false. intros Heq. apply Hid. rewrite Heq. left.
  - intros H. apply Hid. by right.
Qed.

Lemma calculateTaskStatuses_ids tasks completed :
  ValidatedTask.id <$> calculateTaskStatuses tasks completed
  = ValidatedTask.id <$> tasks.
Proof.
  unfold calculateTaskStatuses. rewrite <- list_fmap_compose.
  apply list_fmap_ext. intros i t _. cbn. by destruct (decide _).
Qed.

(** Under the unique index on [taskId], completing a task leaves every
    other task with status ['error'] as it is. *)
Lemma complete_task_keeps_other_errors taskId coll doc :
  NoDup (ITask.taskId <$> coll) →
  doc ∈ coll → ITask.status doc = TaskStatus.error →
  ITask.taskId doc ≠ taskId →
  doc ∈ (complete_task taskId coll).2.
Proof.
  intros Hnd Hin Hst Hne. unfold complete_task.
  destruct (findOne (byTaskId taskId) coll) as [found|]; [|done]. cbn [snd].
  set (coll1 := findOneAndUpdate (byTaskId taskId)
                  (ITask.with_status TaskStatus.completed) coll).
  assert (Hin1 : doc ∈ coll1).
  { apply findOneAndUpdate_keeps; [done|]. by apply bool_decide_eq_false. }
  assert (Hnd1 : NoDup (ITask.taskId <$> coll1)).
  { unfold coll1. by rewrite findOneAndUpdate_fmap. }
  apply save_statuses_keeps; [done|].
  rewrite calculateTaskStatuses_ids, <- list_fmap_compose.
  intros Hid. apply list_elem_of_fmap in Hid as (t & Hidt & Ht). cbn in Hidt.
  apply list_elem_of_filter in Ht as [[_ Herr] Ht].
  apply list_elem_of_filter in Ht as [_ Ht].
  assert (doc = t); [|by subst].
  apply list_elem_of_lookup in Hin1 as [i Hi]. apply list_elem_of_lookup in Ht as [k Hk].
  assert (i = k); [|congruence].
  eapply NoDup_lookup; [exact Hnd1| |]; rewrite list_lookup_fmap.
  - by rewrite Hi.
  - rewrite Hk. cbn. by rewrite Hidt.
Qed.


(* ===================================================================== *)
(** * Submission and the idempotency gate                                 *)
(* ===================================================================== *)

(** ** The transcripts are only added to *)

Lemma enqueueJob_db j t now s : db (enqueueJob j t now s) = db s.
Proof.
  unfold enqueueJob. cbn [isProcessing]. destruct (isProcessing s); cbn [negb]; [done|].
  unfold processQueue. cbn [isProcessing orb].
  destruct (bool_decide _); [done|].
  unfold loop_head. cbn [jobs processingQueue].
  by destruct (next_job _ _) as [[[? ?] ?]|].
Qed.

Lemma resume_keys a now gen s :
  transcript_keys (transcripts (db (resume a now gen s).1))
  = transcript_keys (transcripts (db s)).
Proof.
  destruct a; cbn -[insertMany]; fold transcript_keys;
    rewrite ?keys_update by apply set_keys; try done.
  - by destruct (findOne _ _).
  - by destruct gen.
  - by destruct (insertMany _ _) as [[?|] ?].
  - unfold loop_head. by destruct (next_job _ _) as [[[? ?] ?]|].
Qed.

Lemma reject_db a message now s : db (reject a message now s).1 = db s.
Proof.
  destruct a; cbn; try done.
  unfold loop_head. by destruct (next_job _ _) as [[[? ?] ?]|].
Qed.

Lemma reject_worker_db w now message s : db (reject_worker w now message s) = db s.
Proof.
  unfold reject_worker. destruct (workers s !! w) as [a|]; [|done].
  pose proof (reject_db a message now s) as H.
  by destruct (reject a message now s) as [s' [a'|]].
Qed.

Lemma keys_step e s :
  ∃ extra, transcript_keys (transcripts (db (step e s)))
           = transcript_keys (transcripts (db s)) ++ extra.
Proof.
  destruct e as [j c h|j t now|i|w now gen|w now message]; cbn [step];
    [| | | |exists []; by rewrite reject_worker_db, app_nil_r].
  - cbn [update_transcripts with_db db transcripts].
    destruct (saveTranscript_keys j c h (transcripts (db s))) as [->|[_ ->]];
      [exists []; by rewrite app_nil_r|by eexists].
  - rewrite enqueueJob_db. exists []. by rewrite app_nil_r.
  - exists []. by rewrite app_nil_r.
  - exists []. rewrite app_nil_r. unfold resume_worker.
    destruct (workers s !! w) as [a|]; [|done].
    pose proof (resume_keys a now gen s) as H.
    by destruct (resume a now gen s) as [s' [a'|]].
Qed.

Lemma keys_run es s :
  ∃ extra, transcript_keys (transcripts (db (run es s)))
           = transcript_keys (transcripts (db s)) ++ extra.
Proof.
  revert s. induction es as [|e es IH]; intros s.
  - exists []. by rewrite app_nil_r.
  - destruct (keys_step e s) as [x1 H1]. destruct (IH (step e s)) as [x2 H2].
    exists (x1 ++ x2). cbn [run foldl].
    change (foldl (λ s e, step e s) ?x ?l) with (run l x).
    by rewrite H2, H1, app_assoc.
Qed.

(** The job id of the first transcript with a given hash. *)
Lemma first_by_hash_keys h coll coll' extra j :
  transcript_keys coll' = transcript_keys coll ++ extra →
  ITranscript.jobId <$> findOne (byContentHash h) coll = Some j →
  ITranscript.jobId <$> findOne (byContentHash h) coll' = Some j.
Proof.
  revert coll'. induction coll as [|tr coll IH]; intros coll' Hk; [done|].
  destruct coll' as [|tr' coll']; [done|].
  unfold transcript_keys in Hk. rewrite !fmap_cons in Hk. cbn [app] in Hk.
  injection Hk as Hj Hh Hk. cbn [findOne]. unfold byContentHash.
  rewrite Hh. destruct (bool_decide _); cbn.
  - by rewrite Hj.
  - by apply IH.
Qed.

Lemma generateJobId_nonempty timestamp randomBytes :
  generateJobId timestamp randomBytes ≠ "".
Proof. done. Qed.

Lemma saveTranscript_inr j c h coll doc coll' :
  saveTranscript j c h coll = (inr doc, coll') →
  coll' = coll ++ [doc] ∧ ITranscript.jobId doc = j ∧
  ITranscript.contentHash doc = h.
Proof.
  unfold saveTranscript. destruct (_ || _); [done|]. destruct (decide _); [done|].
  by intros [= <- <-].
Qed.

Lemma save_step j c h s doc coll :
  saveTranscript j c h (transcripts (db s)) = (inr doc, coll) →
  update_transcripts (λ _, coll) s = step (EvSaveTranscript j c h) s.
Proof. intros H. cbn [step]. unfold update_transcripts. by rewrite H. Qed.

Section SubmitTwice.
Variable sha256 : string → string.
Variable trim : string → string.
Variable toLowerCase : string → string.
Variable characters : string → nat.
Hypothesis trim_idempotent : ∀ s, trim (trim s) = trim s.

Local Abbreviation hash := (generateContentHash sha256 trim toLowerCase).
Local Abbreviation post :=
  (post_transcripts sha256 trim toLowerCase characters).

(** A submission that was accepted, and whose [createTranscript] followed
    its [checkDuplicate] with nothing in between, leaves a reachable server
    on which the first transcript with the hash of the content carries the
    returned id. *)
Lemma accepted_submission s body timestamp randomBytes now es2 code jobId dup s1 :
  reachable s →
  post body timestamp randomBytes now [] es2 s = (Accepted code jobId dup, s1) →
  reachable s1 ∧
  ITranscript.jobId
    <$> findOne (byContentHash (hash (trim body))) (transcripts (db s1))
  = Some jobId.
Proof.
  intros Hreach. unfold post_transcripts.
  destruct (_ || _); [done|].
  pose proof (inv_job_ids _ (queue_inv_reachable _ Hreach)) as Hids.
  unfold checkDuplicate. cbn [run foldl].
  assert (Hcreate :
    match createTranscript sha256 trim toLowerCase
            (generateJobId timestamp randomBytes) (trim body)
            (transcripts (db s)) with
    | (inl message, _) =>
        (ServerError (if decide (message = "")
                      then "Failed to submit transcript" else message), s)
    | (inr transcriptDoc, coll) =>
        (Accepted 202 (generateJobId timestamp randomBytes) false,
         enqueueJob (generateJobId timestamp randomBytes)
           (ITranscript.oid transcriptDoc) now
           (run es2 (update_transcripts (λ _, coll) s)))
    end = (Accepted code jobId dup, s1) →
    findOne (byContentHash (hash (trim body))) (transcripts (db s)) = None →
    reachable s1 ∧
    ITranscript.jobId
      <$> findOne (byContentHash (hash (trim body))) (transcripts (db s1))
    = Some jobId).
  { unfold createTranscript.
    destruct (saveTranscript _ _ _ _) as [[message|doc] coll] eqn:Hsave; [done|].
    intros [= <- <- <- <-] Hnone.
    rewrite (save_step _ _ _ _ _ _ Hsave).
    split.
    { apply (reachable_step _ (EvEnqueue _ _ _)). apply reachable_run.
      by apply reachable_step. }
    rewrite enqueueJob_db.
    destruct (keys_run es2 (step (EvSaveTranscript
                (generateJobId timestamp randomBytes) (trim body)
                (hash (trim body))) s)) as [extra Hk].
    eapply first_by_hash_keys; [exact Hk|].
    cbn [step update_transcripts with_db db transcripts].
    rewrite Hsave. cbn [snd].
    apply saveTranscript_inr in Hsave as (-> & Hj & Hh).
    rewrite findOne_app, Hnone. cbn [findOne]. unfold byContentHash at 1.
    rewrite bool_decide_eq_true_2 by done. cbn. by rewrite Hj. }
  destruct (findOne _ _) as [existing|] eqn:Hf; [|intros H; by apply Hcreate].
  destruct (decide (ITranscript.jobId existing ≠ "")) as [Hne|He].
  - intros [= <- <- <- <-]. split; [done|]. by rewrite Hf.
  - exfalso. apply He. apply findOne_Some in Hf as [Hin _].
    rewrite Forall_forall in Hids. by apply Hids.
Qed.

(** Submissions that do not overlap: once a submission was accepted with
    a job id, a later submission whose content is equal after trimming
    and lower-casing, and which passes the validation, is answered with
    200, the same job id and [isDuplicate = true], and leaves the server
    as it is, whatever happened on the server between the two. *)
Lemma later_duplicate_resolves_to_first
    s body1 body2 ts1 rb1 ts2 rb2 now1 now2 code jobId dup s1 es2 es es1' es2' :
  reachable s →
  toLowerCase (trim body1) = toLowerCase (trim body2) →
  trim body2 ≠ "" → 50 ≤ characters (trim body2) →
  post body1 ts1 rb1 now1 [] es2 s = (Accepted code jobId dup, s1) →
  post body2 ts2 rb2 now2 es1' es2' (run es s1)
  = (Accepted 200 jobId true, run es s1).
Proof.
  intros Hreach Heq Hne Hlen Hfirst.
  destruct (accepted_submission _ _ _ _ _ _ _ _ _ _ Hreach Hfirst) as [Hr1 Hj1].
  assert (Hh : hash (trim body2) = hash (trim body1)).
  { unfold generateContentHash. by rewrite !trim_idempotent, Heq. }
  destruct (keys_run es s1) as [extra Hk].
  pose proof (first_by_hash_keys _ _ _ _ _ Hk Hj1) as Hj2.
  pose proof (inv_job_ids _ (queue_inv_reachable _ (reachable_run es _ Hr1)))
    as Hids.
  unfold post_transcripts.
  rewrite bool_decide_eq_false_2 by done.
  rewrite bool_decide_eq_false_2 by lia. cbn [orb].
  unfold checkDuplicate. rewrite Hh.
  destruct (findOne (byContentHash (hash (trim body1)))
              (transcripts (db (run es s1)))) as [existing|] eqn:Hf; [|done].
  cbn in Hj2. injection Hj2 as <-.
  destruct (decide _) as [|He]; [done|].
  exfalso. apply He. apply findOne_Some in Hf as [Hin _].
  rewrite Forall_forall in Hids. by apply Hids.
Qed.
End SubmitTwice.

(** The ASCII instance of [trim] is idempotent. *)
Lemma trimEnd_idempotent s : trimEnd (trimEnd s) = trimEnd s.
Proof.
  induction s as [|a s IH]; [done|]. cbn [trimEnd].
  destruct (is_space a && bool_decide (trimEnd s = EmptyString)) eqn:Hc; [done|].
  cbn [trimEnd]. by rewrite IH, Hc.
Qed.

Lemma trimStart_head s :
  trimStart s = EmptyString ∨
  ∃ a r, trimStart s = String a r ∧ is_space a = false.
Proof.
  induction s as [|a s IH]; [by left|]. cbn [trimStart].
  destruct (is_space a) eqn:Ha; [done|]. right. by exists a, s.
Qed.

Lemma ascii_trim_idempotent s : ascii_trim (ascii_trim s) = ascii_trim s.
Proof.
  unfold ascii_trim. destruct (trimStart_head s) as [->|(a & r & -> & Ha)]; [done|].
  cbn [trimEnd]. rewrite Ha. cbn [andb trimStart]. rewrite Ha.
  cbn [trimEnd]. by rewrite Ha, trimEnd_idempotent.
Qed.

(** C7. Two submissions whose contents are equal after trimming and
    lower-casing, the second arriving while the first is suspended between
    its [checkDuplicate] and its [createTranscript]: both queries find no
    transcript, so both submissions are answered with 202 and
    [isDuplicate = false], under two different job ids; two transcripts
    with the same content hash are stored, both jobs are enqueued, the
    generator is called for both and two task batches are stored. The
    same second submission, made after the first one has stored its
    transcript, is answered with 200, the job id of the first and
    [isDuplicate = true], and changes nothing. *)
Theorem overlapping_duplicates_are_both_accepted :
  let post :=
    post_transcripts digest_model ascii_trim ascii_toLowerCase String.length in
  let hash := generateContentHash digest_model ascii_trim ascii_toLowerCase in
  let first_steps :=
    [EvSaveTranscript "job_t1_r1" (ascii_trim first_body)
       (hash (ascii_trim first_body));
     EvEnqueue "job_t1_r1" 0 1%Z] in
  let p1 := post first_body "t1" "r1" 1%Z [] [] initial_server in
  let p2 := post second_body "t2" "r2" 2%Z first_steps [] initial_server in
  let first_job :=
    resumes [(3, Extracted []); (4, Extracted []); (5, Extracted scenario_batch);
             (6, Extracted []); (7, Extracted []); (8, Extracted [])]%Z in
  let second_job :=
    resumes [(9, Extracted []); (10, Extracted [])]%Z in
  let s2 := run (first_job ++ second_job) p2.2 in
  ascii_toLowerCase (ascii_trim first_body)
  = ascii_toLowerCase (ascii_trim second_body) ∧
  p1 = (Accepted 202 "job_t1_r1" false, run first_steps initial_server) ∧
  p2.1 = Accepted 202 "job_t2_r2" false ∧
  ITranscript.jobId <$> transcripts (db p2.2) = ["job_t1_r1"; "job_t2_r2"] ∧
  ITranscript.contentHash <$> transcripts (db p2.2)
  = [hash (ascii_trim first_body); hash (ascii_trim first_body)] ∧
  enqueuedLog p2.2 = ["job_t1_r1"; "job_t2_r2"] ∧
  startedLog s2 = ["job_t1_r1"; "job_t2_r2"] ∧
  workers s2
  = [AwaitExtract 1 8
       (ITranscript.mk 1 "job_t2_r2" (ascii_trim second_body)
          (hash (ascii_trim first_body)) JobStatus.processing None None)] ∧
  ITask.transcriptId
    <$> tasks (db (run (resumes [(11, Extracted [task "D" []]);
                                 (12, Extracted [])]%Z) s2))
  = [0; 0; 0; 1] ∧
  post second_body "t2" "r2" 2%Z [] [] p1.2
  = (Accepted 200 "job_t1_r1" true, p1.2).
Proof.
  intros post hash first_steps p1 p2 first_job second_job s2.
  split_and!; vm_compute; reflexivity.
Qed.

Lemma one_job_at_a_time_in_order_witness :
  reachable busy_server ∧
  length (workers busy_server) ≤ 1 ∧
  startedLog busy_server ++ nonempty_ids (processingQueue busy_server)
  = nonempty_ids (enqueuedLog busy_server) ∧
  (startedLog busy_server, processingQueue busy_server, enqueuedLog busy_server)
  = (["job_1"], ["job_2"], ["job_1"; "job_2"]).
Proof.
  assert (Hreach : reachable busy_server).
  { unfold busy_server, run. cbn [foldl].
    repeat apply reachable_step. apply reachable_init. }
  destruct (one_job_at_a_time_in_order busy_server Hreach)
    as (Hone & _ & Hfifo & _).
  split_and!; [exact Hreach|exact Hone|exact Hfifo|vm_compute; reflexivity].
Defined.


(* ===================================================================== *)
(** * The services beyond the pipeline: their properties                  *)
(* ===================================================================== *)

(** ** The scenario states are reachable *)

Lemma finished_server_reachable : reachable finished_server.
Proof.
  unfold finished_server, one_transcript, one_job, run. cbn [foldl].
  repeat apply reachable_step. apply reachable_init.
Qed.

Lemma busy_server_reachable : reachable busy_server.
Proof.
  unfold busy_server, run. cbn [foldl].
  repeat apply reachable_step. apply reachable_init.
Qed.

Lemma one_transcript_reachable : reachable one_transcript.
Proof. unfold one_transcript. apply reachable_step, reachable_init. Qed.

Lemma awaiting_generator_reachable : reachable awaiting_generator.
Proof.
  unfold awaiting_generator, run. cbn [foldl].
  repeat apply reachable_step. apply reachable_init.
Qed.

(** ** Readiness and sanitization *)

Lemma existsb_unmet (completed : gset string) deps :
  existsb (λ depId, bool_decide (depId ∉ completed)) deps = false
  ↔ ∀ depId, depId ∈ deps → depId ∈ completed.
Proof.
  induction deps as [|d deps IH]; simpl.
  - split; [intros _ x Hx; by apply elem_of_nil in Hx|done].
  - rewrite orb_false_iff, IH, bool_decide_eq_false. split.
    + intros [Hd Hall] x Hx. apply elem_of_cons in Hx as [->|Hx]; [|by apply Hall].
      by apply dec_stable.
    + intros Hall. split; [|intros x Hx; apply Hall; by right].
      intros Hd. apply Hd, Hall. left.
Qed.

(** X1. [calculateTaskStatuses] changes the status of a task and nothing
    else. A task whose status is ['error'] is returned as it is. Every
    other task, whatever its status was, becomes ['ready'] exactly when all
    its dependencies are in the completed set, and ['blocked'] exactly when
    one of them is not. *)
Theorem calculateTaskStatuses_recomputes tasks completed :
  Forall2 (λ t t',
      same_but_status t t' ∧
      (ValidatedTask.status t = TaskStatus.error → t' = t) ∧
      (ValidatedTask.status t ≠ TaskStatus.error →
         (ValidatedTask.status t' = TaskStatus.ready ↔
            ∀ depId, depId ∈ ValidatedTask.dependencies t → depId ∈ completed) ∧
         (ValidatedTask.status t' = TaskStatus.blocked ↔
            ∃ depId, depId ∈ ValidatedTask.dependencies t ∧ depId ∉ completed)))
    tasks (calculateTaskStatuses tasks completed).
Proof.
  unfold calculateTaskStatuses. apply Forall2_fmap_r, Forall_Forall2_diag, Forall_forall.
  intros t _. unfold compose, same_but_status. cbn beta.
  destruct (decide (ValidatedTask.status t = TaskStatus.error)) as [He|He].
  - split; [done|]. split; [done|]. intros Hne. done.
  - split; [done|]. split; [done|]. intros _.
    destruct (existsb _ _) eqn:Hex; cbn.
    + split.
      * split; [done|]. intros Hall. apply existsb_unmet in Hall. congruence.
      * split; [|done]. intros _. apply existsb_exists in Hex as (d & Hd & Hb).
        exists d. split; [by apply list_elem_of_In|].
        by apply bool_decide_eq_true in Hb.
    + pose proof (proj1 (existsb_unmet _ _) Hex) as Hall. split.
      * split; [done|]. done.
      * split; [done|]. intros (d & Hd & Hn). destruct (Hn (Hall d Hd)).
Qed.

(** X2. Readiness is monotone in the completed set: a task that
    [calculateTaskStatuses] returns as ['ready'] for a set of completed ids
    is returned as ['ready'] for every larger set. *)
Theorem calculateTaskStatuses_monotone tasks (completed completed' : gset string) i t :
  completed ⊆ completed' →
  calculateTaskStatuses tasks completed !! i = Some t →
  ValidatedTask.status t = TaskStatus.ready →
  ∃ t', calculateTaskStatuses tasks completed' !! i = Some t' ∧
        ValidatedTask.status t' = TaskStatus.ready.
Proof.
  intros Hsub Hi Hr. unfold calculateTaskStatuses in *.
  rewrite list_lookup_fmap in *.
  destruct (tasks !! i) as [t0|]; [|done]. cbn in *. injection Hi as <-.
  eexists. split; [done|].
  destruct (decide (ValidatedTask.status t0 = TaskStatus.error)) as [He|He]; [done|].
  destruct (existsb _ _) eqn:Hex in Hr; [done|].
  pose proof (proj1 (existsb_unmet _ _) Hex) as Hall.
  assert (Hex' : existsb (λ depId, bool_decide (depId ∉ completed'))
                   (ValidatedTask.dependencies t0) = false).
  { apply existsb_unmet. intros d Hd. apply Hsub. by apply Hall. }
  by rewrite Hex'.
Qed.

Lemma calculateTaskStatuses_monotone_witness :
  let tasks := tasksOf (detectCycles (validateAndSanitizeTasks scenario_batch)) in
  ValidatedTask.dependencies <$> tasks !! 1 = Some ["A"] ∧
  ValidatedTask.status <$> calculateTaskStatuses tasks ∅ !! 1
  = Some TaskStatus.blocked ∧
  ValidatedTask.status <$> calculateTaskStatuses tasks {["A"]} !! 1
  = Some TaskStatus.ready ∧
  ∃ t', calculateTaskStatuses tasks {["A"; "C"]} !! 1 = Some t' ∧
        ValidatedTask.status t' = TaskStatus.ready.
Proof.
  intros tasks. split_and!; [vm_compute; reflexivity..|].
  destruct (calculateTaskStatuses tasks {["A"]} !! 1) as [t|] eqn:Ht;
    [|vm_compute in Ht; discriminate Ht].
  apply (calculateTaskStatuses_monotone tasks {["A"]} {["A"; "C"]} 1 t).
  - set_solver.
  - exact Ht.
  - vm_compute in Ht. injection Ht as <-. reflexivity.
Defined.

(** X3. [calculateTaskStatuses] is idempotent: recomputing the statuses
    of its result with the same completed set changes nothing. *)
Theorem calculateTaskStatuses_idempotent tasks completed :
  calculateTaskStatuses (calculateTaskStatuses tasks completed) completed
  = calculateTaskStatuses tasks completed.
Proof.
  unfold calculateTaskStatuses. rewrite <- list_fmap_compose.
  apply list_fmap_ext. intros i [id d p deps st em sd] _.
  unfold compose, ValidatedTask.with_status. cbn [ValidatedTask.status
    ValidatedTask.dependencies ValidatedTask.id ValidatedTask.description
    ValidatedTask.priority ValidatedTask.errorMessage
    ValidatedTask.sanitizedDependencies].
  destruct (decide (st = TaskStatus.error)) as [He|He].
  - cbn. by rewrite decide_True.
  - destruct (existsb _ deps) eqn:Hex; cbn [ValidatedTask.status
      ValidatedTask.dependencies ValidatedTask.id ValidatedTask.description
      ValidatedTask.priority ValidatedTask.errorMessage
      ValidatedTask.sanitizedDependencies];
      rewrite decide_False by done; by rewrite Hex.
Qed.

(** X4. [validateAndSanitizeTasks] splits the dependencies of each task:
    the kept ones and the removed ones together are the original list, the
    kept ones in their original order; no removed id is the id of a task
    of the batch; and [sanitizedDependencies] is left undefined exactly
    when every dependency of the task is such an id. Id, description and
    priority are kept. *)
Theorem validateAndSanitizeTasks_splits batch :
  Forall2 (λ task out,
      as_TaskOutput out
      = TaskOutput.mk (TaskOutput.id task) (TaskOutput.description task)
          (TaskOutput.priority task) (ValidatedTask.dependencies out) ∧
      ValidatedTask.dependencies out
        ++ default [] (ValidatedTask.sanitizedDependencies out)
      ≡ₚ TaskOutput.dependencies task ∧
      ValidatedTask.dependencies out `sublist_of` TaskOutput.dependencies task ∧
      (∀ depId, depId ∈ default [] (ValidatedTask.sanitizedDependencies out) →
         depId ∉ TaskOutput.id <$> batch) ∧
      (ValidatedTask.sanitizedDependencies out = None ↔
         ∀ depId, depId ∈ TaskOutput.dependencies task →
                  depId ∈ TaskOutput.id <$> batch))
    batch (validateAndSanitizeTasks batch).
Proof.
  unfold validateAndSanitizeTasks.
  apply Forall2_fmap_r, Forall_Forall2_diag, Forall_forall.
  intros t _. unfold compose. cbn.
  set (valid := list_to_set (TaskOutput.id <$> batch) : gset string).
  set (deps := TaskOutput.dependencies t).
  assert (Hperm : filter (λ d, d ∈ valid) deps ++ filter (λ d, d ∉ valid) deps ≡ₚ deps).
  { induction deps as [|d deps IH]; [done|].
    rewrite !filter_cons. destruct (decide (d ∈ valid)).
    - rewrite decide_False by (intros H; by apply H). cbn. by rewrite IH.
    - rewrite decide_True by done. rewrite <- Permutation_middle. by rewrite IH. }
  split_and!.
  - done.
  - destruct (decide (0 < length _)) as [Hl|Hl]; [exact Hperm|].
    assert (Hnil : filter (λ d, d ∉ valid) deps = []).
    { destruct (filter (λ d, d ∉ valid) deps); [done|cbn in Hl; lia]. }
    rewrite Hnil in Hperm. exact Hperm.
  - apply sublist_filter.
  - intros d. destruct (decide (0 < length _)); cbn.
    + intros Hd. apply list_elem_of_filter in Hd as [Hd _].
      intros Hin. apply Hd. by apply elem_of_list_to_set.
    + intros Hd. by apply elem_of_nil in Hd.
  - destruct (decide (0 < length _)) as [Hl|Hl]; cbn.
    + split; [done|]. intros Hall. exfalso.
      destruct (filter (λ d, d ∉ valid) deps) as [|d l] eqn:Hf; [cbn in Hl; lia|].
      assert (Hd : d ∈ filter (λ d, d ∉ valid) deps) by (rewrite Hf; left).
      apply list_elem_of_filter in Hd as [Hd Hin].
      apply Hd. apply elem_of_list_to_set. by apply Hall.
    + split; [|done]. intros _ d Hd.
      destruct (decide (d ∈ valid)) as [Hv|Hv]; [by apply elem_of_list_to_set in Hv|].
      exfalso. apply Hl.
      assert (Hd' : d ∈ filter (λ d, d ∉ valid) deps) by (by apply list_elem_of_filter).
      destruct (filter (λ d, d ∉ valid) deps);
        [by apply elem_of_nil in Hd'|cbn; lia].
Qed.

Lemma filter_filter_same {A} (P : A → Prop) `{∀ x, Decision (P x)} (l : list A) :
  filter P (filter P l) = filter P l.
Proof.
  induction l as [|x l IH]; [done|]. rewrite filter_cons.
  destruct (decide (P x)); [|done]. rewrite filter_cons, decide_True by done.
  by rewrite IH.
Qed.

Lemma filter_filter_not {A} (P : A → Prop) `{∀ x, Decision (P x)} (l : list A) :
  filter (λ x, ¬ P x) (filter P l) = [].
Proof.
  induction l as [|x l IH]; [done|]. rewrite filter_cons.
  destruct (decide (P x)); [|done]. rewrite filter_cons, decide_False by tauto.
  done.
Qed.

(** X5. Sanitizing a sanitized batch changes nothing: the second pass
    returns the same tasks and removes no dependency. *)
Theorem validateAndSanitizeTasks_idempotent batch :
  let once := validateAndSanitizeTasks batch in
  let twice := validateAndSanitizeTasks (as_TaskOutput <$> once) in
  as_TaskOutput <$> twice = as_TaskOutput <$> once ∧
  Forall (λ t, ValidatedTask.sanitizedDependencies t = None) twice.
Proof.
  intros once twice.
  assert (Hids : TaskOutput.id <$> (as_TaskOutput <$> once) = TaskOutput.id <$> batch).
  { rewrite <- list_fmap_compose. unfold once. rewrite <- sanitized_ids.
    by apply list_fmap_ext. }
  unfold twice. unfold validateAndSanitizeTasks at 1. rewrite Hids.
  unfold once, validateAndSanitizeTasks. split.
  - rewrite <- !list_fmap_compose. apply list_fmap_ext. intros i t _.
    unfold compose, as_TaskOutput. cbn. by rewrite filter_filter_same.
  - rewrite <- !list_fmap_compose. apply Forall_fmap, Forall_forall. intros t _.
    unfold compose, as_TaskOutput. cbn.
    rewrite (filter_filter_not (λ d, d ∈ (list_to_set (TaskOutput.id <$> batch) : gset string))).
    done.
Qed.

(** ** What [detectCycles] records *)

Section Marked.
Variable graph : Graph.
Local Abbreviation E := (edge graph).
Local Abbreviation R := (reaches_cycle graph).

Lemma reaches_cycle_edge u v : E u v → R v → R u.
Proof. intros Huv (w & Hvw & Hw). exists w. split; [by eapply rtc_l|done]. Qed.

Lemma reaches_cycle_back u v : E u v → rtc E v u → R u ∧ R v.
Proof.
  intros Huv Hvu.
  assert (Hc : on_cycle graph u) by (eapply tc_rtc_r; [by apply tc_once|done]).
  split; exists u; split; done.
Qed.

Lemma reaches_cycle_key u : R u → u ∈ JsMap.keys graph.
Proof.
  intros (v & Huv & Hv). destruct Huv as [|u w v Huw _].
  - apply tc_inv_l in Hv as (w & Hw & _). by eapply edge_key.
  - by eapply edge_key.
Qed.

Lemma dfs_neighbors_marked rec node ns st b st' :
  (∀ n s b' s', rec n s = Some (b', s') → marked_pre graph s n →
     marked_post graph (recursionStack s) s' b' n) →
  (∀ n, n ∈ ns → E node n) →
  dfs_neighbors rec node ns st = Some (b, st') →
  marked_pre graph st node →
  marked_post graph (recursionStack st ∖ {[node]}) st' b node.
Proof.
  intros Hrec. revert st.
  induction ns as [|n ns IH]; intros st Hns H [Hc Hs]; cbn [dfs_neighbors] in H.
  - injection H as <- <-. split_and!; cbn; [done| |done].
    intros s Hx. by right.
  - assert (Hn : E node n) by (apply Hns; left).
    assert (Hns' : ∀ m, m ∈ ns → E node m) by (intros m Hm; apply Hns; by right).
    destruct (decide (n ∉ visited st)) as [Hv|Hv].
    + destruct (rec n st) as [[b1 s1]|] eqn:Hrn; [|done].
      destruct (Hrec _ _ _ _ Hrn) as (Hc1 & Hs1 & Hb1).
      { split; [done|]. intros s Hx. destruct (Hs s Hx) as [?|Hr]; [by left|].
        right. by eapply rtc_r. }
      destruct b1.
      * injection H as <- <-.
        assert (HRn : R node) by (eapply reaches_cycle_edge; [done|by apply Hb1]).
        split_and!; cbn; [| |done].
        -- intros c Hx. apply elem_of_union in Hx as [Hx|Hx]; [|by apply Hc1].
           by apply elem_of_singleton in Hx as ->.
        -- intros s Hx. destruct (decide (s = node)) as [->|Hne]; [by left|].
           destruct (Hs1 s Hx) as [?|?]; [by left|right; set_solver].
      * destruct (IH s1 Hns' H) as (Hc' & Hs' & Hb').
        { split; [done|]. intros s Hx.
          destruct (Hs1 s Hx) as [?|Hx']; [by left|by apply Hs]. }
        split_and!; [done| |done].
        intros s Hx. destruct (Hs' s Hx) as [?|Hx']; [by left|].
        apply elem_of_difference in Hx' as [Hx1 Hx2].
        destruct (Hs1 s Hx1) as [?|?]; [by left|right; set_solver].
    + destruct (decide (n ∈ recursionStack st)) as [Hr|Hr]; [|by apply IH].
      injection H as <- <-.
      assert (HR : R node ∧ R n).
      { destruct (Hs n Hr) as [HRn|Hback].
        - split; [by eapply reaches_cycle_edge|done].
        - by apply reaches_cycle_back. }
      destruct HR as [HRnode HRn].
      split_and!; cbn; [| |done].
      * intros c Hx. apply elem_of_union in Hx as [Hx|Hx];
          [by apply elem_of_singleton in Hx as ->|].
        apply elem_of_union in Hx as [Hx|Hx]; [|by apply Hc].
        by apply elem_of_singleton in Hx as ->.
      * intros s Hx. destruct (decide (s = node)) as [->|Hne]; [by left|].
        right. set_solver.
Qed.

Lemma dfs_marked fuel node st b st' :
  dfs fuel graph node st = Some (b, st') →
  marked_pre graph st node →
  marked_post graph (recursionStack st) st' b node.
Proof.
  revert node st b st'.
  induction fuel as [|fuel IH]; intros node st b st' H [Hc Hs]; [done|].
  cbn [dfs] in H. eapply dfs_neighbors_marked in H.
  - destruct H as (Hc' & Hs' & Hb'). split_and!; [done| |done].
    intros s Hx. destruct (Hs' s Hx) as [?|Hx']; [by left|].
    right. cbn in Hx'. set_solver.
  - exact IH.
  - done.
  - split; [done|]. cbn. intros s Hx.
    apply elem_of_union in Hx as [Hx|Hx]; [|by apply Hs].
    apply elem_of_singleton in Hx as ->. by right.
Qed.

Lemma detect_loop_marked ks st st' :
  detect_loop graph ks st = Some st' →
  (∀ c, c ∈ cycleNodes st → R c) → (∀ s, s ∈ recursionStack st → R s) →
  ∀ c, c ∈ cycleNodes st' → R c.
Proof.
  revert st. induction ks as [|k ks IH]; intros st H Hc Hs; cbn [detect_loop] in H.
  - by injection H as <-.
  - destruct (decide (k ∉ visited st)); [|by eapply IH].
    destruct (dfs _ graph k st) as [[b s1]|] eqn:Hd; [|done].
    apply dfs_marked in Hd as (Hc1 & Hs1 & _).
    + apply (IH s1 H Hc1). intros s Hx. destruct (Hs1 s Hx); [done|by apply Hs].
    + split; [done|]. intros s Hx. left. by apply Hs.
Qed.

(** The finished nodes stay closed and acyclic, whatever the traversal
    returns. *)
Lemma good_enter node st :
  good graph st → node ∉ visited st → good graph (enter node st).
Proof.
  intros (Hsub & Hcl & Hac) Hn.
  assert (Hold : ∀ u, finished (enter node st) u → finished st u).
  { intros u [Hu1 Hu2]. cbn in *. split; set_solver. }
  split_and!; cbn.
  - set_solver.
  - intros u v Hu Huv. destruct (Hcl u v (Hold u Hu) Huv) as [Hv1 Hv2].
    split; cbn; [set_solver|].
    intros Hv. apply elem_of_union in Hv as [Hv|Hv]; [|done].
    by apply elem_of_singleton in Hv as ->.
  - intros u Hu. apply Hac. by apply Hold.
Qed.

Lemma good_add_cycle node st : good graph st → good graph (add_cycle node st).
Proof. done. Qed.

Lemma dfs_neighbors_good fuel node ns st st' :
  (∀ n s b s', dfs fuel graph n s = Some (b, s') → n ∉ visited s →
     good graph s → good graph s') →
  dfs_neighbors (dfs fuel graph) node ns st = Some (true, st') →
  good graph st → good graph st'.
Proof.
  intros Hrec. revert st.
  induction ns as [|n ns IH]; intros st H Hg; cbn [dfs_neighbors] in H; [done|].
  destruct (decide (n ∉ visited st)) as [Hv|Hv].
  - destruct (dfs fuel graph n st) as [[b1 s1]|] eqn:Hrn; [|done].
    pose proof (Hrec _ _ _ _ Hrn Hv Hg) as Hg1.
    destruct b1; [by injection H as <-|by apply (IH s1)].
  - destruct (decide (n ∈ recursionStack st)); [by injection H as <-|by apply (IH st)].
Qed.

Lemma dfs_good fuel node st b st' :
  dfs fuel graph node st = Some (b, st') →
  node ∉ visited st → good graph st → good graph st'.
Proof.
  revert node st b st'.
  induction fuel as [|fuel IH]; intros node st b st' H Hn Hg; [done|].
  destruct b.
  - cbn [dfs] in H. eapply dfs_neighbors_good; [exact IH|exact H|].
    by apply good_enter.
  - by apply dfs_false in H as (_ & _ & ? & _).
Qed.

Lemma detect_loop_good ks st st' :
  detect_loop graph ks st = Some st' → good graph st → good graph st'.
Proof.
  revert st. induction ks as [|k ks IH]; intros st H Hg; cbn [detect_loop] in H.
  - by injection H as <-.
  - destruct (decide (k ∉ visited st)); [|by eapply IH].
    destruct (dfs _ graph k st) as [[b s1]|] eqn:Hd; [|done].
    apply (IH s1 H). by eapply dfs_good.
Qed.
End Marked.

Lemma cycleNodes_are_keys tasks u :
  u ∈ cycleNodesOf (detectCycles tasks) → u ∈ JsMap.keys (buildGraph tasks).
Proof.
  destruct (detectCycles_total tasks) as (st & Hst & -> & _). cbn.
  unfold detect_state in Hst. intros Hu. apply reaches_cycle_key.
  eapply detect_loop_marked; [exact Hst| | |done]; cbn; set_solver.
Qed.

(** X6. The ids that [detectCycles] records in [cycleNodes] are exactly
    the graph nodes from which a directed cycle can be reached along
    dependency edges: the members of the cycles and every task that
    depends on one of them, directly or through other tasks. *)
Theorem detectCycles_marks_what_reaches_a_cycle tasks u :
  u ∈ cycleNodesOf (detectCycles tasks) ↔
  u ∈ JsMap.keys (buildGraph tasks) ∧ reaches_cycle (buildGraph tasks) u.
Proof.
  destruct (detectCycles_total tasks) as (st & Hst & -> & _). cbn.
  unfold detect_state in Hst. split.
  - intros Hu.
    assert (HR : reaches_cycle (buildGraph tasks) u).
    { eapply detect_loop_marked; [exact Hst| | |done]; cbn; set_solver. }
    split; [by apply reaches_cycle_key|done].
  - intros [Hk (v & Huv & Hv)].
    destruct (decide (u ∈ cycleNodes st)) as [|Hu]; [done|exfalso].
    pose proof (detect_loop_marks _ _ _ _ Hst) as ((Hsub & Hcs & Hcl) & HR & _ & Hks).
    { split_and!; cbn; [set_solver|set_solver|]. intros x y [Hx _]. set_solver. }
    { cbn. set_solver. }
    assert (Hg : good (buildGraph tasks) st).
    { eapply detect_loop_good; [exact Hst|].
      split_and!; cbn; [set_solver| |]; intros x; unfold finished; cbn; set_solver. }
    assert (Hfu : finished st u) by (split; [by apply Hks|set_solver]).
    destruct Hg as (Hg1 & Hg2 & Hac).
    apply (Hac v); [|done].
    eapply finished_rtc; [|exact Hfu|exact Huv]. done.
Qed.

(** ** The entries of the graph *)

Lemma JsMap_keys_set {V} k (v : V) m :
  JsMap.keys (JsMap.set k v m)
  = if decide (k ∈ JsMap.keys m) then JsMap.keys m else JsMap.keys m ++ [k].
Proof.
  unfold JsMap.keys. induction m as [|[k' v'] m IH]; cbn.
  - rewrite decide_False; [done|]. intros H. by apply elem_of_nil in H.
  - destruct (decide (k' = k)) as [->|Hne]; cbn.
    + rewrite decide_True; [done|left].
    + rewrite IH. destruct (decide (k ∈ m.*1)) as [Hin|Hin].
      * rewrite decide_True; [done|by right].
      * rewrite decide_False; [done|].
        intros H. apply elem_of_cons in H as [->|H]; done.
Qed.

Lemma buildGraph_snoc tasks t :
  buildGraph (tasks ++ [t])
  = JsMap.set (ValidatedTask.id t) (ValidatedTask.dependencies t)
              (buildGraph tasks).
Proof. unfold buildGraph. by rewrite foldl_app. Qed.

Lemma buildGraph_keys tasks :
  NoDup (JsMap.keys (buildGraph tasks)) ∧
  JsMap.keys (buildGraph tasks) `sublist_of` ValidatedTask.id <$> tasks ∧
  ∀ k, k ∈ JsMap.keys (buildGraph tasks) ↔ k ∈ ValidatedTask.id <$> tasks.
Proof.
  induction tasks as [|t tasks (Hnd & Hsl & Hin)] using rev_ind.
  - split_and!; [apply NoDup_nil_2|done|done].
  - rewrite buildGraph_snoc, JsMap_keys_set, fmap_app. cbn.
    destruct (decide (ValidatedTask.id t ∈ JsMap.keys (buildGraph tasks))) as [Hk|Hk].
    + split_and!; [done|by apply sublist_inserts_r|].
      intros k. rewrite elem_of_app, list_elem_of_singleton, Hin.
      split; [by left|]. intros [?| ->]; [done|by apply Hin].
    + split_and!.
      * apply NoDup_app. split_and!; [done| |apply NoDup_singleton].
        intros x Hx Hx'. by apply list_elem_of_singleton in Hx' as ->.
      * by apply sublist_app.
      * intros k. by rewrite !elem_of_app, Hin.
Qed.

(** X7. [detectCycles] touches the recorded tasks only: a task whose id
    is in [cycleNodes] gets status ['error'] and the circular-dependency
    message, with its other fields kept; every other task is returned as it
    is. [hasCycles] is true exactly when some task of the batch is
    recorded. *)
Theorem detectCycles_changes_marked_tasks_only tasks :
  let r := detectCycles tasks in
  Forall2 (λ t t',
      as_TaskOutput t' = as_TaskOutput t ∧
      ValidatedTask.sanitizedDependencies t'
      = ValidatedTask.sanitizedDependencies t ∧
      (ValidatedTask.id t ∈ cycleNodesOf r →
         ValidatedTask.status t' = TaskStatus.error ∧
         ValidatedTask.errorMessage t' = Some cycle_error_message) ∧
      (ValidatedTask.id t ∉ cycleNodesOf r → t' = t))
    tasks (tasksOf r) ∧
  (hasCycles r = true ↔ ∃ t, t ∈ tasks ∧ ValidatedTask.id t ∈ cycleNodesOf r).
Proof.
  intros r. split.
  - unfold r. destruct (detectCycles_total tasks) as (st & _ & -> & _). cbn.
    apply Forall2_fmap_r, Forall_Forall2_diag, Forall_forall. intros t _.
    unfold mark_cycle, compose. cbn beta.
    destruct (decide (ValidatedTask.id t ∈ cycleNodes st)); split_and!; done.
  - split.
    + intros Hh.
      assert (Hne : cycleNodesOf r ≠ ∅).
      { unfold r in *. destruct (detectCycles_total tasks) as (st & _ & Hr & _).
        rewrite Hr in Hh |- *. cbn in *. apply bool_decide_eq_true in Hh.
        intros Hz. rewrite Hz, size_empty in Hh. lia. }
      apply set_choose_L in Hne as [u Hu]. pose proof Hu as Hu'.
      apply cycleNodes_are_keys in Hu' as Hk.
      apply buildGraph_keys, list_elem_of_fmap in Hk as (t & -> & Ht).
      by exists t.
    + intros (t & _ & Hu). unfold r in *.
      destruct (detectCycles_total tasks) as (st & _ & Hr & _).
      rewrite Hr in Hu |- *. cbn in *. apply bool_decide_eq_true.
      assert (size (cycleNodes st) ≠ 0); [|lia].
      apply size_non_empty_iff. set_solver.
Qed.

Lemma JsMap_get_elem {V} k (v : V) m :
  NoDup (JsMap.keys m) → (k, v) ∈ m → JsMap.get k m = Some v.
Proof.
  unfold JsMap.keys. induction m as [|[k' v'] m IH]; cbn; intros Hnd Hin.
  - by apply elem_of_nil in Hin.
  - apply NoDup_cons in Hnd as [Hk' Hnd].
    apply elem_of_cons in Hin as [[= -> ->]|Hin]; [by rewrite decide_True|].
    rewrite decide_False; [by apply IH|].
    intros ->. apply Hk'. apply list_elem_of_fmap. by exists (k, v).
Qed.

Lemma buildGraph_keys_NoDup tasks :
  NoDup (ValidatedTask.id <$> tasks) →
  JsMap.keys (buildGraph tasks) = ValidatedTask.id <$> tasks.
Proof.
  induction tasks as [|t tasks IH] using rev_ind; [done|].
  rewrite fmap_app. cbn. intros Hnd. apply NoDup_app in Hnd as (Hnd & Hnot & _).
  rewrite buildGraph_snoc, JsMap_keys_set, IH by done.
  rewrite decide_False; [done|].
  intros Hin. apply (Hnot _ Hin). left.
Qed.

(** X8. The graph of [buildGraph] has exactly one entry for each id of
    the batch, its keys being a subsequence of the ids of the batch; the
    entry of an id holds the dependencies of the last task with that id;
    and an id that is not in the batch has no neighbours. *)
Theorem buildGraph_entries tasks :
  let graph := buildGraph tasks in
  NoDup (JsMap.keys graph) ∧
  JsMap.keys graph `sublist_of` ValidatedTask.id <$> tasks ∧
  (∀ k, k ∈ JsMap.keys graph ↔ k ∈ ValidatedTask.id <$> tasks) ∧
  (∀ k, JsMap.get k graph
        = ValidatedTask.dependencies
            <$> last (filter (λ t, ValidatedTask.id t = k) tasks)) ∧
  (∀ k, k ∉ ValidatedTask.id <$> tasks → neighbors graph k = []).
Proof.
  intros graph. destruct (buildGraph_keys tasks) as (H1 & H2 & H3).
  split_and!; [done|done|done|apply buildGraph_get|].
  intros k Hk. unfold neighbors, graph. rewrite buildGraph_get.
  destruct (last _) as [t|] eqn:Hl; [|done]. exfalso. apply Hk.
  apply last_Some in Hl as [l' Hl].
  assert (Ht : t ∈ filter (λ t, ValidatedTask.id t = k) tasks).
  { rewrite Hl. apply elem_of_app. right. left. }
  apply list_elem_of_filter in Ht as [<- Ht]. by apply list_elem_of_fmap_2.
Qed.

Section SortUniverse.
Variable graph : Graph.

Lemma sort_loop_visited ks st order :
  sort_loop graph ks st = Some (Sorted order) →
  sort_good graph st → sortStack st = ∅ →
  (∀ k, k ∈ ks → k ∈ universe graph) → sortVisited st ⊆ universe graph →
  ∀ x, x ∈ order → x ∈ universe graph.
Proof.
  revert st. induction ks as [|k ks IH]; intros st H Hg Hr Hks HV;
    cbn [sort_loop] in H.
  - injection H as <-. intros x Hx. rewrite elem_of_reverse in Hx.
    destruct Hg as (_ & _ & Hres & _). apply Hres in Hx as [Hx _]. set_solver.
  - assert (Hks' : ∀ m, m ∈ ks → m ∈ universe graph)
      by (intros m Hm; apply Hks; by right).
    destruct (decide (k ∉ sortVisited st)) as [Hk|Hk]; [|by eapply IH].
    destruct (dfsSort_enough_fuel graph (dfs_fuel graph) k st)
      as (b & s1 & Hd & HV1 & HU1); [apply Hks; left|done|done| |].
    { pose proof (universe_size graph (sortVisited st)). lia. }
    rewrite Hd in H. destruct b; [|done].
    apply dfsSort_true in Hd as (_ & HR & Hg1 & _); [|done..].
    eapply (IH s1); [done|done|by rewrite HR|done|done].
Qed.
End SortUniverse.

(** X9. [topologicalSort] and [detectCycles] agree: the sort returns
    [null] exactly when [detectCycles] reports a cycle. An order that it
    returns has no repetition, contains every id of the batch, and
    contains nothing but ids of the batch and dependency ids of its
    tasks. *)
Theorem topologicalSort_agrees_with_detectCycles tasks :
  (topologicalSort tasks = Some Null ↔ hasCycles (detectCycles tasks) = true) ∧
  ∀ order, topologicalSort tasks = Some (Sorted order) →
    hasCycles (detectCycles tasks) = false ∧
    NoDup order ∧
    (∀ k, k ∈ ValidatedTask.id <$> tasks → k ∈ order) ∧
    ∀ k, k ∈ order →
      k ∈ ValidatedTask.id <$> tasks ∨
      ∃ t, t ∈ tasks ∧ k ∈ ValidatedTask.dependencies t.
Proof.
  destruct (topologicalSort_spec tasks) as (_ & Hnull & Hsorted).
  split; [by rewrite detectCycles_hasCycles|].
  intros order Ho. destruct (Hsorted order Ho) as (Hnd & Hkeys & _).
  split_and!.
  - destruct (hasCycles (detectCycles tasks)) eqn:Hh; [|done].
    apply detectCycles_hasCycles, Hnull in Hh. congruence.
  - done.
  - intros k Hk. by apply Hkeys, buildGraph_keys.
  - intros k Hk. unfold topologicalSort in Ho.
    eapply sort_loop_visited in Ho; [| | | | |exact Hk].
    + apply elem_of_list_to_set in Ho. unfold graph_nodes in Ho.
      apply elem_of_app in Ho as [Ho|Ho]; [left; by apply buildGraph_keys|].
      right. apply list_elem_of_join in Ho as (ns & Hk' & Hns).
      apply list_elem_of_fmap in Hns as ([u ns'] & -> & Hin). cbn in Hk'.
      assert (He : edge (buildGraph tasks) u k).
      { unfold edge, neighbors.
        rewrite (JsMap_get_elem u ns'); [done|apply buildGraph_keys|done]. }
      apply buildGraph_edge in He as (t & Hl & Hd). exists t. split; [|done].
      apply last_Some in Hl as [l' Hl].
      assert (Ht : t ∈ filter (λ t, ValidatedTask.id t = u) tasks).
      { rewrite Hl. apply elem_of_app. right. left. }
      by apply list_elem_of_filter in Ht as [_ Ht].
    + split_and!; cbn.
      * set_solver.
      * apply NoDup_nil_2.
      * intros u. unfold sort_finished. cbn. set_solver.
      * intros u v [Hu _]. cbn in Hu. set_solver.
      * intros u [Hu _]. cbn in Hu. set_solver.
    + done.
    + apply key_in_universe.
    + cbn. set_solver.
Qed.

(** ** The accessors of the Transcript collection *)

Lemma findOneAndUpdate_None {A} (p : A → bool) (upd : A → A) coll :
  findOne p coll = None → findOneAndUpdate p upd coll = coll.
Proof.
  induction coll as [|d coll IH]; cbn; [done|].
  destruct (p d); [done|]. intros H. by rewrite IH.
Qed.

Lemma findOne_findOneAndUpdate_other {A} (p q : A → bool) (upd : A → A) coll :
  (∀ d, q (upd d) = q d) →
  (∀ d, p d = true → q d = false) →
  findOne q (findOneAndUpdate p upd coll) = findOne q coll.
Proof.
  intros Hq Hpq. induction coll as [|d coll IH]; cbn; [done|].
  destruct (p d) eqn:Hp; cbn.
  - by rewrite Hq, (Hpq d Hp).
  - by rewrite IH.
Qed.

Section Idempotency.
Variable sha256 : string → string.
Variable trim : string → string.
Variable toLowerCase : string → string.

Local Abbreviation hash := (generateContentHash sha256 trim toLowerCase).

Lemma createTranscript_stores jobId content coll doc coll' :
  createTranscript sha256 trim toLowerCase jobId content coll = (inr doc, coll') →
  doc = ITranscript.mk (length coll) jobId content (hash content)
          JobStatus.pending None None ∧
  coll' = coll ++ [doc].
Proof.
  unfold createTranscript, saveTranscript. destruct (_ || _); [done|].
  destruct (decide _); [done|]. by intros [= <- <-].
Qed.

(** X10. [createTranscript] either stores one new transcript or leaves
    the collection as it is. The stored transcript is ['pending'], carries
    the job id and the hash of the content, is what [getTranscriptByJobId]
    then returns for that job id, and makes [checkDuplicate] find a
    transcript for the same content; lookups of other job ids are not
    affected. It fails only when a required field is empty or the job id
    is taken. *)
Theorem createTranscript_then_lookup jobId content coll :
  match createTranscript sha256 trim toLowerCase jobId content coll with
  | (inr doc, coll') =>
      doc = ITranscript.mk (length coll) jobId content (hash content)
              JobStatus.pending None None ∧
      coll' = coll ++ [doc] ∧
      getTranscriptByJobId jobId coll' = Some doc ∧
      (∀ j, j ≠ jobId →
         getTranscriptByJobId j coll' = getTranscriptByJobId j coll) ∧
      is_Some (checkDuplicate sha256 trim toLowerCase content coll')
  | (inl _, coll') =>
      coll' = coll ∧
      (jobId = "" ∨ content = "" ∨ hash content = "" ∨
       is_Some (getTranscriptByJobId jobId coll))
  end.
Proof.
  unfold createTranscript, saveTranscript, getTranscriptByJobId.
  destruct (bool_decide (jobId = "")) eqn:Hj; cbn [orb].
  { split; [done|]. left. by apply bool_decide_eq_true in Hj. }
  destruct (bool_decide (content = "")) eqn:Hc; cbn [orb].
  { split; [done|]. right. left. by apply bool_decide_eq_true in Hc. }
  destruct (bool_decide (hash content = "")) eqn:Hh; cbn [orb].
  { split; [done|]. right. right. left. by apply bool_decide_eq_true in Hh. }
  destruct (decide (jobId ∈ ITranscript.jobId <$> coll)) as [Hin|Hin].
  { split; [done|]. do 3 right. apply findOne_is_Some.
    apply list_elem_of_fmap in Hin as (tr & -> & Htr). exists tr.
    split; [done|]. by apply bool_decide_eq_true. }
  assert (Hnone : findOne (byJobId jobId) coll = None).
  { destruct (findOne (byJobId jobId) coll) as [tr|] eqn:Hf; [|done].
    apply findOne_Some in Hf as [Htr Hp]. apply bool_decide_eq_true in Hp.
    exfalso. apply Hin. rewrite <- Hp. by apply list_elem_of_fmap_2. }
  split_and!; [done|done| | |].
  - rewrite findOne_app, Hnone. cbn. unfold byJobId. cbn.
    by rewrite bool_decide_eq_true_2.
  - intros j Hne. rewrite findOne_app. destruct (findOne (byJobId j) coll); [done|].
    cbn. unfold byJobId. cbn. by rewrite bool_decide_eq_false_2.
  - unfold checkDuplicate. rewrite findOne_app.
    destruct (findOne (byContentHash _) coll); [done|]. cbn.
    unfold byContentHash. cbn. by rewrite bool_decide_eq_true_2.
Qed.
End Idempotency.

(** X11. [updateTranscriptStatus] returns [null] and changes nothing
    when no transcript has the job id. Otherwise it returns the updated
    transcript, which is the one stored: its status is the given one, its
    error message is replaced only by a message that is given and not
    empty, and its other fields are kept. The other transcripts, the job
    ids and the content hashes of the collection are unchanged. *)
Theorem updateTranscriptStatus_updates jobId status errorMessage coll :
  let r := updateTranscriptStatus jobId status errorMessage coll in
  match getTranscriptByJobId jobId coll with
  | None => r = (None, coll)
  | Some tr =>
      ∃ tr', r.1 = Some tr' ∧ getTranscriptByJobId jobId r.2 = Some tr' ∧
        ITranscript.status tr' = status ∧
        (∀ message, errorMessage = Some message → message ≠ "" →
           ITranscript.errorMessage tr' = Some message) ∧
        (errorMessage = None ∨ errorMessage = Some "" →
           ITranscript.errorMessage tr' = ITranscript.errorMessage tr) ∧
        (ITranscript.oid tr', ITranscript.jobId tr', ITranscript.content tr',
         ITranscript.contentHash tr', ITranscript.metadata tr')
        = (ITranscript.oid tr, ITranscript.jobId tr, ITranscript.content tr,
           ITranscript.contentHash tr, ITranscript.metadata tr)
  end ∧
  length r.2 = length coll ∧
  transcript_keys r.2 = transcript_keys coll ∧
  ∀ j, j ≠ jobId → getTranscriptByJobId j r.2 = getTranscriptByJobId j coll.
Proof.
  intros r. unfold r, updateTranscriptStatus, getTranscriptByJobId. cbn [fst snd].
  split_and!.
  - destruct (findOne (byJobId jobId) coll) as [tr|] eqn:Hf.
    + exists (status_update status errorMessage tr). split_and!; try done.
      * by apply findOne_findOneAndUpdate.
      * intros message -> Hne. cbn. by rewrite decide_False.
      * intros [->| ->]; [done|]. cbn. done.
    + cbn. by rewrite findOneAndUpdate_None.
  - apply findOneAndUpdate_length.
  - by apply keys_update.
  - intros j Hne. apply findOne_findOneAndUpdate_other; [done|].
    intros d Hd. apply bool_decide_eq_true in Hd. apply bool_decide_eq_false.
    congruence.
Qed.

(** ** The inserts *)

Lemma insert_ordered_spec docs coll :
  ∃ n, (insert_ordered docs coll).2 = coll ++ take n docs ∧
       ((insert_ordered docs coll).1 = None ↔
          NoDup (ITask.taskId <$> docs) ∧
          ∀ doc, doc ∈ docs → ITask.taskId doc ∉ ITask.taskId <$> coll) ∧
       ((insert_ordered docs coll).1 = None → n = length docs) ∧
       (NoDup (ITask.taskId <$> coll) →
        NoDup (ITask.taskId <$> (insert_ordered docs coll).2)).
Proof.
  revert coll. induction docs as [|doc docs IH]; intros coll; cbn [insert_ordered].
  - exists 0. cbn. rewrite app_nil_r. split_and!; try done.
    split; [intros _|done]. split; [apply NoDup_nil_2|].
    intros doc Hd. by apply elem_of_nil in Hd.
  - destruct (decide (ITask.taskId doc ∈ ITask.taskId <$> coll)) as [Hin|Hin].
    + exists 0. cbn. rewrite app_nil_r. split_and!; try done.
      split; [done|]. intros [_ Hall]. exfalso. apply (Hall doc); [left|done].
    + destruct (IH (coll ++ [doc])) as (n & Hn & Hiff & Hlen & Hnd).
      exists (S n). cbn [take]. split_and!.
      * by rewrite Hn, <- app_assoc.
      * rewrite Hiff, fmap_cons, NoDup_cons, fmap_app. cbn. split.
        -- intros [Hnd' Hall]. split_and!; [|done|].
           ++ intros Hd. apply list_elem_of_fmap in Hd as (d & Hid & Hd).
              apply (Hall d Hd). rewrite <- Hid. apply elem_of_app. right. left.
           ++ intros d Hd. apply elem_of_cons in Hd as [->|Hd]; [done|].
              intros Hc. apply (Hall d Hd). apply elem_of_app. by left.
        -- intros [[Hd Hnd'] Hall]. split; [done|].
           intros d Hdin Hc. apply elem_of_app in Hc as [Hc|Hc].
           ++ apply (Hall d); [by right|done].
           ++ apply list_elem_of_singleton in Hc. apply Hd. rewrite <- Hc.
              by apply list_elem_of_fmap_2.
      * intros H. cbn. f_equal. by apply Hlen.
      * intros Hnd0. apply Hnd. rewrite fmap_app. cbn.
        apply NoDup_app. split_and!; [done| |apply NoDup_singleton].
        intros x Hx Hx'. by apply list_elem_of_singleton in Hx' as ->.
Qed.

Lemma forallb_Forall {A} (f : A → bool) l :
  forallb f l = true ↔ Forall (λ x, f x = true) l.
Proof.
  induction l as [|x l IH]; cbn; [by split|].
  rewrite andb_true_iff, Forall_cons, IH. done.
Qed.

Lemma insertMany_spec docs coll :
  ∃ n, (insertMany docs coll).2 = coll ++ take n docs ∧
       ((insertMany docs coll).1 = None ↔
          Forall (λ doc, task_valid doc = true) docs ∧
          NoDup (ITask.taskId <$> docs) ∧
          ∀ doc, doc ∈ docs → ITask.taskId doc ∉ ITask.taskId <$> coll) ∧
       ((insertMany docs coll).1 = None → n = length docs) ∧
       (0 < n → Forall (λ doc, task_valid doc = true) docs) ∧
       (NoDup (ITask.taskId <$> coll) →
        NoDup (ITask.taskId <$> (insertMany docs coll).2)).
Proof.
  unfold insertMany. destruct (forallb task_valid docs) eqn:Hv.
  - apply forallb_Forall in Hv. pose proof Hv as Hvalid.
    destruct (insert_ordered_spec docs coll) as (n & Hn & Hiff & Hlen & Hnd).
    exists n. split_and!; [done| |done|done|done].
    rewrite Hiff. tauto.
  - exists 0. cbn. rewrite app_nil_r. split_and!; [done| |done|lia|done].
    split; [done|]. intros [Hvalid _]. exfalso.
    assert (forallb task_valid docs = true); [|congruence].
    by apply forallb_Forall.
Qed.

(** ** The collections in the states the server can reach *)

Lemma save_statuses_fmap {B} (f : ITask.t → B) updatedTasks coll :
  (∀ st doc, f (ITask.with_status st doc) = f doc) →
  f <$> save_statuses updatedTasks coll = f <$> coll.
Proof.
  intros Hf. unfold save_statuses. revert coll.
  induction updatedTasks as [|t ts IH]; intros coll; cbn [foldl]; [done|].
  rewrite IH. by apply findOneAndUpdate_fmap.
Qed.

Lemma complete_task_fmap {B} (f : ITask.t → B) taskId coll :
  (∀ st doc, f (ITask.with_status st doc) = f doc) →
  f <$> (complete_task taskId coll).2 = f <$> coll.
Proof.
  intros Hf. unfold complete_task.
  destruct (findOne (byTaskId taskId) coll); [|done]. cbn [snd].
  rewrite save_statuses_fmap by done. by apply findOneAndUpdate_fmap.
Qed.

Lemma db_inv_init : db_inv initial_server.
Proof.
  split; cbn; try done; try apply NoDup_nil_2.
  intros a tr Ha. by apply elem_of_nil in Ha.
Qed.

(** The invariant depends on the collections and on the transcripts that
    the activations hold. *)
Lemma db_inv_phase s s' :
  db_inv s →
  ITask.taskId <$> tasks (db s') = ITask.taskId <$> tasks (db s) →
  task_valid <$> tasks (db s') = task_valid <$> tasks (db s) →
  ITask.transcriptId <$> tasks (db s') = ITask.transcriptId <$> tasks (db s) →
  ITranscript.jobId <$> transcripts (db s') = ITranscript.jobId <$> transcripts (db s) →
  ITranscript.oid <$> transcripts (db s') = ITranscript.oid <$> transcripts (db s) →
  (∀ a tr, a ∈ workers s' → held_transcript a = Some tr →
     (∃ a0, a0 ∈ workers s ∧ held_transcript a0 = Some tr) ∨
     tr ∈ transcripts (db s)) →
  db_inv s'.
Proof.
  intros [H1 H2 H3 H4 H5] Hid Hvalid Htid Hjid Hoid Hheld.
  assert (Hlen : length (transcripts (db s')) = length (transcripts (db s))).
  { by rewrite <- (length_fmap ITranscript.oid), Hoid, length_fmap. }
  split.
  - by rewrite Hid.
  - by rewrite Hjid.
  - by rewrite Hoid, Hlen.
  - rewrite Hlen. apply Forall_lookup. intros i doc Hi.
    assert (Hv : (task_valid <$> tasks (db s')) !! i = Some (task_valid doc))
      by (by rewrite list_lookup_fmap, Hi).
    assert (Ht : (ITask.transcriptId <$> tasks (db s')) !! i
                 = Some (ITask.transcriptId doc))
      by (by rewrite list_lookup_fmap, Hi).
    rewrite Hvalid, list_lookup_fmap in Hv. rewrite Htid, list_lookup_fmap in Ht.
    destruct (tasks (db s) !! i) as [doc0|] eqn:Hi0; [|done].
    cbn in Hv, Ht. injection Hv as Hv. injection Ht as Ht.
    rewrite Forall_lookup in H4. destruct (H4 i doc0 Hi0) as [? ?].
    split; congruence.
  - intros a tr Ha Htr. rewrite Hlen.
    destruct (Hheld a tr Ha Htr) as [(a0 & Ha0 & Htr0)|Hin]; [by eapply H5|].
    apply list_elem_of_lookup in Hin as [i Hi].
    assert (Ho : (ITranscript.oid <$> transcripts (db s)) !! i
                 = Some (ITranscript.oid tr))
      by (by rewrite list_lookup_fmap, Hi).
    rewrite H3 in Ho. apply lookup_seq in Ho as [-> ?]. done.
Qed.

Lemma db_inv_save j c h s : db_inv s → db_inv (step (EvSaveTranscript j c h) s).
Proof.
  intros Hinv. cbn [step]. unfold update_transcripts, saveTranscript.
  destruct (_ || _); [by destruct s as [? ? ? ? ? []]|].
  destruct (decide _) as [Hin|Hin]; [by destruct s as [? ? ? ? ? []]|].
  destruct Hinv as [H1 H2 H3 H4 H5]. split; cbn.
  - done.
  - rewrite fmap_app. cbn. apply NoDup_app. split_and!; [done| |apply NoDup_singleton].
    intros x Hx Hx'. by apply list_elem_of_singleton in Hx' as ->.
  - rewrite fmap_app, length_app, H3. cbn. by rewrite seq_app.
  - rewrite length_app. eapply Forall_impl; [exact H4|]. cbn. intros doc [? ?].
    split; [done|lia].
  - intros a tr Ha Htr. rewrite length_app. specialize (H5 a tr Ha Htr). lia.
Qed.

Lemma db_inv_enqueue j t now s : db_inv s → db_inv (enqueueJob j t now s).
Proof.
  intros Hinv. eapply db_inv_phase; [exact Hinv|by rewrite enqueueJob_db..|].
  intros a tr Ha Htr. destruct (enqueueJob_suspends _ _ _ _ _ Ha) as [?|[ref ->]].
  - left. by exists a.
  - done.
Qed.

Lemma db_inv_complete i s : db_inv s → db_inv (step (EvCompleteTask i) s).
Proof.
  intros Hinv. eapply db_inv_phase; [exact Hinv|cbn..|].
  - by apply complete_task_fmap.
  - by apply complete_task_fmap.
  - by apply complete_task_fmap.
  - done.
  - done.
  - intros a tr Ha Htr. left. by exists a.
Qed.

Lemma db_inv_insert s s' tr ts :
  db_inv s → ITranscript.oid tr < length (transcripts (db s)) →
  transcripts (db s') = transcripts (db s) →
  tasks (db s')
  = (insertMany (task_doc (ITranscript.oid tr) <$> ts) (tasks (db s))).2 →
  (∀ a, a ∈ workers s' → held_transcript a = None) →
  db_inv s'.
Proof.
  intros [H1 H2 H3 H4 H5] Hoid Htr Htk Hw.
  destruct (insertMany_spec (task_doc (ITranscript.oid tr) <$> ts) (tasks (db s)))
    as (n & Hn & _ & _ & Hvalid & Hnd).
  split; rewrite ?Htr, ?Htk; try done.
  - by apply Hnd.
  - rewrite Hn. apply Forall_app. split; [done|].
    destruct n as [|n]; [done|]. apply Forall_take.
    specialize (Hvalid ltac:(lia)). apply Forall_fmap.
    rewrite Forall_fmap in Hvalid. eapply Forall_impl; [exact Hvalid|].
    intros t Ht. cbn in *. done.
  - intros a tr' Ha Htr'. rewrite (Hw a Ha) in Htr'. done.
Qed.

Lemma db_inv_resume w now gen s :
  queue_inv s → db_inv s → db_inv (resume_worker w now gen s).
Proof.
  intros Hq Hinv. unfold resume_worker.
  destruct (workers s !! w) as [a|] eqn:Hl; [|done].
  destruct (single_worker _ _ _ Hq Hl) as [-> Hw].
  pose proof (resume_workers a now gen s) as Hrw.
  destruct a; cbn -[loop_head insertMany] in *.
  - cbn; rewrite ?Hw; cbn.
    eapply db_inv_phase; [exact Hinv|cbn; try done..].
    + by apply findOneAndUpdate_fmap.
    + by apply findOneAndUpdate_fmap.
    + intros a tr Ha Htr. apply list_elem_of_singleton in Ha as ->. done.
  - destruct (findOne _ _) as [transcript|] eqn:Hf.
    + cbn; rewrite ?Hw; cbn.
      eapply db_inv_phase; [exact Hinv|cbn; try done..].
      intros a tr Ha Htr. apply list_elem_of_singleton in Ha as ->.
      injection Htr as <-. right. by apply findOne_Some in Hf as [? _].
    + cbn; rewrite ?Hw; cbn.
      eapply db_inv_phase; [exact Hinv|cbn; try done..].
      intros a tr Ha Htr. apply list_elem_of_singleton in Ha as ->. done.
  - destruct gen as [llmTasks|message].
    + cbn; rewrite ?Hw; cbn.
      eapply db_inv_phase; [exact Hinv|cbn; try done..].
      intros a tr Ha Htr. apply list_elem_of_singleton in Ha as ->.
      injection Htr as <-. left. eexists. rewrite Hw. split; [left|done].
    + cbn; rewrite ?Hw; cbn.
      eapply db_inv_phase; [exact Hinv|cbn; try done..].
      intros a tr Ha Htr. apply list_elem_of_singleton in Ha as ->. done.
  - assert (Hoid : ITranscript.oid transcript < length (transcripts (db s))).
    { eapply dbi_held; [done|rewrite Hw; left|done]. }
    destruct (insertMany _ _) as [[message|] coll] eqn:Hins.
    + cbn; rewrite ?Hw; cbn.
      eapply (db_inv_insert s _ transcript (tasksOf cycleResult));
        [done|done|done|cbn; by rewrite Hins|].
      intros a Ha. cbn in Ha. by apply list_elem_of_singleton in Ha as ->.
    + cbn; rewrite ?Hw; cbn.
      eapply (db_inv_insert s _ transcript (tasksOf cycleResult));
        [done|done|done|cbn; by rewrite Hins|].
      intros a Ha. cbn in Ha. by apply list_elem_of_singleton in Ha as ->.
  - cbn; rewrite ?Hw; cbn.
    eapply db_inv_phase; [exact Hinv|cbn; try done..].
    + by apply findOneAndUpdate_fmap.
    + by apply findOneAndUpdate_fmap.
    + intros a tr Ha Htr. apply list_elem_of_singleton in Ha as ->. done.
  - cbn; rewrite ?Hw; cbn.
    eapply db_inv_phase; [exact Hinv|cbn; try done..].
    + by apply findOneAndUpdate_fmap.
    + by apply findOneAndUpdate_fmap.
    + intros a tr Ha Htr. apply list_elem_of_singleton in Ha as ->. done.
  - unfold loop_head in *.
    destruct (next_job _ _) as [[[ref j] q']|]; cbn in *; rewrite ?Hw; cbn.
    + eapply db_inv_phase; [exact Hinv|cbn; try done..].
      intros a tr Ha Htr. apply list_elem_of_singleton in Ha as ->. done.
    + eapply db_inv_phase; [exact Hinv|cbn; try done..].
      intros a tr Ha Htr. by apply elem_of_nil in Ha.
Qed.

Lemma db_inv_reject w now message s :
  queue_inv s → db_inv s → db_inv (reject_worker w now message s).
Proof.
  intros Hq Hinv. unfold reject_worker.
  destruct (workers s !! w) as [a|] eqn:Hl; [|done].
  destruct (single_worker _ _ _ Hq Hl) as [-> Hw].
  pose proof (reject_workers a message now s) as Hrw.
  destruct a; cbn -[loop_head] in *.
  1-6: cbn; rewrite ?Hw; cbn;
       (eapply db_inv_phase; [exact Hinv|cbn; try done..]);
       intros a tr Ha Htr; apply list_elem_of_singleton in Ha as ->; done.
  unfold loop_head in *.
  destruct (next_job _ _) as [[[ref j] q']|]; cbn in *; rewrite ?Hw; cbn.
  - eapply db_inv_phase; [exact Hinv|cbn; try done..].
    intros a tr Ha Htr. apply list_elem_of_singleton in Ha as ->. done.
  - eapply db_inv_phase; [exact Hinv|cbn; try done..].
    intros a tr Ha Htr. by apply elem_of_nil in Ha.
Qed.

Lemma db_inv_step e s : queue_inv s → db_inv s → db_inv (step e s).
Proof.
  intros Hq Hinv. destruct e.
  - by apply db_inv_save.
  - by apply db_inv_enqueue.
  - by apply db_inv_complete.
  - by apply db_inv_resume.
  - by apply db_inv_reject.
Qed.

Lemma db_inv_reachable s : reachable s → db_inv s.
Proof.
  induction 1 as [|s e Hr IH]; [apply db_inv_init|].
  apply db_inv_step; [by apply queue_inv_reachable|done].
Qed.

(** X12. In every state that the server can reach, the task ids of the
    Task collection are pairwise distinct, and so are the job ids of the
    Transcript collection; the [_id] of a transcript is its position; and
    every stored task has a non-empty id, a non-empty description and a
    transcript that exists. *)
Theorem collections_keep_their_indexes s :
  reachable s →
  NoDup (ITask.taskId <$> tasks (db s)) ∧
  NoDup (ITranscript.jobId <$> transcripts (db s)) ∧
  (∀ i tr, transcripts (db s) !! i = Some tr → ITranscript.oid tr = i) ∧
  Forall (λ doc,
      ITask.taskId doc ≠ "" ∧ ITask.description doc ≠ "" ∧
      ∃ tr, transcripts (db s) !! ITask.transcriptId doc = Some tr ∧
            ITranscript.oid tr = ITask.transcriptId doc)
    (tasks (db s)).
Proof.
  intros Hr. destruct (db_inv_reachable s Hr) as [H1 H2 H3 H4 _].
  assert (Hoid : ∀ i tr, transcripts (db s) !! i = Some tr → ITranscript.oid tr = i).
  { intros i tr Hi.
    assert (Ho : (ITranscript.oid <$> transcripts (db s)) !! i
                 = Some (ITranscript.oid tr)) by (by rewrite list_lookup_fmap, Hi).
    rewrite H3 in Ho. by apply lookup_seq in Ho as [-> ?]. }
  split_and!; [done|done|done|].
  eapply Forall_impl; [exact H4|]. cbn. intros doc [Hv Hlt].
  unfold task_valid in Hv. apply andb_true_iff in Hv as [Hv1 Hv2].
  apply bool_decide_eq_true in Hv1, Hv2. split_and!; [done|done|].
  destruct (lookup_lt_is_Some_2 _ _ Hlt) as [tr Htr]. exists tr.
  split; [done|by apply Hoid].
Qed.

Lemma collections_keep_their_indexes_witness :
  length (tasks (db finished_server)) = 3 ∧
  NoDup (ITask.taskId <$> tasks (db finished_server)) ∧
  NoDup (ITranscript.jobId <$> transcripts (db finished_server)) ∧
  (∀ i tr, transcripts (db finished_server) !! i = Some tr →
           ITranscript.oid tr = i) ∧
  Forall (λ doc,
      ITask.taskId doc ≠ "" ∧ ITask.description doc ≠ "" ∧
      ∃ tr, transcripts (db finished_server) !! ITask.transcriptId doc = Some tr ∧
            ITranscript.oid tr = ITask.transcriptId doc)
    (tasks (db finished_server)).
Proof.
  split; [vm_compute; reflexivity|].
  apply (collections_keep_their_indexes finished_server).
  apply finished_server_reachable.
Defined.

(** ** The Job objects in the states the server can reach *)

Lemma next_job_skips (jbs : gmap string nat) q :
  match next_job jbs q with
  | None => ∀ x, x ∈ q → x = "" ∨ jbs !! x = None
  | Some (ref, j, q') =>
      j ≠ "" ∧ jbs !! j = Some ref ∧
      ∀ x, x ∈ q → x = "" ∨ jbs !! x = None ∨ x = j ∨ x ∈ q'
  end.
Proof.
  induction q as [|j q IH]; cbn [next_job].
  - intros x Hx. by apply elem_of_nil in Hx.
  - destruct (decide (j = "")) as [->|Hj].
    + destruct (next_job jbs q) as [[[ref j'] q']|].
      * destruct IH as (? & ? & IH). split_and!; [done..|].
        intros x Hx. apply elem_of_cons in Hx as [->|Hx]; [by left|by apply IH].
      * intros x Hx. apply elem_of_cons in Hx as [->|Hx]; [by left|by apply IH].
    + destruct (jbs !! j) as [ref|] eqn:Hl.
      * split_and!; [done..|]. intros x Hx.
        apply elem_of_cons in Hx as [->|Hx]; [by right; right; left|by do 3 right].
      * destruct (next_job jbs q) as [[[ref j'] q']|].
        -- destruct IH as (? & ? & IH). split_and!; [done..|].
           intros x Hx. apply elem_of_cons in Hx as [->|Hx]; [by right; left|by apply IH].
        -- intros x Hx. apply elem_of_cons in Hx as [->|Hx]; [by right|by apply IH].
Qed.

Lemma jobs_inv_init : jobs_inv initial_server.
Proof.
  split; cbn.
  - by rewrite dom_empty_L.
  - intros j ref job Hj. by rewrite lookup_empty in Hj.
  - intros a ref Ha. by apply elem_of_nil in Ha.
  - intros ref job Hl. by rewrite lookup_nil in Hl.
Qed.

Lemma jobs_inv_phase s s' :
  jobs_inv s →
  jobs s' = jobs s → processingQueue s' = processingQueue s →
  enqueuedLog s' = enqueuedLog s →
  jobId <$> jobObjects s' = jobId <$> jobObjects s →
  (∀ a' ref, a' ∈ workers s' → await_job a' = Some ref →
     ∃ a, a ∈ workers s ∧ await_job a = Some ref) →
  (∀ ref job', jobObjects s' !! ref = Some job' →
     jobObjects s !! ref = Some job' ∨
     (status job' ≠ JobStatus.pending ∧
      ∃ a, a ∈ workers s ∧ await_job a = Some ref)) →
  jobs_inv s'.
Proof.
  intros [H1 H2 H3 H4] Hjobs Hq Hlog Hids Hheld Hobj. split.
  - by rewrite Hjobs, Hlog.
  - intros j ref job Hj Hl Hst Hne. rewrite Hjobs in Hj. rewrite Hq.
    destruct (Hobj _ _ Hl) as [Hl0|[? _]]; [|done]. by eapply H2.
  - intros a' ref Ha' Hr. destruct (Hheld _ _ Ha' Hr) as (a & Ha & Hra).
    rewrite (job_id_of_eq _ _ _ Hids). by eapply H3.
  - intros ref job' Hl Hid. destruct (Hobj _ _ Hl) as [Hl0|[_ (a & Ha & Hra)]].
    + by eapply H4.
    + exfalso. apply (H3 _ _ Ha Hra). unfold job_id_of.
      rewrite <- list_lookup_fmap, <- Hids, list_lookup_fmap, Hl. done.
Qed.

(** The head of the loop of [processQueue]. *)
Lemma jobs_inv_loop_head now s0 :
  (∀ j ref, jobs s0 !! j = Some ref →
     ∃ job, jobObjects s0 !! ref = Some job ∧ jobId job = j) →
  dom (jobs s0) = list_to_set (enqueuedLog s0) →
  (∀ j ref job,
     jobs s0 !! j = Some ref → jobObjects s0 !! ref = Some job →
     status job = JobStatus.pending → j ≠ "" → j ∈ processingQueue s0) →
  (∀ ref job, jobObjects s0 !! ref = Some job → jobId job = "" →
     status job = JobStatus.pending ∧ startTime job = None ∧ endTime job = None) →
  jobs_inv (with_workers (option_list (loop_head now s0).2) (loop_head now s0).1).
Proof.
  intros Hrefs Hdom Hpend Hempty. unfold loop_head.
  pose proof (next_job_skips (jobs s0) (processingQueue s0)) as Hnext.
  destruct (next_job (jobs s0) (processingQueue s0)) as [[[ref j] q']|].
  - destruct Hnext as (Hj & Hl & Hskip).
    destruct (Hrefs _ _ Hl) as (job0 & Hjob0 & Hid0).
    split; cbn.
    + done.
    + intros k r job Hk Hr Hst Hne.
      destruct (decide (ref = r)) as [<-|Hrr].
      { rewrite list_lookup_alter, decide_True, Hjob0 in Hr by done.
        injection Hr as <-. done. }
      rewrite list_lookup_alter_ne in Hr by done.
      pose proof (Hpend _ _ _ Hk Hr Hst Hne) as Hin.
      destruct (Hskip _ Hin) as [?|[Hn|[->|?]]]; [done|congruence| |done].
      congruence.
    + intros a r Ha Hr. apply list_elem_of_singleton in Ha as ->.
      injection Hr as <-. unfold job_id_of. cbn.
      rewrite list_lookup_alter, decide_True, Hjob0 by done. cbn. by rewrite Hid0.
    + intros r job Hr Hid.
      destruct (decide (ref = r)) as [<-|Hrr].
      { rewrite list_lookup_alter, decide_True, Hjob0 in Hr by done.
        injection Hr as <-. cbn in Hid. congruence. }
      rewrite list_lookup_alter_ne in Hr by done. by eapply Hempty.
  - split; cbn.
    + done.
    + intros k r job Hk Hr Hst Hne.
      pose proof (Hpend _ _ _ Hk Hr Hst Hne) as Hin.
      destruct (Hnext _ Hin) as [?|?]; [done|congruence].
    + intros a r Ha. by apply elem_of_nil in Ha.
    + done.
Qed.

Lemma jobs_inv_db s d : jobs_inv s → jobs_inv (with_db d s).
Proof. intros [H1 H2 H3 H4]. by split. Qed.

Lemma jobs_inv_enqueue j t now s :
  queue_inv s → jobs_inv s → jobs_inv (enqueueJob j t now s).
Proof.
  intros Hq [H1 H2 H3 H4]. unfold enqueueJob. cbn [isProcessing].
  set (s1 := mkServer _ _ _ _ _ _ _ _).
  assert (Hdom1 : dom (jobs s1) = list_to_set (enqueuedLog s1)).
  { cbn. rewrite dom_insert_L, list_to_set_app_L, H1. cbn. set_solver. }
  assert (Hrefs1 : ∀ x ref, jobs s1 !! x = Some ref →
            ∃ job, jobObjects s1 !! ref = Some job ∧ jobId job = x).
  { cbn. intros x ref Hx. destruct (decide (j = x)) as [->|Hne].
    - rewrite lookup_insert_eq in Hx. injection Hx as <-.
      eexists. by rewrite lookup_app_r, Nat.sub_diag.
    - rewrite lookup_insert_ne in Hx by done.
      destruct (inv_refs _ Hq _ _ Hx) as (job & Hjob & ?). exists job.
      split; [|done]. by apply lookup_app_l_Some. }
  assert (Hpend1 : ∀ k ref job,
            jobs s1 !! k = Some ref → jobObjects s1 !! ref = Some job →
            status job = JobStatus.pending → k ≠ "" → k ∈ processingQueue s1).
  { cbn. intros k ref job Hk Hr Hst Hne. apply elem_of_app.
    destruct (decide (j = k)) as [->|Hjk]; [right; left|left].
    rewrite lookup_insert_ne in Hk by done.
    destruct (inv_refs _ Hq _ _ Hk) as (job0 & Hjob0 & ?).
    rewrite (lookup_app_l_Some _ _ _ _ Hjob0) in Hr. injection Hr as <-.
    by eapply H2. }
  assert (Hempty1 : ∀ ref job, jobObjects s1 !! ref = Some job → jobId job = "" →
            status job = JobStatus.pending ∧ startTime job = None ∧
            endTime job = None).
  { cbn. intros ref job Hr Hid. apply lookup_app_Some in Hr as [Hr|[_ Hr]].
    - by eapply H4.
    - destruct (ref - length (jobObjects s)); cbn in Hr; [|done].
      by injection Hr as <-. }
  destruct (isProcessing s) eqn:Hip; cbn [negb].
  - split; [done|done| |done].
    cbn. intros a ref Ha Hr. unfold job_id_of. cbn.
    rewrite lookup_app_l by (by eapply inv_held). by eapply H3.
  - pose proof (idle_of_flag _ Hq Hip) as Hw.
    unfold processQueue. cbn [isProcessing orb processingQueue s1].
    rewrite bool_decide_eq_false_2 by (rewrite length_app; cbn; lia).
    set (s1' := mkServer _ _ _ true _ _ _ _).
    pose proof (jobs_inv_loop_head now s1' Hrefs1 Hdom1 Hpend1 Hempty1) as H.
    pose proof (loop_head_workers now s1') as Hlw.
    destruct (loop_head now s1') as [s2 [a|]]; cbn [fst snd option_list] in *.
    + rewrite Hlw. cbn. by rewrite Hw.
    + rewrite <- (with_workers_id s2), Hlw. cbn. by rewrite Hw.
Qed.

Ltac job_same :=
  let ref := fresh "ref" in let job' := fresh "job'" in
  intros ref job' ?; by left.

Ltac job_alter r a :=
  let ref := fresh "ref" in let job' := fresh "job'" in let Hl := fresh "Hl" in
  intros ref job' Hl;
  destruct (decide (r = ref)) as [<-|?];
  [ rewrite list_lookup_alter, decide_True in Hl by done;
    destruct (_ !! r); [|done]; injection Hl as <-;
    right; split; [done|]; exists a; split; [left|done]
  | rewrite list_lookup_alter_ne in Hl by done; by left ].

Lemma jobs_inv_resume w now gen s :
  queue_inv s → jobs_inv s → jobs_inv (resume_worker w now gen s).
Proof.
  intros Hq Hinv. unfold resume_worker.
  destruct (workers s !! w) as [a|] eqn:Hl; [|done].
  destruct (single_worker _ _ _ Hq Hl) as [-> Hw].
  pose proof (resume_workers a now gen s) as Hrw.
  destruct a; cbn -[loop_head insertMany] in *.
  - cbn; rewrite ?Hw; cbn.
    eapply jobs_inv_phase; [exact Hinv|cbn; try done..]; rewrite ?Hw.
    + solve_held.
    + job_same.
  - destruct (findOne _ _) as [transcript|] eqn:Hf.
    + cbn; rewrite ?Hw; cbn.
      eapply jobs_inv_phase; [exact Hinv|cbn; try done..]; rewrite ?Hw.
      * solve_held.
      * job_same.
    + cbn; rewrite ?Hw; cbn.
      eapply jobs_inv_phase; [exact Hinv|cbn; try done..]; rewrite ?Hw.
      * by apply fmap_alter_jobId.
      * solve_held.
      * job_alter job (AwaitFindTranscript job start).
  - destruct gen as [llmTasks|message].
    + cbn; rewrite ?Hw; cbn.
      eapply jobs_inv_phase; [exact Hinv|cbn; try done..]; rewrite ?Hw.
      * solve_held.
      * job_same.
    + cbn; rewrite ?Hw; cbn.
      eapply jobs_inv_phase; [exact Hinv|cbn; try done..]; rewrite ?Hw.
      * by apply fmap_alter_jobId.
      * solve_held.
      * job_alter job (AwaitExtract job start transcript).
  - destruct (insertMany _ _) as [[message|] coll] eqn:Hins.
    + cbn; rewrite ?Hw; cbn.
      eapply jobs_inv_phase; [exact Hinv|cbn; try done..]; rewrite ?Hw.
      * by apply fmap_alter_jobId.
      * solve_held.
      * job_alter job (AwaitInsertMany job start transcript cycleResult).
    + cbn; rewrite ?Hw; cbn.
      eapply jobs_inv_phase; [exact Hinv|cbn; try done..]; rewrite ?Hw.
      * solve_held.
      * job_same.
  - cbn; rewrite ?Hw; cbn.
    eapply jobs_inv_phase; [exact Hinv|cbn; try done..]; rewrite ?Hw.
    + by apply fmap_alter_jobId.
    + solve_held.
    + job_alter job (AwaitMarkCompleted job finish md).
  - cbn; rewrite ?Hw; cbn.
    eapply jobs_inv_phase; [exact Hinv|cbn; try done..]; rewrite ?Hw.
    + solve_held.
    + job_same.
  - pose proof (jobs_inv_loop_head now s) as H.
    destruct Hinv as [H1 H2 H3 H4].
    specialize (H (inv_refs _ Hq) H1 H2 H4).
    destruct (loop_head now s) as [s' [a'|]]; cbn [fst snd option_list] in *;
      rewrite Hrw, Hw; cbn; apply H.
Qed.

Lemma jobs_inv_reject w now message s :
  queue_inv s → jobs_inv s → jobs_inv (reject_worker w now message s).
Proof.
  intros Hq Hinv. unfold reject_worker.
  destruct (workers s !! w) as [a|] eqn:Hl; [|done].
  destruct (single_worker _ _ _ Hq Hl) as [-> Hw].
  pose proof (reject_workers a message now s) as Hrw.
  destruct a; cbn -[loop_head] in *.
  - cbn; rewrite ?Hw; cbn.
    eapply jobs_inv_phase; [exact Hinv|cbn; try done..]; rewrite ?Hw.
    + by apply fmap_alter_jobId.
    + solve_held.
    + job_alter job (AwaitMarkProcessing job start).
  - cbn; rewrite ?Hw; cbn.
    eapply jobs_inv_phase; [exact Hinv|cbn; try done..]; rewrite ?Hw.
    + by apply fmap_alter_jobId.
    + solve_held.
    + job_alter job (AwaitFindTranscript job start).
  - cbn; rewrite ?Hw; cbn.
    eapply jobs_inv_phase; [exact Hinv|cbn; try done..]; rewrite ?Hw.
    + by apply fmap_alter_jobId.
    + solve_held.
    + job_alter job (AwaitExtract job start transcript).
  - cbn; rewrite ?Hw; cbn.
    eapply jobs_inv_phase; [exact Hinv|cbn; try done..]; rewrite ?Hw.
    + by apply fmap_alter_jobId.
    + solve_held.
    + job_alter job (AwaitInsertMany job start transcript cycleResult).
  - cbn; rewrite ?Hw; cbn.
    eapply jobs_inv_phase; [exact Hinv|cbn; try done..]; rewrite ?Hw.
    + by apply fmap_alter_jobId.
    + solve_held.
    + job_alter job (AwaitMarkCompleted job finish md).
  - cbn; rewrite ?Hw; cbn.
    eapply jobs_inv_phase; [exact Hinv|cbn; try done..]; rewrite ?Hw.
    + solve_held.
    + job_same.
  - pose proof (jobs_inv_loop_head now s) as H.
    destruct Hinv as [H1 H2 H3 H4].
    specialize (H (inv_refs _ Hq) H1 H2 H4).
    destruct (loop_head now s) as [s' [a'|]]; cbn [fst snd option_list] in *;
      rewrite Hrw, Hw; cbn; apply H.
Qed.

Lemma jobs_inv_step e s : queue_inv s → jobs_inv s → jobs_inv (step e s).
Proof.
  intros Hq Hinv. destruct e; cbn [step].
  - by apply jobs_inv_db.
  - by apply jobs_inv_enqueue.
  - by apply jobs_inv_db.
  - by apply jobs_inv_resume.
  - by apply jobs_inv_reject.
Qed.

Lemma jobs_inv_reachable s : reachable s → jobs_inv s.
Proof.
  induction 1 as [|s e Hr IH]; [apply jobs_inv_init|].
  apply jobs_inv_step; [by apply queue_inv_reachable|done].
Qed.

(** ** What [getQueueStats] counts *)

Lemma count_job_spec stats job :
  let r := count_job stats job in
  totalJobs r = totalJobs stats ∧
  pendingJobs r
  = pendingJobs stats
    + (if decide (status job = JobStatus.pending) then 1 else 0) ∧
  processingJobs r
  = processingJobs stats
    + (if decide (status job = JobStatus.processing) then 1 else 0) ∧
  pendingJobs r + processingJobs r + completedJobs r + failedJobs r
  = S (pendingJobs stats + processingJobs stats + completedJobs stats
       + failedJobs stats).
Proof.
  unfold count_job.
  destruct (status job); cbn; split_and!; repeat case_decide; try done; lia.
Qed.

Lemma count_fold js stats :
  let r := foldl count_job stats js in
  totalJobs r = totalJobs stats ∧
  pendingJobs r
  = pendingJobs stats + length (filter (λ job, status job = JobStatus.pending) js) ∧
  processingJobs r
  = processingJobs stats
    + length (filter (λ job, status job = JobStatus.processing) js) ∧
  pendingJobs r + processingJobs r + completedJobs r + failedJobs r
  = pendingJobs stats + processingJobs stats + completedJobs stats
    + failedJobs stats + length js.
Proof.
  revert stats. induction js as [|job js IH]; intros stats; cbn [foldl].
  - cbn. split_and!; lia.
  - destruct (IH (count_job stats job)) as (H1 & H2 & H3 & H4).
    destruct (count_job_spec stats job) as (E1 & E2 & E3 & E4).
    cbn zeta in *. rewrite !filter_cons.
    destruct (decide (status job = JobStatus.pending)),
      (decide (status job = JobStatus.processing)); cbn [length];
      split_and!; lia.
Qed.

Lemma omap_length_total {A B} (f : A → option B) l :
  (∀ x, x ∈ l → is_Some (f x)) → length (omap f l) = length l.
Proof.
  induction l as [|x l IH]; intros Hall; cbn; [done|].
  destruct (Hall x) as [y Hy]; [left|]. rewrite Hy. cbn. f_equal.
  apply IH. intros z Hz. apply Hall. by right.
Qed.

Lemma filter_omap_length {A B} (f : A → option B) (P : B → Prop)
    `{∀ y, Decision (P y)} l :
  length (filter P (omap f l))
  = length (filter (λ x, match f x with Some y => P y | None => False end) l).
Proof.
  induction l as [|x l IH]; [done|]. rewrite filter_cons. cbn [omap list_omap].
  destruct (f x) as [y|]; cbn [option_case_dec].
  - rewrite filter_cons. destruct (decide (P y)); cbn [length]; by rewrite IH.
  - done.
Qed.

Lemma filter_at_most_one {A} (P : A → Prop) `{∀ x, Decision (P x)} (l : list A) :
  NoDup l → (∀ x y, x ∈ l → y ∈ l → P x → P y → x = y) →
  length (filter P l) ≤ 1.
Proof.
  intros Hnd Hone.
  assert (Hnd' : NoDup (filter P l)) by (by apply NoDup_filter).
  destruct (filter P l) as [|x [|y l']] eqn:Hf; cbn; [lia|lia|exfalso].
  assert (Hx : x ∈ filter P l) by (rewrite Hf; left).
  assert (Hy : y ∈ filter P l) by (rewrite Hf; right; left).
  apply list_elem_of_filter in Hx as [HPx Hx], Hy as [HPy Hy].
  apply NoDup_cons in Hnd' as [Hxy _]. apply Hxy.
  rewrite (Hone x y Hx Hy HPx HPy). left.
Qed.

(** Two entries of the map with the same Job object are the same entry. *)
Lemma jobs_entries_injective s (e1 e2 : string * nat) :
  queue_inv s →
  e1 ∈ map_to_list (jobs s) → e2 ∈ map_to_list (jobs s) →
  e1.2 = e2.2 → e1 = e2.
Proof.
  intros Hq H1 H2 Heq. destruct e1 as [k1 r1], e2 as [k2 r2]. cbn in Heq. subst.
  apply elem_of_map_to_list in H1, H2.
  destruct (inv_refs _ Hq _ _ H1) as (job1 & Hj1 & Hid1).
  destruct (inv_refs _ Hq _ _ H2) as (job2 & Hj2 & Hid2).
  congruence.
Qed.

(** X13. In every reachable state, [getQueueStats] reports as
    [totalJobs] the number of distinct job ids that were enqueued, which
    is the sum of its four counters; at most one job is counted as
    processing; and when no activation of [processQueue] is suspended,
    none is, and at most one job is counted as pending. *)
Theorem getQueueStats_counts s :
  reachable s →
  let stats := getQueueStats s in
  totalJobs stats = size (list_to_set (enqueuedLog s) : gset string) ∧
  totalJobs stats
  = pendingJobs stats + processingJobs stats + completedJobs stats
    + failedJobs stats ∧
  processingJobs stats ≤ 1 ∧
  (workers s = [] → processingJobs stats = 0 ∧ pendingJobs stats ≤ 1).
Proof.
  intros Hr stats.
  pose proof (queue_inv_reachable _ Hr) as Hq.
  pose proof (jobs_inv_reachable _ Hr) as Hj.
  destruct (count_fold (job_values s) (mkQueueStats (size (jobs s)) 0 0 0 0))
    as (H1 & H2 & H3 & H4).
  fold (getQueueStats s) in H1, H2, H3, H4. fold stats in H1, H2, H3, H4.
  cbn in H1, H2, H3, H4.
  assert (Hlen : length (job_values s) = size (jobs s)).
  { unfold job_values. rewrite omap_length_total.
    - by rewrite length_map_to_list.
    - intros [k r] Hin. apply elem_of_map_to_list in Hin.
      destruct (inv_refs _ Hq _ _ Hin) as (job & Hjob & _). cbn. by rewrite Hjob. }
  assert (Hproc : ∀ st,
    length (filter (λ job, status job = st) (job_values s))
    = length (filter (λ e : string * nat,
                match jobObjects s !! e.2 with
                | Some job => status job = st
                | None => False
                end) (map_to_list (jobs s)))).
  { intros st. unfold job_values.
    apply (filter_omap_length (λ e : string * nat, jobObjects s !! e.2)
             (λ job, status job = st)). }
  split_and!.
  - rewrite H1. rewrite <- (ji_dom _ Hj). by rewrite size_dom.
  - rewrite H1. lia.
  - rewrite H3, Hproc. cbn. apply filter_at_most_one; [apply NoDup_map_to_list|].
    intros e1 e2 He1 He2 HP1 HP2. apply (jobs_entries_injective s); [done..|].
    destruct (jobObjects s !! e1.2) as [job1|] eqn:Hl1; [|done].
    destruct (jobObjects s !! e2.2) as [job2|] eqn:Hl2; [|done].
    destruct (inv_processing _ Hq _ _ Hl1 HP1) as (a1 & Ha1 & Hr1).
    destruct (inv_processing _ Hq _ _ Hl2 HP2) as (a2 & Ha2 & Hr2).
    congruence.
  - intros Hw. split.
    + rewrite H3, Hproc. cbn.
      destruct (filter _ (map_to_list (jobs s))) as [|e l] eqn:Hf; [done|exfalso].
      assert (He : e ∈ filter (λ e : string * nat,
                match jobObjects s !! e.2 with
                | Some job => status job = JobStatus.processing
                | None => False
                end) (map_to_list (jobs s))) by (rewrite Hf; left).
      apply list_elem_of_filter in He as [HP _].
      destruct (jobObjects s !! e.2) as [job|] eqn:Hl; [|done].
      destruct (inv_processing _ Hq _ _ Hl HP) as (a & Ha & _). congruence.
    + rewrite H2, Hproc. cbn. apply filter_at_most_one; [apply NoDup_map_to_list|].
      intros [k1 r1] [k2 r2] He1 He2 HP1 HP2. cbn in HP1, HP2.
      apply elem_of_map_to_list in He1, He2.
      destruct (jobObjects s !! r1) as [job1|] eqn:Hl1; [|done].
      destruct (jobObjects s !! r2) as [job2|] eqn:Hl2; [|done].
      assert (Hk1 : k1 = "").
      { destruct (decide (k1 = "")) as [|Hne]; [done|exfalso].
        pose proof (ji_pending _ Hj _ _ _ He1 Hl1 HP1 Hne) as Hin.
        rewrite (inv_idle _ Hq Hw) in Hin. by apply elem_of_nil in Hin. }
      assert (Hk2 : k2 = "").
      { destruct (decide (k2 = "")) as [|Hne]; [done|exfalso].
        pose proof (ji_pending _ Hj _ _ _ He2 Hl2 HP2 Hne) as Hin.
        rewrite (inv_idle _ Hq Hw) in Hin. by apply elem_of_nil in Hin. }
      subst. congruence.
Qed.

Lemma getQueueStats_counts_witness :
  getQueueStats busy_server = mkQueueStats 2 1 1 0 0 ∧
  totalJobs (getQueueStats busy_server)
  = size (list_to_set (enqueuedLog busy_server) : gset string) ∧
  processingJobs (getQueueStats busy_server) ≤ 1.
Proof.
  split; [vm_compute; reflexivity|].
  destruct (getQueueStats_counts busy_server busy_server_reachable)
    as (Ht & _ & Hp & _).
  split; [exact Ht|exact Hp].
Defined.

(** X14. In every reachable state the Job that [getJobStatus] returns
    for an id carries that id. A Job enqueued under the empty id stays
    ['pending'] and is never started. When no activation of
    [processQueue] is suspended, every Job with a non-empty id is
    ['completed'] or ['failed']. *)
Theorem drained_queue_has_finished_its_jobs s j job :
  reachable s → getJobStatus j s = Some job →
  jobId job = j ∧
  (j = "" →
     status job = JobStatus.pending ∧ startTime job = None ∧
     endTime job = None) ∧
  (j ≠ "" → workers s = [] →
     status job = JobStatus.completed ∨ status job = JobStatus.failed).
Proof.
  intros Hr Hg.
  pose proof (queue_inv_reachable _ Hr) as Hq.
  pose proof (jobs_inv_reachable _ Hr) as Hj.
  unfold getJobStatus in Hg.
  destruct (jobs s !! j) as [ref|] eqn:Hl; [|done]. cbn in Hg.
  destruct (inv_refs _ Hq _ _ Hl) as (job' & Hjob' & Hid).
  rewrite Hjob' in Hg. injection Hg as ->.
  split_and!; [done| |].
  - intros ->. by eapply ji_empty.
  - intros Hne Hw. destruct (status job) eqn:Hst; [exfalso|exfalso|by left|by right].
    + pose proof (ji_pending _ Hj _ _ _ Hl Hjob' Hst Hne) as Hin.
      rewrite (inv_idle _ Hq Hw) in Hin. by apply elem_of_nil in Hin.
    + destruct (inv_processing _ Hq _ _ Hjob' Hst) as (a & Ha & _). congruence.
Qed.

Lemma drained_queue_has_finished_its_jobs_witness :
  workers finished_server = [] ∧
  ∃ job, getJobStatus "job_1" finished_server = Some job ∧
         jobId job = "job_1" ∧
         (status job = JobStatus.completed ∨ status job = JobStatus.failed).
Proof.
  assert (Hw : workers finished_server = []) by (vm_compute; reflexivity).
  split; [exact Hw|].
  destruct (getJobStatus "job_1" finished_server) as [job|] eqn:Hj;
    [|vm_compute in Hj; discriminate Hj].
  exists job. split; [reflexivity|].
  destruct (drained_queue_has_finished_its_jobs finished_server "job_1" job
              finished_server_reachable Hj) as (Hid & _ & Hdone).
  split; [exact Hid|]. apply Hdone; [discriminate|exact Hw].
Defined.

(** X15. After [enqueueJob] the Job of the given id is in the [jobs]
    map with the given transcript. When the queue is idle and the id is
    not empty it is started at once: its status is ['processing'], its
    start time is the time of the call, and the queue is empty again.
    Otherwise it is ['pending']; when the queue is busy the id is
    appended to the queue and the running activation is not disturbed.
    The Jobs of other ids are unchanged. *)
Theorem enqueueJob_registers_the_job j t now s :
  reachable s →
  let s' := enqueueJob j t now s in
  (∃ job, getJobStatus j s' = Some job ∧
     jobId job = j ∧ transcriptId job = t ∧ endTime job = None ∧
     if isProcessing s || bool_decide (j = "")
     then status job = JobStatus.pending ∧ startTime job = None ∧
          workers s' = workers s
     else status job = JobStatus.processing ∧ startTime job = Some now ∧
          workers s' = [AwaitMarkProcessing (length (jobObjects s)) now] ∧
          processingQueue s' = []) ∧
  (isProcessing s = true → processingQueue s' = processingQueue s ++ [j]) ∧
  ∀ j', j' ≠ j → getJobStatus j' s' = getJobStatus j' s.
Proof.
  intros Hr s'. pose proof (queue_inv_reachable _ Hr) as Hq.
  assert (Hother : ∀ j' (objs : list Job),
    j' ≠ j →
    (∀ ref, ref < length (jobObjects s) → objs !! ref = jobObjects s !! ref) →
    (<[j := length (jobObjects s)]> (jobs s) !! j' ≫= (objs !!.))
    = getJobStatus j' s).
  { intros j' objs Hne Hobjs. unfold getJobStatus. rewrite lookup_insert_ne by done.
    destruct (jobs s !! j') as [ref|] eqn:Hl; [|done]. cbn.
    apply Hobjs. destruct (inv_refs _ Hq _ _ Hl) as (job & Hjob & _).
    by eapply lookup_lt_Some. }
  unfold s', enqueueJob. cbn [isProcessing].
  destruct (isProcessing s) eqn:Hip; cbn [negb orb].
  - split_and!; [|done|].
    + eexists. unfold getJobStatus. cbn. rewrite lookup_insert_eq. cbn.
      rewrite lookup_app_r, Nat.sub_diag by done. cbn. done.
    + intros j' Hne. unfold getJobStatus at 1. cbn. apply Hother; [done|].
      intros ref Hlt. by rewrite lookup_app_l.
  - pose proof (idle_of_flag _ Hq Hip) as Hw.
    pose proof (inv_idle _ Hq Hw) as Hqueue.
    unfold processQueue. cbn [isProcessing orb processingQueue].
    rewrite bool_decide_eq_false_2 by (rewrite length_app; cbn; lia).
    unfold loop_head. cbn [jobs processingQueue]. rewrite Hqueue. cbn [app next_job].
    destruct (decide (j = "")) as [->|Hj].
    + rewrite bool_decide_eq_true_2 by done. split_and!; [|done|].
      * eexists. unfold getJobStatus. cbn. rewrite lookup_insert_eq. cbn.
        rewrite lookup_app_r, Nat.sub_diag by done. cbn. by rewrite Hw.
      * intros j' Hne. unfold getJobStatus at 1. cbn. apply Hother; [done|].
        intros ref Hlt. by rewrite lookup_app_l.
    + rewrite bool_decide_eq_false_2 by done. rewrite lookup_insert_eq.
      split_and!; [|done|].
      * eexists. unfold getJobStatus. cbn. rewrite lookup_insert_eq. cbn.
        rewrite list_lookup_alter, decide_True by done.
        rewrite lookup_app_r, Nat.sub_diag by done. cbn. by rewrite Hw.
      * intros j' Hne. unfold getJobStatus at 1. cbn. apply Hother; [done|].
        intros ref Hlt. rewrite list_lookup_alter_ne by lia. by rewrite lookup_app_l.
Qed.

Lemma enqueueJob_registers_the_job_witness :
  ∃ job, getJobStatus "job_1" (enqueueJob "job_1" 0 100%Z one_transcript) = Some job ∧
         jobId job = "job_1" ∧ transcriptId job = 0 ∧ endTime job = None ∧
         status job = JobStatus.processing ∧ startTime job = Some 100%Z.
Proof.
  destruct (enqueueJob_registers_the_job "job_1" 0 100%Z one_transcript
              one_transcript_reachable) as ((job & Hj & Hid & Ht & He & Hs) & _).
  exists job. change (isProcessing one_transcript || bool_decide ("job_1" = ""))
    with false in Hs. cbn iota in Hs. destruct Hs as (Hs & Hst & _).
  split_and!; [exact Hj|exact Hid|exact Ht|exact He|exact Hs|exact Hst].
Defined.

(** ** The success path of a job *)

Lemma detectCycles_length tasks :
  length (tasksOf (detectCycles tasks)) = length tasks.
Proof.
  destruct (detectCycles_total tasks) as (st & _ & -> & _). cbn.
  by rewrite length_fmap.
Qed.

Lemma validateAndSanitizeTasks_length batch :
  length (validateAndSanitizeTasks batch) = length batch.
Proof. unfold validateAndSanitizeTasks. by rewrite length_fmap. Qed.

(** X16. The success path of [processJob]. When the generator returns
    a batch, the job sanitizes it, runs the cycle detection and inserts
    one document per task of the batch. When the insert succeeds, the
    transcript of the job becomes ['completed'] with the metadata
    [taskCount] (the size of the batch), [cyclesDetected] (the result of
    [detectCycles]) and [processingTime] (the time of the insert minus the
    start time), and the Job becomes ['completed'] with that end time,
    whatever requests arrive between the steps. *)
Theorem successful_job_is_recorded s ref start tr batch now :
  reachable s → workers s = [AwaitExtract ref start tr] →
  let cycleResult := detectCycles (validateAndSanitizeTasks batch) in
  let docs := task_doc (ITranscript.oid tr) <$> tasksOf cycleResult in
  let s1 := step (EvResume 0 now (Extracted batch)) s in
  workers s1 = [AwaitInsertMany ref start tr cycleResult] ∧
  length docs = length batch ∧
  ∀ es now2 gen2,
    Forall external es →
    (insertMany docs (tasks (db (run es s1)))).1 = None →
    let s2 := step (EvResume 0 now2 gen2) (run es s1) in
    let md := mkMetadata (length batch) (hasCycles cycleResult) (now2 - start) in
    workers s2 = [AwaitMarkCompleted ref now2 md] ∧
    tasks (db s2) = tasks (db (run es s1)) ++ docs ∧
    ∀ es' now3 gen3,
      Forall external es' →
      let s3 := step (EvResume 0 now3 gen3) (run es' s2) in
      (∃ tr', findOne (byJobId (job_id_of ref s)) (transcripts (db s3)) = Some tr' ∧
              ITranscript.status tr' = JobStatus.completed ∧
              ITranscript.metadata tr' = Some md) ∧
      (∃ job, jobObjects s3 !! ref = Some job ∧
              status job = JobStatus.completed ∧ endTime job = Some now2) ∧
      workers s3 = [AwaitProcessJob] ∧ isProcessing s3 = true.
Proof.
  intros Hreach Hw cycleResult docs s1.
  pose proof (queue_inv_reachable _ Hreach) as Hinv.
  assert (Hinv1 : queue_inv s1) by (by apply queue_inv_step).
  assert (Hs1 : s1 = with_workers [AwaitInsertMany ref start tr cycleResult] s).
  { unfold s1. cbn [step]. by rewrite (resume_worker_single _ _ _ _ Hw). }
  clearbody s1.
  assert (Hw1 : workers s1 = [AwaitInsertMany ref start tr cycleResult])
    by (by rewrite Hs1).
  assert (Hlt : ref < length (jobObjects s)).
  { eapply inv_held; [done|rewrite Hw; left|done]. }
  assert (Hlen : length docs = length batch).
  { unfold docs, cycleResult.
    by rewrite length_fmap, detectCycles_length, validateAndSanitizeTasks_length. }
  split_and!; [done|done|].
  intros es now2 gen2 Hes Hins s2 md.
  assert (Hinv1' : queue_inv (run es s1)) by (by apply queue_inv_run).
  destruct (kept_run es s1 Hinv1) as (Hwk & Hlk & Hjk & Htk); [by rewrite Hw1|done|].
  rewrite Hw1 in Hwk.
  assert (Hid1 : job_id_of ref (run es s1) = job_id_of ref s).
  { rewrite Hjk by (by rewrite Hs1). by rewrite Hs1. }
  destruct (insertMany_spec docs (tasks (db (run es s1))))
    as (n & Hn & _ & Hnlen & _).
  specialize (Hnlen Hins). subst n. rewrite firstn_all in Hn.
  assert (Hs2 : s2 = with_workers [AwaitMarkCompleted ref now2 md]
                  (with_db (mkDb (transcripts (db (run es s1)))
                                 (tasks (db (run es s1)) ++ docs))
                           (run es s1))).
  { unfold s2. cbn [step]. rewrite (resume_worker_single _ _ _ _ Hwk).
    cbn [resume]. fold docs.
    destruct (insertMany docs (tasks (db (run es s1)))) as [[m|] coll];
      [done|]. cbn in Hn. subst coll. cbn [fst snd option_list].
    unfold md. by rewrite Hlen. }
  assert (Hinv2 : queue_inv s2) by (unfold s2; by apply queue_inv_step).
  clearbody s2.
  split_and!; [by rewrite Hs2|by rewrite Hs2|].
  intros es' now3 gen3 Hes' s3.
  assert (Hw2 : workers s2 = [AwaitMarkCompleted ref now2 md]) by (by rewrite Hs2).
  assert (Hinv2' : queue_inv (run es' s2)) by (by apply queue_inv_run).
  destruct (kept_run es' s2 Hinv2) as (Hwk2 & Hlk2 & Hjk2 & Htk2);
    [by rewrite Hw2|done|].
  rewrite Hw2 in Hwk2.
  assert (Hlt2 : ref < length (jobObjects s2)).
  { assert (Hobj1 : jobObjects s1 = jobObjects s) by (by rewrite Hs1).
    rewrite Hs2. cbn. rewrite Hobj1 in Hlk. lia. }
  assert (Hid2 : job_id_of ref (run es' s2) = job_id_of ref s).
  { rewrite Hjk2 by done. rewrite <- Hid1. by rewrite Hs2. }
  assert (Hex : is_Some (findOne (byJobId (job_id_of ref s))
                           (transcripts (db (run es' s2))))).
  { apply Htk2. rewrite Hs2. cbn. apply Htk. rewrite Hs1. cbn.
    eapply inv_found; [done|rewrite Hw; left|done]. }
  destruct Hex as [tr0 Htr0].
  assert (Hs3 : s3 = with_workers [AwaitProcessJob]
                  (update_job ref (job_set_completed now2)
                     (update_transcripts
                        (findOneAndUpdate (byJobId (job_id_of ref s))
                           (set_completed md)) (run es' s2)))).
  { unfold s3. cbn [step]. rewrite (resume_worker_single _ _ _ _ Hwk2).
    cbn [resume fst snd option_list]. by rewrite Hid2. }
  clearbody s3. split_and!.
  - exists (set_completed md tr0). rewrite Hs3. cbn. split; [|done].
    by apply findOne_findOneAndUpdate.
  - rewrite Hs3. cbn. rewrite list_lookup_alter, decide_True by done.
    destruct (lookup_lt_is_Some_2 (jobObjects (run es' s2)) ref) as [job ->]; [lia|].
    by eexists.
  - by rewrite Hs3.
  - rewrite Hs3. cbn. by rewrite (inv_flag _ Hinv2'), Hwk2.
Qed.

Lemma successful_job_is_recorded_witness :
  let tr := ITranscript.mk 0 "job_1" "minutes" "h1" JobStatus.processing
              None None in
  let cycleResult := detectCycles (validateAndSanitizeTasks scenario_batch) in
  let s1 := step (EvResume 0 103%Z (Extracted scenario_batch)) awaiting_generator in
  workers awaiting_generator = [AwaitExtract 0 100%Z tr] ∧
  workers s1 = [AwaitInsertMany 0 100%Z tr cycleResult] ∧
  ∀ now3 gen3,
    ∃ tr', findOne (byJobId "job_1")
             (transcripts
                (db (step (EvResume 0 now3 gen3)
                       (step (EvResume 0 104%Z (Extracted [])) s1))))
           = Some tr' ∧
           ITranscript.status tr' = JobStatus.completed ∧
           ITranscript.metadata tr' = Some (mkMetadata 3 false 4%Z).
Proof.
  intros tr cycleResult s1.
  assert (Hw : workers awaiting_generator = [AwaitExtract 0 100%Z tr])
    by (vm_compute; reflexivity).
  split; [exact Hw|].
  destruct (successful_job_is_recorded awaiting_generator 0 100%Z tr
              scenario_batch 103%Z awaiting_generator_reachable Hw)
    as (Hw1 & _ & Hnext).
  split; [exact Hw1|]. intros now3 gen3.
  destruct (Hnext [] 104%Z (Extracted []) (Forall_nil_2 _)) as (_ & _ & Hlast).
  { vm_compute. reflexivity. }
  destruct (Hlast [] now3 gen3 (Forall_nil_2 _)) as (Htr & _).
  exact Htr.
Defined.

(** ** The complete-task route on a collection with distinct task ids *)


Lemma save_status_taskId u doc : ITask.taskId (save_status u doc) = ITask.taskId doc.
Proof. unfold save_status. by destruct (decide _). Qed.








(** ** The read routes *)

Lemma findByOid_lookup coll oid :
  ITranscript.oid <$> coll = seq 0 (length coll) →
  findByOid oid coll = coll !! oid.
Proof.
  unfold findByOid.
  enough (H : ∀ n, ITranscript.oid <$> coll = seq n (length coll) →
            findOne (λ tr, bool_decide (ITranscript.oid tr = n + oid)) coll
            = coll !! oid) by apply (H 0).
  revert oid. induction coll as [|tr coll IH]; intros id n Hoid; [done|].
  cbn in Hoid. injection Hoid as Ho Hoid. cbn [findOne].
  destruct id as [|id].
  - rewrite bool_decide_eq_true_2 by lia. done.
  - rewrite bool_decide_eq_false_2 by lia.
    etrans; [|apply (IH id (S n) Hoid)].
    by replace (n + S id) with (S n + id) by lia.
Qed.

Section ReadRoutes.
Variable castObjectId : string → option nat.

(** X18. In every reachable state the three read routes agree. For a
    transcript found by its job id and a path parameter that denotes its
    [_id], GET /api/transcripts/:id answers 200 with that transcript and
    its tasks; GET /api/tasks/transcript/:id answers 200 with the same
    tasks and their count; and GET /api/jobs/:jobId returns those tasks
    when the transcript is ['completed'] and none before. Both routes by
    [_id] answer 500 exactly when the path parameter is no [ObjectId];
    GET /api/transcripts/:id answers 404 exactly when the parameter is
    an [ObjectId] that no transcript has. *)
Theorem read_routes_agree s jobId tr id :
  reachable s →
  findOne (byJobId jobId) (transcripts (db s)) = Some tr →
  castObjectId id = Some (ITranscript.oid tr) →
  let mine := filter (λ t, byTranscriptId (ITranscript.oid tr) t) (tasks (db s)) in
  get_transcript castObjectId id (transcripts (db s)) (tasks (db s))
  = Status200 (tr, mine) ∧
  get_tasks_of_transcript castObjectId id (tasks (db s))
  = Status200 (mkTaskList mine (length mine)) ∧
  (∃ snap, get_job jobId (transcripts (db s)) (tasks (db s)) s = Some snap ∧
     snapshotTranscriptId snap = ITranscript.oid tr ∧
     snapshotTasks snap
     = if decide (ITranscript.status tr = JobStatus.completed) then mine else []) ∧
  ∀ id',
    (get_transcript castObjectId id' (transcripts (db s)) (tasks (db s))
     = Status500 ↔ castObjectId id' = None) ∧
    (get_tasks_of_transcript castObjectId id' (tasks (db s))
     = Status500 ↔ castObjectId id' = None) ∧
    (get_transcript castObjectId id' (transcripts (db s)) (tasks (db s))
     = Status404
     ↔ ∃ oid, castObjectId id' = Some oid ∧
              ∀ tr', tr' ∈ transcripts (db s) → ITranscript.oid tr' ≠ oid).
Proof.
  intros Hr Hf Hcast mine. destruct (db_inv_reachable s Hr) as [_ _ Hoid _ _].
  assert (Hpos : ∀ i tr', transcripts (db s) !! i = Some tr' →
                          ITranscript.oid tr' = i).
  { intros i tr' Hi.
    assert (Ho : (ITranscript.oid <$> transcripts (db s)) !! i
                 = Some (ITranscript.oid tr')) by (by rewrite list_lookup_fmap, Hi).
    rewrite Hoid in Ho. apply lookup_seq in Ho as [Ho _]. cbn in Ho. by rewrite Ho. }
  assert (Hid : findByOid (ITranscript.oid tr) (transcripts (db s)) = Some tr).
  { rewrite findByOid_lookup by done.
    apply findOne_Some in Hf as [Hin _]. apply list_elem_of_lookup in Hin as [i Hi].
    by rewrite (Hpos _ _ Hi). }
  split_and!.
  - unfold get_transcript, findById. by rewrite Hcast, Hid.
  - unfold get_tasks_of_transcript. by rewrite Hcast.
  - unfold get_job. rewrite Hf. eexists. split; [done|]. cbn. split; [done|].
    by destruct (decide _).
  - intros id'. unfold get_transcript, get_tasks_of_transcript, findById.
    destruct (castObjectId id') as [oid|];
      [|split_and!; [done|done|split; [done|by intros (? & ? & _)]]].
    rewrite findByOid_lookup by done. split_and!; [by destruct (_ !! oid)|done|].
    destruct (transcripts (db s) !! oid) as [tr'|] eqn:Hl.
    + split; [done|]. intros (? & [= <-] & Hno). exfalso.
      apply (Hno tr'); [by eapply list_elem_of_lookup_2|by apply Hpos].
    + split; [|done]. intros _. exists oid. split; [done|].
      intros tr' Hin Ho. apply list_elem_of_lookup in Hin as [i Hi].
      rewrite <- Ho, (Hpos _ _ Hi), Hi in Hl. done.
Qed.
End ReadRoutes.

Lemma read_routes_agree_witness :
  ∃ tr, findOne (byJobId "job_1") (transcripts (db finished_server)) = Some tr ∧
    get_transcript scenario_castObjectId "65f0a1b2c3d4e5f601234567"
      (transcripts (db finished_server)) (tasks (db finished_server))
    = Status200 (tr, filter (λ t, byTranscriptId (ITranscript.oid tr) t)
                       (tasks (db finished_server))) ∧
    get_transcript scenario_castObjectId "65f0a1b2c3d4e5f601234568"
      (transcripts (db finished_server)) (tasks (db finished_server))
    = Status404 ∧
    get_transcript scenario_castObjectId "abc"
      (transcripts (db finished_server)) (tasks (db finished_server))
    = Status500.
Proof.
  destruct (findOne (byJobId "job_1") (transcripts (db finished_server)))
    as [tr|] eqn:Hf; [|vm_compute in Hf; discriminate Hf].
  exists tr. split; [reflexivity|].
  assert (Hcast : scenario_castObjectId "65f0a1b2c3d4e5f601234567"
                  = Some (ITranscript.oid tr)).
  { vm_compute in Hf. injection Hf as <-. reflexivity. }
  split_and!; [|vm_compute; reflexivity..].
  exact (proj1 (read_routes_agree scenario_castObjectId finished_server "job_1" tr
                  "65f0a1b2c3d4e5f601234567" finished_server_reachable Hf Hcast)).
Defined.

(** ** The complete-task route touches statuses only *)

(** X19. The complete-task route answers 404 exactly when no task has
    the id, and then changes nothing. In all cases it changes no field
    but [status]: no document is added, removed or moved. *)
Theorem complete_task_changes_statuses_only taskId coll :
  ((complete_task taskId coll).1 = None ↔ taskId ∉ ITask.taskId <$> coll) ∧
  ((complete_task taskId coll).1 = None → (complete_task taskId coll).2 = coll) ∧
  ITask.with_status TaskStatus.ready <$> (complete_task taskId coll).2
  = ITask.with_status TaskStatus.ready <$> coll.
Proof.
  split_and!.
  - unfold complete_task.
    destruct (findOne (byTaskId taskId) coll) as [found|] eqn:Hf; cbn.
    + split; [done|]. intros Hn. exfalso. apply Hn.
      apply findOne_Some in Hf as [Hin Hp]. apply bool_decide_eq_true in Hp.
      rewrite <- Hp. by apply list_elem_of_fmap_2.
    + split; [|done]. intros _ Hin.
      apply list_elem_of_fmap in Hin as (d & -> & Hd).
      assert (Hs : is_Some (findOne (byTaskId (ITask.taskId d)) coll)).
      { apply findOne_is_Some. exists d. split; [done|]. by apply bool_decide_eq_true. }
      rewrite Hf in Hs. by destruct Hs.
  - unfold complete_task. by destruct (findOne (byTaskId taskId) coll).
  - by apply complete_task_fmap.
Qed.

(** ** Transcripts are kept *)

Lemma findOneAndUpdate_identity p upd coll :
  (∀ tr, transcript_identity (upd tr) = transcript_identity tr) →
  transcript_identity <$> findOneAndUpdate p upd coll = transcript_identity <$> coll.
Proof. apply findOneAndUpdate_fmap. Qed.

Lemma resume_identity a now gen s :
  transcript_identity <$> transcripts (db (resume a now gen s).1)
  = transcript_identity <$> transcripts (db s).
Proof.
  destruct a; cbn -[insertMany];
    rewrite ?findOneAndUpdate_identity by done; try done.
  - by destruct (findOne _ _).
  - by destruct gen.
  - by destruct (insertMany _ _) as [[?|] ?].
  - unfold loop_head. by destruct (next_job _ _) as [[[? ?] ?]|].
Qed.

Lemma identity_step e s :
  ∃ extra, transcript_identity <$> transcripts (db (step e s))
           = (transcript_identity <$> transcripts (db s)) ++ extra.
Proof.
  destruct e as [j c h|j t now|i|w now gen|w now message]; cbn [step];
    [| | | |exists []; by rewrite reject_worker_db, app_nil_r].
  - cbn [update_transcripts with_db db transcripts]. unfold saveTranscript.
    destruct (_ || _); [exists []; by rewrite app_nil_r|].
    destruct (decide _); [exists []; by rewrite app_nil_r|].
    cbn. rewrite fmap_app. by eexists.
  - rewrite enqueueJob_db. exists []. by rewrite app_nil_r.
  - exists []. by rewrite app_nil_r.
  - exists []. rewrite app_nil_r. unfold resume_worker.
    destruct (workers s !! w) as [a|]; [|done].
    pose proof (resume_identity a now gen s) as H.
    by destruct (resume a now gen s) as [s' [a'|]].
Qed.

Lemma identity_run es s :
  ∃ extra, transcript_identity <$> transcripts (db (run es s))
           = (transcript_identity <$> transcripts (db s)) ++ extra.
Proof.
  revert s. induction es as [|e es IH]; intros s.
  - exists []. by rewrite app_nil_r.
  - destruct (identity_step e s) as [x1 H1]. destruct (IH (step e s)) as [x2 H2].
    exists (x1 ++ x2). cbn [run foldl].
    change (foldl (λ s e, step e s) ?x ?l) with (run l x).
    by rewrite H2, H1, app_assoc.
Qed.

Lemma findOne_identity j coll coll' extra tr :
  transcript_identity <$> coll' = (transcript_identity <$> coll) ++ extra →
  findOne (byJobId j) coll = Some tr →
  ∃ tr', findOne (byJobId j) coll' = Some tr' ∧
         transcript_identity tr' = transcript_identity tr.
Proof.
  revert coll'. induction coll as [|d coll IH]; intros coll' Hk; [done|].
  destruct coll' as [|d' coll']; [done|].
  rewrite !fmap_cons in Hk. cbn [app] in Hk. injection Hk as Ho Hj Hc Hh Hk.
  cbn [findOne]. unfold byJobId. rewrite Hj.
  destruct (bool_decide _).
  - intros [= <-]. exists d'. split; [done|]. unfold transcript_identity.
    by rewrite Ho, Hj, Hc, Hh.
  - by apply IH.
Qed.

(** X20. A transcript is kept for good: whatever happens after it was
    stored, the lookup by its job id keeps returning a transcript with the
    same [_id], job id, content and content hash, the job route keeps
    answering for it, and the collection never shrinks. *)
Theorem transcripts_are_kept s es jobId tr :
  getTranscriptByJobId jobId (transcripts (db s)) = Some tr →
  length (transcripts (db s)) ≤ length (transcripts (db (run es s))) ∧
  ∃ tr', getTranscriptByJobId jobId (transcripts (db (run es s))) = Some tr' ∧
         ITranscript.oid tr' = ITranscript.oid tr ∧
         ITranscript.jobId tr' = ITranscript.jobId tr ∧
         ITranscript.content tr' = ITranscript.content tr ∧
         ITranscript.contentHash tr' = ITranscript.contentHash tr ∧
         ∃ snap, get_job jobId (transcripts (db (run es s)))
                   (tasks (db (run es s))) (run es s) = Some snap.
Proof.
  unfold getTranscriptByJobId. intros Hf. destruct (identity_run es s) as [extra Hk].
  split.
  - apply (f_equal length) in Hk. rewrite length_app, !length_fmap in Hk. lia.
  - destruct (findOne_identity _ _ _ _ _ Hk Hf) as (tr' & Hf' & Hid).
    injection Hid as Ho Hj Hc Hh. exists tr'. split_and!; try done.
    unfold get_job. rewrite Hf'. by eexists.
Qed.

Lemma transcripts_are_kept_witness :
  ∃ tr', getTranscriptByJobId "job_1" (transcripts (db finished_server)) = Some tr' ∧
         ITranscript.oid tr' = 0 ∧ ITranscript.content tr' = "minutes".
Proof.
  destruct (transcripts_are_kept one_transcript (one_job scenario_batch) "job_1"
              (ITranscript.mk 0 "job_1" "minutes" "h1" JobStatus.pending None None))
    as (_ & tr' & Hf & Ho & _ & Hc & _).
  { vm_compute. reflexivity. }
  exists tr'. split_and!; [exact Hf|exact Ho|exact Hc].
Defined.

(** ** What a submission does to the server *)

Lemma enqueueJob_jobs j t now s :
  jobs (enqueueJob j t now s) = <[j := length (jobObjects s)]> (jobs s).
Proof.
  unfold enqueueJob. cbn [isProcessing]. destruct (isProcessing s); cbn [negb]; [done|].
  unfold processQueue. cbn [isProcessing orb].
  destruct (bool_decide _); [done|].
  unfold loop_head. cbn [jobs processingQueue].
  by destruct (next_job _ _) as [[[? ?] ?]|].
Qed.

Section Submission.
Variable sha256 : string → string.
Variable trim : string → string.
Variable toLowerCase : string → string.
Variable characters : string → nat.

Local Abbreviation hash := (generateContentHash sha256 trim toLowerCase).
Local Abbreviation post :=
  (post_transcripts sha256 trim toLowerCase characters).
Local Abbreviation duplicate := (checkDuplicate sha256 trim toLowerCase).

(** X21. POST /api/transcripts in every reachable state, with the rest of
    the server running while the handler is suspended. The response is
    400 exactly when the trimmed body is empty or has fewer than 50
    characters, and then nothing changes. Otherwise, when the query of
    [checkDuplicate] finds a transcript with the hash of the content, the
    response is 200 with the job id of that transcript and
    [isDuplicate = true], and nothing changes. Otherwise the handler
    generates a job id and saves: when the save fails (the id is taken),
    the response is 500 with a non-empty message and the handler changes
    nothing; when it succeeds, the response is 202 with the generated id
    and [isDuplicate = false], one ['pending'] transcript with the trimmed
    content and its hash is appended, the tasks are left alone, the job is
    enqueued under the generated id, and the transcript is still found by
    that id, with its content and hash, when the handler responds. *)
Theorem post_transcripts_effects body timestamp randomBytes now es1 es2 s :
  reachable s →
  let transcript := trim body in
  let jobId := generateJobId timestamp randomBytes in
  let s1 := run es1 s in
  let response := (post body timestamp randomBytes now es1 es2 s).1 in
  let s' := (post body timestamp randomBytes now es1 es2 s).2 in
  (response = BadRequest ↔ transcript = "" ∨ characters transcript < 50) ∧
  (response = BadRequest → s' = s) ∧
  (transcript ≠ "" → 50 ≤ characters transcript →
   ∀ existing, duplicate transcript (transcripts (db s)) = Some existing →
     response = Accepted 200 (ITranscript.jobId existing) true ∧ s' = s) ∧
  (transcript ≠ "" → 50 ≤ characters transcript →
   duplicate transcript (transcripts (db s)) = None →
   (jobId ∈ ITranscript.jobId <$> transcripts (db s1) ∨ hash transcript = "" →
    ∃ message, message ≠ "" ∧ response = ServerError message ∧ s' = s1) ∧
   (jobId ∉ ITranscript.jobId <$> transcripts (db s1) → hash transcript ≠ "" →
    let doc := ITranscript.mk (length (transcripts (db s1))) jobId transcript
                 (hash transcript) JobStatus.pending None None in
    let saved := step (EvSaveTranscript jobId transcript (hash transcript)) s1 in
    response = Accepted 202 jobId false ∧
    transcripts (db saved) = transcripts (db s1) ++ [doc] ∧
    tasks (db saved) = tasks (db s1) ∧
    s' = enqueueJob jobId (length (transcripts (db s1))) now (run es2 saved) ∧
    enqueuedLog s' = enqueuedLog (run es2 saved) ++ [jobId] ∧
    jobs s' !! jobId = Some (length (jobObjects (run es2 saved))) ∧
    ∃ tr, getTranscriptByJobId jobId (transcripts (db s')) = Some tr ∧
          ITranscript.oid tr = length (transcripts (db s1)) ∧
          ITranscript.content tr = transcript ∧
          ITranscript.contentHash tr = hash transcript)).
Proof.
  intros Hreach transcript jobId s1 response s'.
  pose proof (inv_job_ids _ (queue_inv_reachable _ Hreach)) as Hids.
  unfold response, s', post_transcripts. fold transcript. fold jobId. fold s1.
  (* the second part of the handler *)
  set (create :=
    match createTranscript sha256 trim toLowerCase jobId transcript
            (transcripts (db s1)) with
    | (inl message, _) =>
        (ServerError (if decide (message = "")
                      then "Failed to submit transcript" else message), s1)
    | (inr transcriptDoc, coll) =>
        (Accepted 202 jobId false,
         enqueueJob jobId (ITranscript.oid transcriptDoc) now
           (run es2 (update_transcripts (λ _, coll) s1)))
    end).
  assert (Hnot400 : create.1 ≠ BadRequest).
  { unfold create. by destruct (createTranscript _ _ _ _ _ _) as [[?|?] ?]. }
  assert (Hfail :
    transcript ≠ "" →
    jobId ∈ ITranscript.jobId <$> transcripts (db s1) ∨ hash transcript = "" →
    ∃ message, message ≠ "" ∧ create.1 = ServerError message ∧ create.2 = s1).
  { intros Hne Hor. unfold create, createTranscript, saveTranscript.
    destruct (_ || _) eqn:Hv; [by exists "Transcript validation failed"|].
    destruct (decide _) as [Hin|Hin]; [by exists duplicate_key_message|].
    exfalso. destruct Hor as [?|Hh]; [done|].
    rewrite Hh in Hv. rewrite (bool_decide_eq_true_2 ("" = "")) in Hv by done.
    by rewrite orb_true_r in Hv. }
  assert (Hok :
    transcript ≠ "" →
    jobId ∉ ITranscript.jobId <$> transcripts (db s1) → hash transcript ≠ "" →
    let doc := ITranscript.mk (length (transcripts (db s1))) jobId transcript
                 (hash transcript) JobStatus.pending None None in
    let saved := step (EvSaveTranscript jobId transcript (hash transcript)) s1 in
    create.1 = Accepted 202 jobId false ∧
    transcripts (db saved) = transcripts (db s1) ++ [doc] ∧
    tasks (db saved) = tasks (db s1) ∧
    create.2 = enqueueJob jobId (length (transcripts (db s1))) now (run es2 saved)).
  { intros Hne Hnin Hh doc saved.
    assert (Hsave : saveTranscript jobId transcript (hash transcript)
                      (transcripts (db s1))
                    = (inr doc, transcripts (db s1) ++ [doc])).
    { unfold saveTranscript.
      rewrite (bool_decide_eq_false_2 (jobId = "")) by done.
      rewrite (bool_decide_eq_false_2 (transcript = "")) by done.
      rewrite (bool_decide_eq_false_2 (hash transcript = "")) by done.
      cbn [orb]. by rewrite decide_False by done. }
    unfold saved. rewrite <- (save_step _ _ _ _ _ _ Hsave).
    unfold create, createTranscript. rewrite Hsave.
    cbn [fst snd ITranscript.oid update_transcripts with_db db transcripts tasks].
    split_and!; reflexivity. }
  assert (Hrest :
    transcript ≠ "" →
    (jobId ∈ ITranscript.jobId <$> transcripts (db s1) ∨ hash transcript = "" →
     ∃ message, message ≠ "" ∧ create.1 = ServerError message ∧ create.2 = s1) ∧
    (jobId ∉ ITranscript.jobId <$> transcripts (db s1) → hash transcript ≠ "" →
     let doc := ITranscript.mk (length (transcripts (db s1))) jobId transcript
                  (hash transcript) JobStatus.pending None None in
     let saved := step (EvSaveTranscript jobId transcript (hash transcript)) s1 in
     create.1 = Accepted 202 jobId false ∧
     transcripts (db saved) = transcripts (db s1) ++ [doc] ∧
     tasks (db saved) = tasks (db s1) ∧
     create.2 = enqueueJob jobId (length (transcripts (db s1))) now (run es2 saved) ∧
     enqueuedLog create.2 = enqueuedLog (run es2 saved) ++ [jobId] ∧
     jobs create.2 !! jobId = Some (length (jobObjects (run es2 saved))) ∧
     ∃ tr, getTranscriptByJobId jobId (transcripts (db create.2)) = Some tr ∧
           ITranscript.oid tr = length (transcripts (db s1)) ∧
           ITranscript.content tr = transcript ∧
           ITranscript.contentHash tr = hash transcript)).
  { intros Hne. split; [by apply Hfail|]. intros Hnin Hh doc saved.
    destruct (Hok Hne Hnin Hh) as (H1 & H2 & H3 & H4). fold doc saved in H2, H3, H4.
    split_and!; [done|done|done|done| | |].
    - rewrite H4.
      pose proof (enqueuedLog_step (EvEnqueue jobId (length (transcripts (db s1))) now)
                    (run es2 saved)) as H.
      cbn [step] in H. exact H.
    - rewrite H4, enqueueJob_jobs. by rewrite lookup_insert_eq.
    - rewrite H4, enqueueJob_db. unfold getTranscriptByJobId.
      destruct (identity_run es2 saved) as [extra Hk].
      assert (Hf : findOne (byJobId jobId) (transcripts (db saved)) = Some doc).
      { rewrite H2, findOne_app.
        destruct (findOne (byJobId jobId) (transcripts (db s1))) as [tr|] eqn:Hf.
        - exfalso. apply Hnin. apply findOne_Some in Hf as [Hin Hp].
          apply bool_decide_eq_true in Hp. rewrite <- Hp.
          by apply list_elem_of_fmap_2.
        - cbn. unfold byJobId. cbn. by rewrite bool_decide_eq_true_2. }
      destruct (findOne_identity _ _ _ _ _ Hk Hf) as (tr & Htr & Hid).
      injection Hid as Ho Hj Hc Hhh. by exists tr. }
  destruct (bool_decide (transcript = "")) eqn:He; cbn [orb].
  { apply bool_decide_eq_true in He. cbn [fst snd].
    split_and!; [by split; [left|]|done|done|done]. }
  apply bool_decide_eq_false in He.
  destruct (bool_decide (characters transcript < 50)) eqn:Hl; cbn [orb].
  { apply bool_decide_eq_true in Hl. cbn [fst snd].
    split_and!; [by split; [right|]|done|intros; lia|intros; lia]. }
  apply bool_decide_eq_false in Hl.
  destruct (checkDuplicate _ _ _ _ _) as [existing|] eqn:Hd.
  - assert (Hj : ITranscript.jobId existing ≠ "").
    { apply findOne_Some in Hd as [Hin _]. rewrite Forall_forall in Hids.
      by apply Hids. }
    rewrite decide_True by done. cbn [fst snd]. split_and!.
    + split; [done|]. intros [?|?]; [done|lia].
    + done.
    + by intros _ _ ? [= <-].
    + done.
  - split_and!.
    + split; [done|]. intros [?|?]; [done|lia].
    + done.
    + done.
    + intros _ _ _. by apply Hrest.
Qed.
End Submission.

Lemma post_transcripts_effects_witness :
  let post :=
    post_transcripts digest_model ascii_trim ascii_toLowerCase String.length in
  let p1 := post first_body "t1" "r1" 1%Z [] [] initial_server in
  p1.1 = Accepted 202 "job_t1_r1" false ∧
  enqueuedLog p1.2 = ["job_t1_r1"] ∧
  (post second_body "t2" "r2" 2%Z [] [] p1.2).1
  = Accepted 200 "job_t1_r1" true.
Proof.
  intros post p1.
  destruct (post_transcripts_effects digest_model ascii_trim ascii_toLowerCase
              String.length first_body "t1" "r1" 1%Z [] [] initial_server
              reachable_init) as (_ & _ & _ & Hnew).
  destruct Hnew as [_ Hnew];
    [vm_compute; discriminate|apply Nat.leb_le; vm_compute; reflexivity
    |vm_compute; reflexivity|].
  destruct Hnew as (H202 & _ & _ & Hs & Hlog & _);
    [vm_compute; intros Hin; by apply elem_of_nil in Hin
    |vm_compute; discriminate|].
  split_and!; [exact H202|exact Hlog|vm_compute; reflexivity].
Defined.

(** ** Completing a task twice *)






(** ** The checks on untyped values *)

Lemma JsMap_set_same {V} k (v : V) m :
  JsMap.get k m = Some v → JsMap.set k v m = m.
Proof.
  induction m as [|[k' v'] m IH]; cbn; [done|].
  destruct (decide (k' = k)) as [->|]; [by intros [= ->]|].
  intros H. by rewrite IH.
Qed.

Lemma JsMap_set_set {V} k (v w : V) m :
  JsMap.set k w (JsMap.set k v m) = JsMap.set k w m.
Proof.
  induction m as [|[k' v'] m IH]; cbn.
  - by rewrite decide_True.
  - destruct (decide (k' = k)) as [->|Hne]; cbn.
    + by rewrite decide_True.
    + rewrite decide_False by done. by rewrite IH.
Qed.

Lemma prop_set k k' v props :
  prop (JsObject (JsMap.set k v props)) k'
  = if decide (k = k') then v else prop (JsObject props) k'.
Proof. unfold prop. rewrite JsMap_get_set. by destruct (decide (k = k')). Qed.

Lemma is_priority_truthy v : is_priority v = true → truthy v = true.
Proof.
  destruct v as [| | | |s| |]; cbn; try done.
  intros H. apply negb_true_iff, bool_decide_eq_false. intros ->. done.
Qed.

Section UntypedFacts.
Variable number_toString : SpecFloat.spec_float → string.
Variable cannot_read : JsValue → string → string.
Variable not_a_function : JsValue → string → string.
Variable cannot_convert : JsValue → string.
Variable uuid : nat → string.

Local Abbreviation raising := (raising_task number_toString).

Lemma normalize_task_spec index task :
  match normalize_task cannot_read index task with
  | inr task' =>
      truthy (prop task "description") = true ∧ defaults_filled task task'
  | inl _ => truthy (prop task "description") = false
  end.
Proof.
  unfold normalize_task, read.
  destruct task as [| |b|x|s|items|props]; try done.
  destruct (truthy (prop (JsObject props) "description")) eqn:Hd; [|done].
  split; [done|].
  set (p := prop (JsObject props) "priority").
  assert (Hp : negb (truthy p) || negb (is_priority p) = negb (is_priority p)).
  { destruct (is_priority p) eqn:Hi; [|by destruct (truthy p)].
    by rewrite (is_priority_truthy _ Hi). }
  rewrite Hp. clear Hp.
  set (props1 := if negb (is_priority p) then _ else _).
  assert (H1 : ∀ key, key ≠ "priority" →
                      prop (JsObject props1) key = prop (JsObject props) key).
  { intros key Hk. unfold props1. destruct (negb _); [|done].
    rewrite prop_set. by rewrite decide_False. }
  assert (H1p : prop (JsObject props1) "priority"
                = if is_priority p then p else JsString "medium").
  { unfold props1. destruct (is_priority p); cbn [negb]; [done|].
    rewrite prop_set. by rewrite decide_True. }
  clearbody props1.
  set (d := prop (JsObject props1) "dependencies").
  assert (Hdd : d = prop (JsObject props) "dependencies") by (by apply H1).
  set (props2 := if negb (isArray d) then _ else _).
  assert (H2 : ∀ key, key ≠ "dependencies" →
                      prop (JsObject props2) key = prop (JsObject props1) key).
  { intros key Hk. unfold props2. destruct (negb _); [|done].
    rewrite prop_set. by rewrite decide_False. }
  assert (H2d : prop (JsObject props2) "dependencies"
                = if isArray d then d else JsArray []).
  { unfold props2. destruct (isArray d); cbn [negb]; [done|].
    rewrite prop_set. by rewrite decide_True. }
  clearbody props2.
  split_and!.
  - split_and!.
    + by eexists.
    + rewrite H2, H1 by done. done.
    + rewrite H2, H1p by done. by destruct (is_priority p) eqn:Hi.
    + rewrite H2d. by destruct (isArray d) eqn:Hi.
  - intros key Hk1 Hk2. by rewrite H2, H1.
  - rewrite H2 by done. done.
  - by rewrite H2d, <- Hdd.
Qed.

Lemma normalize_tasks_spec index tasks :
  match normalize_tasks cannot_read index tasks with
  | inr tasks' =>
      Forall2 (λ task task', truthy (prop task "description") = true
                             ∧ defaults_filled task task') tasks tasks'
  | inl _ => Exists (λ task, truthy (prop task "description") = false) tasks
  end.
Proof.
  revert index. induction tasks as [|task rest IH]; intros index; cbn; [done|].
  pose proof (normalize_task_spec index task) as Ht.
  destruct (normalize_task cannot_read index task) as [e|task']; [by left|].
  specialize (IH (S index)).
  destruct (normalize_tasks cannot_read (S index) rest) as [e|rest']; [by right|].
  by constructor.
Qed.

Lemma normalize_task_fixed index task :
  normal_task task → normalize_task cannot_read index task = inr task.
Proof.
  intros ([props ->] & Hd & Hp & Ha). unfold normalize_task, read.
  rewrite Hd, Hp, (is_priority_truthy _ Hp). cbn [negb orb]. by rewrite Ha.
Qed.

Lemma normalize_tasks_fixed index tasks :
  Forall normal_task tasks → normalize_tasks cannot_read index tasks = inr tasks.
Proof.
  intros H. revert index. induction H as [|task rest Ht _ IH]; intros index; [done|].
  cbn. by rewrite normalize_task_fixed, IH.
Qed.

Lemma check_parsed_spec parsed :
  match check_parsed cannot_read parsed with
  | inr response =>
      ∃ tasks tasks',
        prop parsed "tasks" = JsArray tasks ∧
        prop response "tasks" = JsArray tasks' ∧
        (∀ key, key ≠ "tasks" → prop response key = prop parsed key) ∧
        Forall2 (λ task task', truthy (prop task "description") = true
                               ∧ defaults_filled task task') tasks tasks' ∧
        check_parsed cannot_read response = inr response
  | inl e =>
      ∀ tasks, prop parsed "tasks" = JsArray tasks →
               Exists (λ task, truthy (prop task "description") = false) tasks
  end.
Proof.
  unfold check_parsed, read.
  destruct parsed as [| |b|x|s|items|props]; try done.
  destruct (prop (JsObject props) "tasks") as [| |b|x|s|tasks|tprops] eqn:Ht;
    cbn [isArray negb]; rewrite ?orb_true_r; try done.
  cbn [truthy isArray negb orb].
  pose proof (normalize_tasks_spec 0 tasks) as Hn.
  destruct (normalize_tasks cannot_read 0 tasks) as [e|tasks'].
  { by intros ? [= <-]. }
  exists tasks, tasks'. split_and!; [done| | |done|].
  - rewrite prop_set. by rewrite decide_True.
  - intros key Hk. rewrite prop_set. by rewrite decide_False.
  - rewrite prop_set, decide_True by done. cbn [truthy isArray negb orb].
    rewrite normalize_tasks_fixed.
    + by rewrite JsMap_set_set.
    + eapply Forall2_Forall_r; [exact Hn|]. apply Forall_forall.
      by intros t _ t' [_ [Hnt _]].
Qed.

(** X23. [parseResponse], from the value that [JSON.parse] returned.
    It succeeds exactly when the value has a [tasks] array each of whose
    elements has a truthy description. The response is the value with, in
    every task, the priority replaced by ['medium'] unless it is one of
    the three priorities, the dependencies replaced by [[]] unless they
    are an array, and everything else kept; parsing the response again
    returns it unchanged. Every failure is rethrown as an [Error]. *)
Theorem parseResponse_fills_the_defaults parsed :
  match parseResponse_parsed cannot_read (inr parsed) with
  | inr response =>
      ∃ tasks tasks',
        prop parsed "tasks" = JsArray tasks ∧
        prop response "tasks" = JsArray tasks' ∧
        (∀ key, key ≠ "tasks" → prop response key = prop parsed key) ∧
        Forall2 (λ task task', truthy (prop task "description") = true
                               ∧ defaults_filled task task') tasks tasks' ∧
        parseResponse_parsed cannot_read (inr response) = inr response
  | inl e =>
      errorName e = "Error" ∧
      ∀ tasks, prop parsed "tasks" = JsArray tasks →
               Exists (λ task, truthy (prop task "description") = false) tasks
  end.
Proof.
  unfold parseResponse_parsed. pose proof (check_parsed_spec parsed) as H.
  destruct (check_parsed cannot_read parsed) as [e|response]; [done|].
  destruct H as (tasks & tasks' & H1 & H2 & H3 & H4 & H5).
  exists tasks, tasks'. by rewrite H5.
Qed.

Lemma task_errors_spec index task :
  match task_errors number_toString cannot_read cannot_convert index task with
  | inl e => raising task ∧ errorName e = "TypeError"
  | inr es => ¬ raising task ∧ (es = [] ↔ well_formed_task task) ∧ length es ≤ 4
  end.
Proof.
  unfold task_errors, read, well_formed_task, raising_task, nullish.
  destruct task as [| |b|x|s|items|props];
    try (split; [left; by (left + right) | done]); cbn zeta;
    destruct (truthy (prop _ "id")), (truthy (prop _ "description")),
      (truthy (prop _ "priority")), (is_priority (prop _ "priority")),
      (truthy (prop _ "dependencies")), (isArray (prop _ "dependencies"));
    cbn [andb negb app];
    try destruct (template _ (prop _ "priority")) as [text|];
    cbn [app length];
    first
      [ split; [right; by split_and!|done]
      | split_and!;
        [ intros [[|]|(? & ? & ?)]; done
        | split; [try done; tauto|];
          intros (? & ? & Hp & Ha); try done;
          try (by specialize (Hp eq_refl)); try (by specialize (Ha eq_refl))
        | lia ] ].
Qed.

Lemma structure_errors_spec index tasks :
  match structure_errors number_toString cannot_read cannot_convert index tasks with
  | inl e => Exists raising tasks ∧ errorName e = "TypeError"
  | inr es =>
      Forall (λ task, ¬ raising task) tasks ∧
      (es = [] ↔ Forall well_formed_task tasks) ∧
      length es ≤ 4 * length tasks
  end.
Proof.
  revert index. induction tasks as [|task rest IH]; intros index; cbn.
  { split_and!; [done|done|lia]. }
  pose proof (task_errors_spec index task) as Ht.
  destruct (task_errors _ _ _ index task) as [e|es].
  { destruct Ht. split; [by left|done]. }
  destruct Ht as (Hn & Hw & Hl). specialize (IH (S index)).
  destruct (structure_errors _ _ _ (S index) rest) as [e|es'].
  { destruct IH. split; [by right|done]. }
  destruct IH as (Hn' & Hw' & Hl'). split_and!.
  - by constructor.
  - split.
    + intros [-> ->]%app_eq_nil. constructor; [by apply Hw|by apply Hw'].
    + intros [H1 H2]%Forall_cons. apply Hw in H1. apply Hw' in H2. by subst.
  - rewrite length_app. lia.
Qed.

(** X24. [validateTaskStructure] reports [valid] exactly when it
    reports no error, and that is exactly when its argument is an array
    each of whose elements has a truthy id, a truthy description, a
    priority that is falsy or one of the three, and dependencies that are
    falsy or an array. An argument that is not an array gets the single
    error ['Tasks must be an array']; an array gets at most four errors
    per element. The call throws, and what it throws is a [TypeError],
    exactly when an element of the array is [null] or [undefined], or has
    a truthy priority that is none of the three and that the template
    literal of the message cannot convert to a string. *)
Theorem validateTaskStructure_report tasks :
  match validateTaskStructure number_toString cannot_read cannot_convert tasks with
  | inl e =>
      errorName e = "TypeError" ∧
      ∃ items, tasks = JsArray items ∧ Exists raising items
  | inr report =>
      (valid report = true ↔ errors report = []) ∧
      (valid report = true
       ↔ ∃ items, tasks = JsArray items ∧ Forall well_formed_task items) ∧
      (isArray tasks = false → errors report = ["Tasks must be an array"]) ∧
      ∀ items, tasks = JsArray items →
               Forall (λ task, ¬ raising task) items ∧
               length (errors report) ≤ 4 * length items
  end.
Proof.
  unfold validateTaskStructure.
  destruct tasks as [| |b|x|s|items|props];
    try (split_and!; [done| |done|done]; split; [done|by intros (? & ? & _)]).
  pose proof (structure_errors_spec 0 items) as H.
  destruct (structure_errors _ _ _ 0 items) as [e|es].
  { destruct H. split; [done|]. by exists items. }
  destruct H as (Hn & Hw & Hl). cbn [valid errors]. split_and!.
  - rewrite bool_decide_eq_true. by destruct es.
  - rewrite bool_decide_eq_true. split.
    + intros He. exists items. split; [done|]. apply Hw. by destruct es.
    + intros (? & [= <-] & H). apply Hw in H. by subst.
  - done.
  - by intros ? [= <-].
Qed.

Lemma tasksWithIds_spec next tasks :
  Forall normal_task tasks →
  ∃ tasks', tasksWithIds cannot_read uuid next tasks = inr tasks' ∧
            Forall2 (id_filled uuid) tasks tasks' ∧
            Forall normal_task tasks'.
Proof.
  intros H. revert next.
  induction H as [|task rest Ht _ IH]; intros next; cbn.
  { by exists []. }
  destruct Ht as ([props ->] & Hd & Hp & Ha). unfold read.
  set (id := prop (JsObject props) "id").
  destruct (IH (if truthy id then next else S next)) as (rest' & -> & Hr & Hn).
  eexists. split; [done|]. cbn [own_props]. split; constructor; try done.
  - split.
    + intros key Hk. rewrite prop_set. by rewrite decide_False.
    + fold id. rewrite prop_set, decide_True by done.
      destruct (truthy id); [done|by eexists].
  - split_and!; [by eexists|..]; rewrite prop_set, decide_False by done; done.
Qed.

(** X25. What [extractTasksFromTranscript] returns is well formed.
    When [uuidv4] never returns the empty string, the response is an
    object whose one property [tasks] holds the tasks of [parseResponse],
    each with its own truthy id kept or else with a generated one and
    with its other properties kept, and [validateTaskStructure] reports
    it valid, with no error. *)
Theorem extracted_tasks_are_well_formed parsed response :
  (∀ n, uuid n ≠ "") →
  extract_parsed cannot_read not_a_function uuid parsed = inr response →
  ∃ checked tasks tasks',
    parseResponse_parsed cannot_read parsed = inr checked ∧
    prop checked "tasks" = JsArray tasks ∧
    response = JsObject [("tasks", JsArray tasks')] ∧
    Forall2 (id_filled uuid) tasks tasks' ∧
    Forall normal_task tasks' ∧
    validateTaskStructure number_toString cannot_read cannot_convert
      (prop response "tasks")
    = inr (mkStructureReport true []).
Proof.
  intros Hu. unfold extract_parsed.
  destruct (parseResponse_parsed cannot_read parsed) as [e|checked] eqn:Hp; [done|].
  assert (Hc : ∃ tasks, prop checked "tasks" = JsArray tasks
                        ∧ Forall normal_task tasks).
  { destruct parsed as [e|value]; [done|].
    pose proof (check_parsed_spec value) as H. unfold parseResponse_parsed in Hp.
    destruct (check_parsed cannot_read value) as [e|checked']; [done|].
    injection Hp as ->. destruct H as (tasks & tasks' & _ & Ht & _ & Hf & _).
    exists tasks'. split; [done|].
    eapply Forall2_Forall_r; [exact Hf|]. apply Forall_forall.
    by intros t _ t' [_ [Hnt _]]. }
  destruct Hc as (tasks & Ht & Hn).
  assert (Hr : read cannot_read checked "tasks" = inr (JsArray tasks)).
  { unfold read. destruct checked; try done. by rewrite <- Ht. }
  rewrite Hr.
  destruct (tasksWithIds_spec 0 tasks Hn) as (tasks' & -> & Hid & Hn').
  intros [= <-]. exists checked, tasks, tasks'. split_and!; try done.
  change (prop (JsObject [("tasks", JsArray tasks')]) "tasks") with (JsArray tasks').
  unfold validateTaskStructure.
  pose proof (structure_errors_spec 0 tasks') as H.
  destruct (structure_errors _ _ _ 0 tasks') as [e|es].
  { destruct H as [H _]. exfalso. apply Exists_exists in H as (t & Hin & Hraise).
    rewrite Forall_forall in Hn'.
    destruct (Hn' t Hin) as ([props ->] & _ & Hprio & _).
    destruct Hraise as [[|]|(_ & Hno & _)]; [done|done|congruence]. }
  destruct H as (_ & Hw & _).
  assert (He : es = []).
  { apply Hw. apply Forall_lookup. intros k t' Hk.
    destruct (Forall2_lookup_r _ _ _ _ _ Hid Hk) as (t & Hkt & Hidf & Hidv).
    rewrite Forall_lookup in Hn'. destruct (Hn' k t' Hk) as (_ & Hd & Hp' & Ha).
    split_and!; try done.
    destruct (truthy (prop t "id")) eqn:Hti.
    - by rewrite Hidv.
    - destruct Hidv as [n ->]. cbn. apply negb_true_iff, bool_decide_eq_false.
      apply Hu. }
  by subst.
Qed.
End UntypedFacts.

Lemma extracted_tasks_are_well_formed_witness :
  ∃ response,
    extract_parsed scenario_message scenario_message scenario_uuid
      (inr scenario_parsed) = inr response ∧
    prop response "tasks"
    = JsArray
        [JsObject [("description", JsString "draft the plan");
                   ("priority", JsString "medium");
                   ("dependencies", JsArray []);
                   ("id", JsString "uuid-0")];
         JsObject [("id", JsString "t2");
                   ("description", JsString "review the plan");
                   ("priority", JsString "medium");
                   ("dependencies", JsArray [JsString "t1"])]] ∧
    validateTaskStructure scenario_number scenario_message scenario_conversion
      (prop response "tasks")
    = inr (mkStructureReport true []).
Proof.
  destruct (extract_parsed scenario_message scenario_message scenario_uuid
              (inr scenario_parsed)) as [e|response] eqn:He;
    [vm_compute in He; discriminate He|].
  exists response. split; [reflexivity|].
  destruct (extracted_tasks_are_well_formed scenario_number scenario_message
              scenario_message scenario_conversion scenario_uuid
              (inr scenario_parsed) response)
    as (checked & tasks & tasks' & _ & _ & _ & _ & _ & Hv).
  - intros n. discriminate.
  - exact He.
  - split; [|exact Hv]. vm_compute in He. injection He as <-. reflexivity.
Defined.

(** ** Job ids *)

Lemma string_app_length (a b : string) :
  String.length (a +:+ b) = String.length a + String.length b.
Proof. induction a as [|c a IH]; simpl; [done|]. f_equal. exact IH. Qed.

Lemma string_app_inj_suffix (a a' b b' : string) :
  String.length b = String.length b' → a +:+ b = a' +:+ b' → a = a' ∧ b = b'.
Proof.
  intros Hl. revert a'. induction a as [|c a IH]; intros [|c' a']; cbn.
  - done.
  - intros H. apply (f_equal String.length) in H.
    rewrite ?string_app_length in H. cbn [String.length] in H. lia.
  - intros H. apply (f_equal String.length) in H.
    rewrite ?string_app_length in H. cbn [String.length] in H. lia.
  - intros [= -> H]. destruct (IH _ H) as [-> ->]. done.
Qed.

Lemma hex_byte_inj b b' : hex_byte b = hex_byte b' → b = b'.
Proof.
  intros H.
  assert (Hd : ∀ n m, n < 16 → m < 16 → hex_digit n = hex_digit m → n = m).
  { intros n m Hn Hm.
    do 16 (destruct n as [|n]; [do 16 (destruct m as [|m]; [by cbv|]); lia|]). lia. }
  pose proof (Byte.to_nat_bounded b) as Hb.
  pose proof (Byte.to_nat_bounded b') as Hb'.
  pose proof (Nat.div_mod_eq (Byte.to_nat b) 16) as Hn.
  pose proof (Nat.div_mod_eq (Byte.to_nat b') 16) as Hn'.
  pose proof (Nat.mod_upper_bound (Byte.to_nat b) 16) as Hm.
  pose proof (Nat.mod_upper_bound (Byte.to_nat b') 16) as Hm'.
  unfold hex_byte in H.
  remember (Byte.to_nat b / 16) as q. remember (Byte.to_nat b mod 16) as r.
  remember (Byte.to_nat b' / 16) as q'. remember (Byte.to_nat b' mod 16) as r'.
  injection H as H1 H2.
  apply Hd in H1; [|lia..]. apply Hd in H2; [|lia..].
  assert (He : Byte.to_nat b = Byte.to_nat b') by lia.
  apply (f_equal Byte.of_nat) in He. rewrite !Byte.of_to_nat in He. by injection He.
Qed.

Lemma toHex_length bytes : String.length (toHex bytes) = 2 * length bytes.
Proof.
  induction bytes as [|b rest IH]; [done|].
  cbn [toHex]. rewrite string_app_length, IH. cbn [hex_byte String.length length]. lia.
Qed.

Lemma toHex_inj bytes bytes' : toHex bytes = toHex bytes' → bytes = bytes'.
Proof.
  revert bytes'. induction bytes as [|b rest IH]; intros [|b' rest']; try done.
  cbn [toHex]. intros H.
  assert (Hh : hex_byte b = hex_byte b' ∧ toHex rest = toHex rest').
  { unfold hex_byte in *.
    change (String ?c (String ?d EmptyString) +:+ ?s) with (String c (String d s)) in H.
    remember (Byte.to_nat b / 16) as q. remember (Byte.to_nat b mod 16) as r.
    remember (Byte.to_nat b' / 16) as q'. remember (Byte.to_nat b' mod 16) as r'.
    injection H as H1 H2 H3. by rewrite H1, H2. }
  destruct Hh as [Hb Hr]. by rewrite (hex_byte_inj _ _ Hb), (IH _ Hr).
Qed.

Lemma generateJobId_inj timestamp timestamp' bytes bytes' :
  length bytes = length bytes' →
  generateJobId timestamp (toHex bytes) = generateJobId timestamp' (toHex bytes') →
  timestamp = timestamp' ∧ bytes = bytes'.
Proof.
  intros Hl. unfold generateJobId. intros H.
  simpl in H. injection H as H.
  apply (string_app_inj_suffix timestamp timestamp') in H as [Ht Hb].
  - split; [done|]. simpl in Hb. injection Hb as Hb. by apply toHex_inj.
  - by rewrite !string_app_length, !toHex_length, Hl.
Qed.

(** X26. [generateJobId] gives distinct job ids for distinct inputs:
    two calls that differ in the timestamp or in the eight random bytes
    return different ids. The random part of an id is 16 hexadecimal
    digits. *)
Theorem generateJobId_distinct timestamp timestamp' bytes bytes' :
  length bytes = 8 → length bytes' = 8 →
  (timestamp, bytes) ≠ (timestamp', bytes') →
  generateJobId timestamp (toHex bytes) ≠ generateJobId timestamp' (toHex bytes') ∧
  String.length (toHex bytes) = 16.
Proof.
  intros Hl Hl' Hne. split; [|by rewrite toHex_length, Hl].
  intros H. apply Hne.
  destruct (generateJobId_inj _ _ _ _ (eq_trans Hl (eq_sym Hl')) H) as [-> ->].
  done.
Qed.

Lemma generateJobId_distinct_witness :
  generateJobId "m2x9k4c1" (toHex scenario_bytes)
  = "job_m2x9k4c1_00017f80a5c3feff" ∧
  generateJobId "m2x9k4c1" (toHex scenario_bytes)
  ≠ generateJobId "m2x9k4c1" (toHex (reverse scenario_bytes)).
Proof.
  split; [vm_compute; reflexivity|].
  apply (generateJobId_distinct "m2x9k4c1" "m2x9k4c1" scenario_bytes
           (reverse scenario_bytes)); [reflexivity|reflexivity|].
  intros H. discriminate H.
Defined.
